(** * LED animations of [abstract_hardware_interface/led/animations.py]

    A shallow embedding of the seven animation classes and of the few
    collaborators they talk to (the LED device, [threading.Event], the clock
    and the logger), followed by the properties of their [start] loops.

    [start] runs on one thread while [stop] is called from another one.  The
    embedding makes the second thread explicit: a world carries a schedule
    [stops], and every primitive operation of [start] is a scheduling point at
    which a pending [stop()] of the running instance lands.  Time is a clock in
    milliseconds which only the waits advance. *)

From stdpp Require Import base list strings gmap.
From Stdlib Require Import ZArith Floats Lia.

Set Warnings "-inexact-float".
Unset Default Proof Using.
Local Open Scope Z_scope.

(** ** Numbers and colours *)

(** A Python number: the channels of [Color.as_rgb_tuple()] are ints, the
    channels Breathe renders are floats. *)
Inductive num :=
| Int (z : Z)
| Float (f : float).

Definition rgb : Type := num * num * num.

(** int -> float conversion, exact on the range of a colour channel. *)
Definition float_of_Z (z : Z) : float :=
  match z with
  | Z0 => 0%float
  | Zpos _ => PrimFloat.of_uint63 (Uint63.of_Z z)
  | Zneg p => (- PrimFloat.of_uint63 (Uint63.of_Z (Zpos p)))%float
  end.

Definition float_of_num (n : num) : float :=
  match n with
  | Int z => float_of_Z z
  | Float f => f
  end.

(** [brightness * part], with [brightness] a float. *)
Definition mul_num (brightness : float) (part : num) : num :=
  Float (brightness * float_of_num part)%float.

(** [tuple(brightness * part for part in rgb)] *)
Definition scale (brightness : float) (c : rgb) : rgb :=
  let '(r, g, b) := c in
  (mul_num brightness r, mul_num brightness g, mul_num brightness b).

(** Modelled from the spec: [Color] of [ovos_plugin_manager.hardware.led], an
    immutable value that maps to a tuple of three numeric channels, with
    [BLACK] the all-zero value. *)
Record Color := { as_rgb_tuple : rgb }.

Definition BLACK : Color := {| as_rgb_tuple := (Int 0, Int 0, Int 0) |}.

(** ** The LED device *)

(** Modelled from the spec: [AbstractLed] of
    [ovos_plugin_manager.hardware.led].  [num_leds] LEDs; [set_led] writes one
    LED and flushes unless [immediate_show] is false; [fill] writes and shows
    all of them; [show] flushes the pending writes.  [pixels] is what has been
    written, [shown] what the LEDs display.  An index out of range, which no
    animation passes, leaves the LEDs as they are. *)
Module AbstractLed.
Record t := { pixels : list rgb; shown : list rgb }.

Definition num_leds (d : t) : nat := length (pixels d).

Definition set_led (d : t) (led : nat) (c : rgb) (immediate_show : bool) : t :=
  let p := <[led := c]> (pixels d) in
  {| pixels := p; shown := if immediate_show then p else shown d |}.

Definition fill (d : t) (c : rgb) : t :=
  let p := replicate (num_leds d) c in
  {| pixels := p; shown := p |}.

Definition show (d : t) : t :=
  {| pixels := pixels d; shown := pixels d |}.

(** A device whose LEDs all display [l]. *)
Definition showing (l : list rgb) : t := {| pixels := l; shown := l |}.
End AbstractLed.

(** ** Worlds *)

(** [threading.Event]: its internal flag. *)
Definition Event : Type := bool.

(** What a run leaves behind, in order: the calls on the device, the waits
    (with the seconds asked for, in milliseconds), the warnings logged, and a
    mark where a [stop()] of the other thread landed (with the clock then). *)
Inductive event :=
| EFill (c : rgb)
| ESetLed (led : nat) (c : rgb) (immediate_show : bool)
| EShow
| EWait (ms : Z)
| EWarning (msg : string)
| EStop (at_ms : Z).

(** The running instance [self], the shared device, the clock, the trace, the
    number of primitive operations done so far and the schedule of the other
    thread: [stops k] says that [stop()] is called just before (or, for a
    wait, while) operation number [k] executes. *)
Record World (I : Type) := mkWorld {
  self : I;
  leds : AbstractLed.t;
  now : Z;
  trace : list event;
  pc : nat;
  stops : nat -> bool
}.
Arguments mkWorld {I}.
Arguments self {I}.
Arguments leds {I}.
Arguments now {I}.
Arguments trace {I}.
Arguments pc {I}.
Arguments stops {I}.

Definition init_world {I} (i : I) (d : AbstractLed.t) (t0 : Z)
    (sch : nat -> bool) : World I :=
  mkWorld i d t0 [] 0%nat sch.

(** The schedule of a run nobody stops, and of a run stopped once. *)
Definition no_stop : nat -> bool := fun _ => false.
Definition stop_at (k : nat) : nat -> bool := fun j => Nat.eqb j k.

(** A run either returned, or is still inside a [while] loop when the fuel
    (a bound on the loop passes looked at) runs out. *)
Inductive outcome (I A : Type) :=
| Returned (a : A) (w : World I)
| Running (w : World I).
Arguments Returned {I A}.
Arguments Running {I A}.

Definition world_of {I A} (o : outcome I A) : World I :=
  match o with Returned _ w => w | Running w => w end.

Definition M (I A : Type) : Type := World I -> outcome I A.

Definition ret {I A} (a : A) : M I A := fun w => Returned a w.

Definition bind {I A B} (m : M I A) (f : A -> M I B) : M I B :=
  fun w =>
    match m w with
    | Returned a w' => f a w'
    | Running w' => Running w'
    end.

Declare Scope anim_scope.
Delimit Scope anim_scope with anim.
Notation "x <- m ; k" := (bind m (fun x => k))
  (at level 20, m at level 100, k at level 200, only parsing) : anim_scope.
Notation "m ;; k" := (bind m (fun _ => k))
  (at level 100, k at level 200, only parsing, right associativity) : anim_scope.
Local Open Scope anim_scope.

(** A field of an object, as a getter and a setter. *)
Record Lens (S T : Type) := mkLens {
  view : S -> T;
  update : T -> S -> S
}.
Arguments mkLens {S T}.
Arguments view {S T}.
Arguments update {S T}.

Definition idL {S} : Lens S S := mkLens (fun s => s) (fun t _ => t).

Definition composeL {S T U} (l1 : Lens S T) (l2 : Lens T U) : Lens S U :=
  mkLens (fun s => view l2 (view l1 s))
         (fun u s => update l1 (update l2 u (view l1 s)) s).

(** The abstract base class: what the other thread can call. *)
Class LedAnimation (I : Type) := { stop : I -> I }.

Section Primitives.
Context {I : Type} `{LedAnimation I}.

Definition gets {A} (f : World I -> A) : M I A := fun w => Returned (f w) w.

Definition modify_self (f : I -> I) : M I unit := fun w =>
  Returned tt (mkWorld (f (self w)) (leds w) (now w) (trace w) (pc w) (stops w)).

Definition modify_leds (f : AbstractLed.t -> AbstractLed.t) : M I unit := fun w =>
  Returned tt (mkWorld (self w) (f (leds w)) (now w) (trace w) (pc w) (stops w)).

Definition log (e : event) : M I unit := fun w =>
  Returned tt (mkWorld (self w) (leds w) (now w) (trace w ++ [e]) (pc w) (stops w)).

Definition sleep (ms : Z) : M I unit := fun w =>
  Returned tt (mkWorld (self w) (leds w) (now w + ms) (trace w) (pc w) (stops w)).

(** The scheduling point that opens every primitive operation. *)
Definition sched : M I unit := fun w =>
  Returned tt
    (if stops w (pc w)
     then mkWorld (stop (self w)) (leds w) (now w)
                  (trace w ++ [EStop (now w)]) (S (pc w)) (stops w)
     else mkWorld (self w) (leds w) (now w) (trace w) (S (pc w)) (stops w)).

(** [threading.Event]: [clear()], [set()], [is_set()] and [wait(timeout)],
    which returns at once when the flag of this very event is set and after
    the timeout otherwise. *)
Definition Event_clear (e : Lens I Event) : M I unit :=
  sched ;; modify_self (update e false).

Definition Event_set (e : Lens I Event) : M I unit :=
  sched ;; modify_self (update e true).

Definition Event_is_set (e : Lens I Event) : M I bool :=
  sched ;; gets (fun w => view e (self w)).

Definition Event_wait (e : Lens I Event) (ms : Z) : M I unit :=
  sched ;;
  flag <- gets (fun w => view e (self w)) ;
  log (EWait ms) ;;
  if flag : bool then ret tt else sleep (Z.max 0 ms).

(** [time()], in milliseconds. *)
Definition time : M I Z := sched ;; gets now.

Definition LOG_warning (msg : string) : M I unit :=
  sched ;; log (EWarning msg).

(** The calls on [self.leds]. *)
Definition leds_num_leds : M I nat :=
  gets (fun w => AbstractLed.num_leds (leds w)).

Definition leds_fill (c : rgb) : M I unit :=
  sched ;; modify_leds (fun d => AbstractLed.fill d c) ;; log (EFill c).

Definition leds_set_led (led : nat) (c : rgb) (immediate_show : bool) : M I unit :=
  sched ;;
  modify_leds (fun d => AbstractLed.set_led d led c immediate_show) ;;
  log (ESetLed led c immediate_show).

Definition leds_show : M I unit :=
  sched ;; modify_leds AbstractLed.show ;; log EShow.

(** [for x in l: body] *)
Fixpoint for_ {X} (l : list X) (body : X -> M I unit) : M I unit :=
  match l with
  | [] => ret tt
  | x :: l' => body x ;; for_ l' body
  end.

(** [while not stopping.is_set(): body], with the local variables the body
    assigns as the loop state [s]. *)
Fixpoint while_not_set {S} (stopping : Lens I Event) (fuel : nat) (s : S)
    (body : S -> M I S) : M I S :=
  match fuel with
  | O => Running
  | Datatypes.S fuel' =>
      b <- Event_is_set stopping ;
      if b : bool then ret s
      else s' <- body s ; while_not_set stopping fuel' s' body
  end.

(** [end_time = time() + timeout if timeout else None] *)
Definition end_time_of (timeout : option Z) : M I (option Z) :=
  match timeout with
  | None => ret None
  | Some t =>
      if t =? 0 then ret None
      else n <- time ; ret (Some (n + 1000 * t))
  end.

(** [end_time and time() > end_time] *)
Definition timed_out (end_time : option Z) : M I bool :=
  match end_time with
  | None => ret false
  | Some e =>
      if e =? 0 then ret false
      else n <- time ; ret (e <? n)
  end.
End Primitives.

(** ** The animations *)

Module BreatheLedAnimation.
Record t := mk {
  _delay : Event;
  color : Color;
  step : float;
  step_delay : Z;
  stopping : Event
}.

Definition stoppingL : Lens t Event :=
  mkLens stopping
    (fun e a => mk (_delay a) (color a) (step a) (step_delay a) e).
Definition delayL : Lens t Event :=
  mkLens _delay
    (fun e a => mk e (color a) (step a) (step_delay a) (stopping a)).

Definition init (color : Color) : t := mk false color 0.05%float 50 false.

Definition stop (a : t) : t := update stoppingL true a.

#[global] Instance animation : LedAnimation t := Build_LedAnimation t stop.

(** The locals the loop assigns: [brightness], [step] and [ending]. *)
Definition locals : Type := float * float * bool.

Definition start (timeout : option Z) (one_shot : bool) (fuel : nat) : M t unit :=
  Event_clear stoppingL ;;
  end_time <- end_time_of timeout ;
  step0 <- gets (fun w => step (self w)) ;
  while_not_set stoppingL fuel ((0%float, step0, false) : locals)
    (fun '(brightness, step_, ending) =>
      self_step <- gets (fun w => step (self w)) ;
      let step_ :=
        if (1 <=? brightness)%float then (-1 * self_step)%float
        else if (brightness <=? 0)%float then self_step
        else step_ in
      let brightness := (brightness + step_)%float in
      c <- gets (fun w => color (self w)) ;
      leds_fill (scale brightness (as_rgb_tuple c)) ;;
      d <- gets (fun w => step_delay (self w)) ;
      Event_wait delayL d ;;
      if one_shot && (1 <=? brightness)%float then ret (brightness, step_, true)
      else if ending && (brightness <=? 0)%float then
        Event_set stoppingL ;; ret (brightness, step_, ending)
      else
        b <- timed_out end_time ;
        (if b : bool then Event_set stoppingL else ret tt) ;;
        ret (brightness, step_, ending)) ;;
  leds_fill (as_rgb_tuple BLACK).
End BreatheLedAnimation.

Module ChaseLedAnimation.
Record t := mk {
  _delay : Event;
  foreground_color : Color;
  background_color : Color;
  step : float;
  step_delay : Z;
  stopping : Event
}.

Definition stoppingL : Lens t Event :=
  mkLens stopping
    (fun e a => mk (_delay a) (foreground_color a) (background_color a)
                   (step a) (step_delay a) e).
Definition delayL : Lens t Event :=
  mkLens _delay
    (fun e a => mk e (foreground_color a) (background_color a)
                   (step a) (step_delay a) (stopping a)).

Definition init (foreground_color background_color : Color) : t :=
  mk false foreground_color background_color 0.05%float 100 false.

Definition stop (a : t) : t := update stoppingL true a.

#[global] Instance animation : LedAnimation t := Build_LedAnimation t stop.

Definition start (timeout : option Z) (one_shot : bool) (fuel : nat) : M t unit :=
  Event_clear stoppingL ;;
  end_time <- end_time_of timeout ;
  bg <- gets (fun w => background_color (self w)) ;
  leds_fill (as_rgb_tuple bg) ;;
  while_not_set stoppingL fuel tt (fun _ =>
    n <- leds_num_leds ;
    for_ (seq 0 n) (fun led =>
      fg <- gets (fun w => foreground_color (self w)) ;
      leds_set_led led (as_rgb_tuple fg) true ;;
      d <- gets (fun w => step_delay (self w)) ;
      Event_wait delayL d ;;
      bg <- gets (fun w => background_color (self w)) ;
      leds_set_led led (as_rgb_tuple bg) true) ;;
    if one_shot then Event_set stoppingL
    else
      b <- timed_out end_time ;
      if b : bool then Event_set stoppingL else ret tt) ;;
  leds_fill (as_rgb_tuple BLACK).
End ChaseLedAnimation.

Module FillLedAnimation.
Record t := mk {
  _delay : Event;
  fill_color : Color;
  reverse : bool;
  step_delay : Z
}.

Definition delayL : Lens t Event :=
  mkLens _delay (fun e a => mk e (fill_color a) (reverse a) (step_delay a)).
Definition fill_colorL : Lens t Color :=
  mkLens fill_color (fun c a => mk (_delay a) c (reverse a) (step_delay a)).
Definition reverseL : Lens t bool :=
  mkLens reverse (fun r a => mk (_delay a) (fill_color a) r (step_delay a)).

Definition init (fill_color : Color) (reverse : bool) : t :=
  mk false fill_color reverse 50.

(** [pass] *)
Definition stop (a : t) : t := a.

#[global] Instance animation : LedAnimation t := Build_LedAnimation t stop.

Definition unsupported : string :=
  "Fill animation does not support persistent animation".

(** [this] is the Fill object the method runs on: the running instance
    itself, or the [fill_animation] a Refill or Bounce instance owns. *)
Definition start {I} `{LedAnimation I} (this : Lens I t)
    (timeout : option Z) (one_shot : bool) : M I unit :=
  (if negb one_shot || bool_decide (timeout <> None)
   then LOG_warning unsupported else ret tt) ;;
  n <- leds_num_leds ;
  r <- gets (fun w => reverse (view this (self w))) ;
  let leds := if r : bool then rev (seq 0 n) else seq 0 n in
  for_ leds (fun led =>
    c <- gets (fun w => fill_color (view this (self w))) ;
    leds_set_led led (as_rgb_tuple c) true ;;
    d <- gets (fun w => step_delay (view this (self w))) ;
    Event_wait (composeL this delayL) d).
End FillLedAnimation.

Module RefillLedAnimation.
Record t := mk {
  _delay : Event;
  stopping : Event;
  fill_color : Color;
  fill_animation : FillLedAnimation.t
}.

Definition stoppingL : Lens t Event :=
  mkLens stopping (fun e a => mk (_delay a) e (fill_color a) (fill_animation a)).
Definition fill_animationL : Lens t FillLedAnimation.t :=
  mkLens fill_animation (fun f a => mk (_delay a) (stopping a) (fill_color a) f).

Definition init (fill_color : Color) (reverse : bool) : t :=
  mk false false fill_color (FillLedAnimation.init fill_color reverse).

Definition stop (a : t) : t := update stoppingL true a.

#[global] Instance animation : LedAnimation t := Build_LedAnimation t stop.

(** One pass of the loop up to its stop conditions: Fill in the colour,
    Fill in black. *)
Definition cycle : M t unit :=
  FillLedAnimation.start fill_animationL None true ;;
  modify_self (update (composeL fill_animationL FillLedAnimation.fill_colorL) BLACK) ;;
  FillLedAnimation.start fill_animationL None true ;;
  c <- gets (fun w => fill_color (self w)) ;
  modify_self (update (composeL fill_animationL FillLedAnimation.fill_colorL) c).

Definition start (timeout : option Z) (one_shot : bool) (fuel : nat) : M t unit :=
  Event_clear stoppingL ;;
  end_time <- end_time_of timeout ;
  while_not_set stoppingL fuel tt (fun _ =>
    cycle ;;
    if one_shot then Event_set stoppingL
    else
      b <- timed_out end_time ;
      if b : bool then Event_set stoppingL else ret tt).
End RefillLedAnimation.

Module BounceLedAnimation.
Record t := mk {
  _delay : Event;
  stopping : Event;
  fill_color : Color;
  fill_animation : FillLedAnimation.t
}.

Definition stoppingL : Lens t Event :=
  mkLens stopping (fun e a => mk (_delay a) e (fill_color a) (fill_animation a)).
Definition fill_animationL : Lens t FillLedAnimation.t :=
  mkLens fill_animation (fun f a => mk (_delay a) (stopping a) (fill_color a) f).

Definition init (fill_color : Color) (reverse : bool) : t :=
  mk false false fill_color (FillLedAnimation.init fill_color reverse).

Definition stop (a : t) : t := update stoppingL true a.

#[global] Instance animation : LedAnimation t := Build_LedAnimation t stop.

(** [self.fill_animation.reverse = not self.fill_animation.reverse] *)
Definition flip_reverse : M t unit :=
  r <- gets (fun w => FillLedAnimation.reverse (fill_animation (self w))) ;
  modify_self (update (composeL fill_animationL FillLedAnimation.reverseL) (negb r)).

(** One pass of the loop up to its stop conditions: Fill in the colour,
    Fill in black the other way round. *)
Definition cycle : M t unit :=
  FillLedAnimation.start fill_animationL None true ;;
  flip_reverse ;;
  modify_self (update (composeL fill_animationL FillLedAnimation.fill_colorL) BLACK) ;;
  FillLedAnimation.start fill_animationL None true ;;
  flip_reverse ;;
  c <- gets (fun w => fill_color (self w)) ;
  modify_self (update (composeL fill_animationL FillLedAnimation.fill_colorL) c).

Definition start (timeout : option Z) (one_shot : bool) (fuel : nat) : M t unit :=
  Event_clear stoppingL ;;
  end_time <- end_time_of timeout ;
  while_not_set stoppingL fuel tt (fun _ =>
    cycle ;;
    if one_shot then Event_set stoppingL
    else
      b <- timed_out end_time ;
      if b : bool then Event_set stoppingL else ret tt).
End BounceLedAnimation.

Module BlinkLedAnimation.
Record t := mk {
  _delay : Event;
  stopping : Event;
  color : Color;
  num_blinks : Z;
  repeat : bool
}.

Definition stoppingL : Lens t Event :=
  mkLens stopping (fun e a => mk (_delay a) e (color a) (num_blinks a) (repeat a)).
Definition delayL : Lens t Event :=
  mkLens _delay (fun e a => mk e (stopping a) (color a) (num_blinks a) (repeat a)).

Definition init (color : Color) (num_blinks : Z) (repeat : bool) : t :=
  mk false false color num_blinks repeat.

Definition stop (a : t) : t := update stoppingL true a.

#[global] Instance animation : LedAnimation t := Build_LedAnimation t stop.

(** The [for i in range(self.num_blinks)] loop. *)
Definition blinks : M t unit :=
  n <- gets (fun w => num_blinks (self w)) ;
  for_ (seq 0 (Z.to_nat n)) (fun _ =>
    c <- gets (fun w => color (self w)) ;
    leds_fill (as_rgb_tuple c) ;;
    Event_wait delayL 250 ;;
    leds_fill (as_rgb_tuple BLACK) ;;
    Event_wait delayL 500).

Definition start (timeout : option Z) (one_shot : bool) (fuel : nat) : M t unit :=
  Event_clear stoppingL ;;
  end_time <- end_time_of timeout ;
  leds_fill (as_rgb_tuple BLACK) ;;
  Event_wait delayL 500 ;;
  while_not_set stoppingL fuel tt (fun _ =>
    blinks ;;
    r <- gets (fun w => repeat (self w)) ;
    (if one_shot then Event_set stoppingL
     else if r : bool then Event_wait delayL 2000
     else Event_set stoppingL) ;;
    b <- timed_out end_time ;
    if b : bool then Event_set stoppingL else ret tt).
End BlinkLedAnimation.

Module AlternatingLedAnimation.
Record t := mk {
  _delay : Event;
  stopping : Event;
  color : Color;
  delay : Z
}.

Definition stoppingL : Lens t Event :=
  mkLens stopping (fun e a => mk (_delay a) e (color a) (delay a)).
Definition delayL : Lens t Event :=
  mkLens _delay (fun e a => mk e (stopping a) (color a) (delay a)).

Definition init (color : Color) : t := mk false false color 500.

Definition stop (a : t) : t := update stoppingL true a.

#[global] Instance animation : LedAnimation t := Build_LedAnimation t stop.

(** The [for led in range(self.leds.num_leds)] loop and the flush. *)
Definition frame (evens : bool) : M t unit :=
  n <- leds_num_leds ;
  for_ (seq 0 n) (fun led =>
    c <- gets (fun w => color (self w)) ;
    if evens && (led mod 2 =? 0)%nat then leds_set_led led (as_rgb_tuple c) false
    else if negb evens && (led mod 2 =? 1)%nat then
      leds_set_led led (as_rgb_tuple c) false
    else leds_set_led led (as_rgb_tuple BLACK) false) ;;
  leds_show.

Definition start (timeout : option Z) (one_shot : bool) (fuel : nat) : M t unit :=
  leds_fill (as_rgb_tuple BLACK) ;;
  Event_clear stoppingL ;;
  end_time <- end_time_of timeout ;
  while_not_set stoppingL fuel true (fun evens =>
    frame evens ;;
    d <- gets (fun w => delay (self w)) ;
    Event_wait delayL d ;;
    let evens := negb evens in
    (if one_shot && evens then Event_set stoppingL
     else
       b <- timed_out end_time ;
       if b : bool then Event_set stoppingL else ret tt) ;;
    ret evens) ;;
  leds_fill (as_rgb_tuple BLACK).
End AlternatingLedAnimation.

(** A call of a method on a fresh thread: instance [i], device [d], clock
    [t0], and [sch] the [stop()] calls of the other thread. *)
Definition run {I A} (m : M I A) (i : I) (d : AbstractLed.t) (t0 : Z)
    (sch : nat -> bool) : outcome I A :=
  m (init_world i d t0 sch).

(** ** Reading traces *)

Definition is_stop (e : event) : bool :=
  match e with EStop _ => true | _ => false end.

Definition is_wait (e : event) : bool :=
  match e with EWait _ => true | _ => false end.

Definition is_set_led (e : event) : bool :=
  match e with ESetLed _ _ _ => true | _ => false end.

(** What [start] itself did: the trace without the marks of the other thread. *)
Fixpoint calls (tr : list event) : list event :=
  match tr with
  | [] => []
  | e :: tr' => if is_stop e then calls tr' else e :: calls tr'
  end.

Definition stopped (tr : list event) : bool := existsb is_stop tr.

(** What happened after the first [stop()] landed. *)
Fixpoint after_stop (tr : list event) : list event :=
  match tr with
  | [] => []
  | e :: tr' => if is_stop e then tr' else after_stop tr'
  end.

(** The number of events of a kind in a trace. *)
Fixpoint count (f : event -> bool) (tr : list event) : nat :=
  match tr with
  | [] => 0%nat
  | e :: tr' => ((if f e then 1 else 0) + count f tr')%nat
  end.

(** The waits started, and the [set_led] calls made, after the first
    [stop()] landed. *)
Definition waits_after_stop (tr : list event) : nat :=
  count is_wait (after_stop tr).

Definition set_leds_after_stop (tr : list event) : nat :=
  count is_set_led (after_stop tr).

(** The clock when the first [stop()] landed. *)
Fixpoint stop_time (tr : list event) : option Z :=
  match tr with
  | [] => None
  | EStop t :: _ => Some t
  | _ :: tr' => stop_time tr'
  end.

(** Every LED of the device displays [c]. *)
Definition all_leds (c : rgb) (d : AbstractLed.t) : Prop :=
  forall led, (led < AbstractLed.num_leds d)%nat ->
    AbstractLed.shown d !! led = Some c.

(** ** Assertions on runs *)

Local Open Scope nat_scope.

(** Total correctness: from a world in [P] the computation returns, in [Q]. *)
Definition triple {I A} (P : World I -> Prop) (m : M I A)
    (Q : A -> World I -> Prop) : Prop :=
  forall w, P w -> exists a w', m w = Returned a w' /\ Q a w'.

(** The flag [stopping] is the one [stop()] raises, and [obs] reads fields of
    the instance that neither [stop()] nor an assignment to the flag changes. *)
Class Stoppable {I : Type} `{LedAnimation I} {X : Type}
    (stopping : Lens I Event) (obs : I -> X) : Prop := {
  stop_sets : forall i, view stopping (stop i) = true;
  stop_obs : forall i, obs (stop i) = obs i;
  set_view : forall e i, view stopping (update stopping e i) = e;
  set_obs : forall e i, obs (update stopping e i) = obs i
}.

Section Assertions.
Context {I : Type} {X : Type}.
(** The flag [stop()] raises and the loop of [start] reads, and the fields
    of the instance that nothing assigns. *)
Variable stopping : Lens I Event.
Variable obs : I -> X.
(** The schedule of the other thread, the number of LEDs and the constant
    fields of the run looked at. *)
Variable sch : nat -> bool.
Variable n : nat.
Variable x : X.

(** Before the flag is reset: nothing landed yet. *)
Record fresh (p : nat) (w : World I) : Prop := {
  fresh_stops : stops w = sch;
  fresh_leds : AbstractLed.num_leds (leds w) = n;
  fresh_obs : obs (self w) = x;
  fresh_trace : stopped (trace w) = false;
  fresh_caught : forall j, j < pc w -> sch j = false;
  fresh_pc : pc w = p
}.

(** After the flag is reset: a [stop()] that landed has raised the flag,
    every call scheduled before [pc] has landed, at most [b] waits were
    started since the first one, and at least [p] operations are done. *)
Record inv (b p : nat) (w : World I) : Prop := {
  inv_stops : stops w = sch;
  inv_leds : AbstractLed.num_leds (leds w) = n;
  inv_obs : obs (self w) = x;
  inv_good : stopped (trace w) = true -> view stopping (self w) = true;
  inv_caught : forall j, j < pc w -> sch j = true -> stopped (trace w) = true;
  inv_waits : waits_after_stop (trace w) <= b;
  inv_pc : p <= pc w
}.

(** [m] returns, keeps the invariant and starts at most [B] waits. *)
Definition steps {A} (B : nat) (m : M I A) : Prop :=
  forall b p, triple (inv b p) m (fun _ => inv (b + B) p).

End Assertions.

Arguments fresh_stops {I X obs sch n x p w}.
Arguments fresh_leds {I X obs sch n x p w}.
Arguments fresh_obs {I X obs sch n x p w}.
Arguments fresh_trace {I X obs sch n x p w}.
Arguments fresh_caught {I X obs sch n x p w}.
Arguments fresh_pc {I X obs sch n x p w}.
Arguments inv_stops {I X stopping obs sch n x b p w}.
Arguments inv_leds {I X stopping obs sch n x b p w}.
Arguments inv_obs {I X stopping obs sch n x b p w}.
Arguments inv_good {I X stopping obs sch n x b p w}.
Arguments inv_caught {I X stopping obs sch n x b p w}.
Arguments inv_waits {I X stopping obs sch n x b p w}.
Arguments inv_pc {I X stopping obs sch n x b p w}.

(** What the device calls of a trace do to the device. *)
Definition apply_call (d : AbstractLed.t) (e : event) : AbstractLed.t :=
  match e with
  | EFill c => AbstractLed.fill d c
  | ESetLed led c im => AbstractLed.set_led d led c im
  | EShow => AbstractLed.show d
  | _ => d
  end.

Fixpoint replay (es : list event) (d : AbstractLed.t) : AbstractLed.t :=
  match es with
  | [] => d
  | e :: es' => replay es' (apply_call d e)
  end.

(** [m] returns whatever the other thread does, having made exactly the calls
    [es]; [obs] reads the fields of the instance the calls depend on, [x]
    before and [x'] after, and [n] is the number of LEDs. *)
Definition emits {I X A} (obs : I -> X) (n : nat) (x : X) (m : M I A)
    (es : list event) (x' : X) : Prop :=
  forall w, obs (self w) = x -> AbstractLed.num_leds (leds w) = n ->
    exists a w',
      m w = Returned a w'
      /\ calls (trace w') = calls (trace w) ++ es
      /\ leds w' = replay es (leds w)
      /\ obs (self w') = x'
      /\ AbstractLed.num_leds (leds w') = n.

(** [m] only ever appends to the trace, as far as it gets. *)
Definition extends {I A} (m : M I A) : Prop :=
  forall w, exists tr, trace (world_of (m w)) = trace w ++ tr.

(** [m] begins, whatever the other thread does, with the calls [es]. *)
Definition begins {I X A} (obs : I -> X) (n : nat) (x : X) (m : M I A)
    (es : list event) : Prop :=
  forall w, obs (self w) = x -> AbstractLed.num_leds (leds w) = n ->
    exists rest,
      calls (trace (world_of (m w))) = calls (trace w) ++ es ++ rest.

(** The fields a Refill or Bounce cycle depends on: the colour and the Fill
    object it owns. *)
Definition refill_obs (i : RefillLedAnimation.t) : Color * FillLedAnimation.t :=
  (RefillLedAnimation.fill_color i, RefillLedAnimation.fill_animation i).

Definition bounce_obs (i : BounceLedAnimation.t) : Color * FillLedAnimation.t :=
  (BounceLedAnimation.fill_color i, BounceLedAnimation.fill_animation i).

(** ** What the patterns should do *)

(** The order in which Fill visits the LEDs. *)
Definition led_order (reverse : bool) (n : nat) : list nat :=
  if reverse then rev (seq 0 n) else seq 0 n.

(** One Fill pass: each LED in turn set to the colour, then a wait. *)
Definition fill_pass (c : rgb) (ms : Z) (order : list nat) : list event :=
  flat_map (fun led => [ESetLed led c true; EWait ms]) order.

(** One Chase sweep: each LED in turn lit, a wait, then set back. *)
Definition chase_sweep (fg bg : rgb) (ms : Z) (n : nat) : list event :=
  flat_map (fun led => [ESetLed led fg true; EWait ms; ESetLed led bg true])
           (seq 0 n).

(** One Blink burst: on, short wait, off, long wait, [n] times. *)
Definition blink_burst (c : rgb) (n : nat) : list event :=
  flat_map (fun _ => [EFill c; EWait 250; EFill (as_rgb_tuple BLACK); EWait 500])
           (seq 0 n).

(** An Alternating frame: the LEDs of one parity lit, the others off, and one
    flush. *)
Definition lit (evens : bool) (led : nat) : bool :=
  if evens then led mod 2 =? 0 else led mod 2 =? 1.

Definition frame_calls (c : rgb) (evens : bool) (n : nat) : list event :=
  map (fun led =>
         ESetLed led (if lit evens led then c else as_rgb_tuple BLACK) false)
      (seq 0 n)
  ++ [EShow].

(** The frames of Breathe for a list of brightness values: the LEDs filled
    with the three channels of the colour, each multiplied by the brightness,
    then a wait. *)
Definition breathe_frames (red green blue : float) (ms : Z) (bs : list float)
    : list event :=
  flat_map (fun x =>
              [EFill (Float (x * red), Float (x * green), Float (x * blue));
               EWait ms]) bs.

(** [n] steps of [step] from [b], the start excluded. *)
Fixpoint ramp (n : nat) (b step : float) : list float :=
  match n with
  | O => []
  | S n' => let b' := (b + step)%float in b' :: ramp n' b' step
  end.

(** The brightness values of one breath: twenty steps of 0.05 up from 0, then
    twenty steps down from where that got. *)
Definition breathe_up : list float := ramp 20 0 0.05.
Definition breathe_peak : float := List.last breathe_up 0%float.
Definition breathe_down : list float := ramp 20 breathe_peak (-1 * 0.05).

Definition increasing (bs : list float) : bool :=
  forallb (fun p => (fst p <? snd p)%float) (zip bs (tail bs)).

Definition decreasing (bs : list float) : bool :=
  forallb (fun p => (snd p <? fst p)%float) (zip bs (tail bs)).

(** The calls of one Refill cycle and of one Bounce cycle. *)
Definition refill_cycle_calls (c : Color) (reverse : bool) (n : nat) : list event :=
  fill_pass (as_rgb_tuple c) 50 (led_order reverse n)
  ++ fill_pass (as_rgb_tuple BLACK) 50 (led_order reverse n).

Definition bounce_cycle_calls (c : Color) (reverse : bool) (n : nat) : list event :=
  fill_pass (as_rgb_tuple c) 50 (led_order reverse n)
  ++ fill_pass (as_rgb_tuple BLACK) 50 (led_order (negb reverse) n).

(** The calls of one pass of the Blink loop. *)
Definition blink_obs (i : BlinkLedAnimation.t) : Color * Z * bool :=
  (BlinkLedAnimation.color i, BlinkLedAnimation.num_blinks i,
   BlinkLedAnimation.repeat i).

Definition blink_pass_calls (c : Color) (num_blinks : Z) (repeat one_shot : bool)
    : list event :=
  blink_burst (as_rgb_tuple c) (Z.to_nat num_blinks)
  ++ (if one_shot then [] else if repeat then [EWait 2000] else []).

(** ** What the spec asks of [stop()] *)

(** [start] returned, and started at most one wait after [stop()] landed. *)
Definition returns_within_one_wait {I A} (o : outcome I A) : Prop :=
  match o with
  | Returned _ w => waits_after_stop (trace w) <= 1
  | Running _ => False
  end.

Definition has_returned {I A} (o : outcome I A) : bool :=
  match o with Returned _ _ => true | Running _ => false end.

(** The wait on [delay] never lasts longer than asked, [stop()] leaves the
    event it waits on alone, and while that event is unset the wait lasts the
    whole time asked for, whatever the other thread does. *)
Definition wait_ignores_stop {I} `{LedAnimation I} (delay : Lens I Event) : Prop :=
  (forall i, view delay (stop i) = view delay i)
  /\ forall (w : World I) (ms : Z), (0 <= ms)%Z ->
       let o := Event_wait delay ms w in
       has_returned o = true
       /\ (now w <= now (world_of o) <= now w + ms)%Z
       /\ (view delay (self w) = false -> now (world_of o) = (now w + ms)%Z).

(** A wait of an instance on which [stop()] was called takes less than the
    time asked for. *)
Definition wait_observes_stop {I} `{LedAnimation I} (delay : Lens I Event) : Prop :=
  forall (i : I) d t0 sch ms, (0 < ms)%Z ->
    (now (world_of (Event_wait delay ms (init_world (stop i) d t0 sch)))
     < t0 + ms)%Z.

(** After [stop()] landed in a Fill pass that had [left] LEDs still to set,
    fewer [set_led] calls follow. *)
Definition fill_pass_cut_short (left : nat) (tr : list event) : Prop :=
  set_leds_after_stop tr < left.

(** Some colours and devices to run the code on. *)
Definition red : Color := {| as_rgb_tuple := (Int 255, Int 0, Int 0) |}.

Definition blue : Color := {| as_rgb_tuple := (Int 0, Int 0, Int 255) |}.

Definition strip (n : nat) (c : Color) : AbstractLed.t :=
  AbstractLed.showing (replicate n (as_rgb_tuple c)).

(** ** The registry *)

(** The seven classes, as the values of the [animations] dict. *)
Inductive pattern :=
| Breathe | Chase | Fill | Refill | Bounce | Blink | Alternating.

Definition animations_items : list (string * pattern) :=
  [("breathe"%string, Breathe); ("chase"%string, Chase); ("fill"%string, Fill);
   ("refill"%string, Refill); ("bounce"%string, Bounce); ("blink"%string, Blink);
   ("alternating"%string, Alternating)].

(** [animations[name]] is [animations !! name], [None] standing for the
    [KeyError] of a name that is not a key. *)
Definition animations : gmap string pattern := list_to_map animations_items.

(** ** Invariants of runs *)

(** A [set_led] call addresses one of the [n] LEDs. *)
Definition in_range (n : nat) (e : event) : Prop :=
  match e with
  | ESetLed led _ _ => led < n
  | _ => True
  end.

(** As far as [m] gets and whatever the other thread does, the instance stays
    in [P], the device keeps its [n] LEDs and every event added is in [ok]. *)
Definition safe {I A} (P : I -> Prop) (n : nat) (ok : event -> Prop)
    (m : M I A) : Prop :=
  forall w, P (self w) -> AbstractLed.num_leds (leds w) = n ->
    P (self (world_of (m w)))
    /\ AbstractLed.num_leds (leds (world_of (m w))) = n
    /\ exists tr, trace (world_of (m w)) = trace w ++ tr /\ Forall ok tr.

(** The fields a Chase sweep depends on. *)
Definition chase_obs (i : ChaseLedAnimation.t) : Color * Color * Z :=
  (ChaseLedAnimation.foreground_color i, ChaseLedAnimation.background_color i,
   ChaseLedAnimation.step_delay i).

(** ** The frames of Alternating *)

(** The body of the loop of Alternating's [start]: one frame, the wait, the
    phase flipped, the stop conditions. *)
Definition alternating_pass (one_shot : bool) (end_time : option Z)
    (evens : bool) : M AlternatingLedAnimation.t bool :=
  bind (AlternatingLedAnimation.frame evens) (fun _ =>
    bind (gets (fun w => AlternatingLedAnimation.delay (self w))) (fun d =>
      bind (Event_wait AlternatingLedAnimation.delayL d) (fun _ =>
        let evens := negb evens in
        bind (if one_shot && evens
              then Event_set AlternatingLedAnimation.stoppingL
              else bind (timed_out end_time) (fun b =>
                     if b : bool then Event_set AlternatingLedAnimation.stoppingL
                     else ret tt))
             (fun _ => ret evens)))).

(** [m] frames in a row, the first in the phase [evens], the phase flipped
    after each, and a wait after each. *)
Fixpoint alternating_frames (c : rgb) (ms : Z) (n : nat) (evens : bool)
    (m : nat) : list event :=
  match m with
  | O => []
  | S m' =>
      frame_calls c evens n ++ [EWait ms]
      ++ alternating_frames c ms n (negb evens) m'
  end.

(** The fields a frame and its wait depend on. *)
Definition alternating_obs (i : AlternatingLedAnimation.t) : Color * Z :=
  (AlternatingLedAnimation.color i, AlternatingLedAnimation.delay i).

(** ** Runs nobody stops *)

(** The deadline [start] computes from its [timeout], in milliseconds, when
    the clock shows [t0]: none for no timeout and for a timeout of zero. *)
Definition deadline (timeout : option Z) (t0 : Z) : option Z :=
  match timeout with
  | None => None
  | Some z => if (z =? 0)%Z then None else Some (t0 + 1000 * z)%Z
  end.

(** The test [end_time and time() > end_time] succeeds at time [t]. *)
Definition deadline_passed (end_time : option Z) (t : Z) : Prop :=
  match end_time with
  | Some e => e <> 0%Z /\ (e < t)%Z
  | None => False
  end.

(** The flag is up only once the deadline has passed. *)
Definition ends_late {I} (stopping : Lens I Event) (end_time : option Z)
    (i : I) (t : Z) : Prop :=
  view stopping i = true -> deadline_passed end_time t.

(** When no [stop()] arrives: from an instance and a clock in [P], if [m]
    returns, then with a value, an instance and a clock in [Q]. *)
Definition calm {I A} (P : I -> Z -> Prop) (m : M I A)
    (Q : A -> I -> Z -> Prop) : Prop :=
  forall w, stops w = no_stop -> P (self w) (now w) ->
    forall a w', m w = Returned a w' ->
      stops w' = no_stop /\ Q a (self w') (now w').

(** * Properties *)

Lemma calls_app tr1 tr2 : calls (tr1 ++ tr2) = calls tr1 ++ calls tr2.
Proof.
  induction tr1 as [|e tr1 IH]; simpl; [done|].
  destruct (is_stop e); simpl; by rewrite IH.
Qed.

Lemma stopped_app tr1 tr2 : stopped (tr1 ++ tr2) = stopped tr1 || stopped tr2.
Proof. apply existsb_app. Qed.

Lemma count_app f tr1 tr2 : count f (tr1 ++ tr2) = count f tr1 + count f tr2.
Proof. induction tr1 as [|e tr1 IH]; simpl; [done|]. rewrite IH. lia. Qed.

Lemma after_stop_app tr1 tr2 :
  after_stop (tr1 ++ tr2)
  = if stopped tr1 then after_stop tr1 ++ tr2 else after_stop tr2.
Proof.
  induction tr1 as [|e tr1 IH]; simpl; [done|].
  destruct (is_stop e); simpl; [done|]. apply IH.
Qed.

Lemma waits_after_stop_snoc tr e :
  waits_after_stop (tr ++ [e])
  = if stopped tr
    then waits_after_stop tr + (if is_wait e then 1 else 0)
    else 0.
Proof.
  unfold waits_after_stop. rewrite after_stop_app.
  destruct (stopped tr).
  - rewrite count_app. simpl. lia.
  - destruct e; reflexivity.
Qed.

Lemma waits_after_stop_fresh tr : stopped tr = false -> waits_after_stop tr = 0.
Proof.
  unfold waits_after_stop.
  induction tr as [|e tr IH]; simpl; [done|].
  destruct (is_stop e); simpl; [done|]. apply IH.
Qed.

(** ** A program logic for the loops *)

Lemma triple_bind {I A B} (P : World I -> Prop) (m : M I A) Q (f : A -> M I B) R :
  triple P m Q -> (forall a, triple (Q a) (f a) R) -> triple P (bind m f) R.
Proof.
  intros Hm Hf w HP. destruct (Hm w HP) as (a & w1 & E & HQ).
  unfold bind. rewrite E. by apply Hf.
Qed.

Lemma triple_conseq {I A} (P P' : World I -> Prop) (m : M I A) (Q Q' : A -> World I -> Prop) :
  triple P m Q -> (forall w, P' w -> P w) -> (forall a w, Q a w -> Q' a w) ->
  triple P' m Q'.
Proof.
  intros Hm HP HQ w Hw. destruct (Hm w (HP w Hw)) as (a & w1 & E & H1).
  exists a, w1. split; [done|]. by apply HQ.
Qed.

Lemma triple_post {I A} (P : World I -> Prop) (m : M I A) (Q Q' : A -> World I -> Prop) :
  triple P m Q -> (forall a w, Q a w -> Q' a w) -> triple P m Q'.
Proof. intros Hm HQ. by apply (triple_conseq P P m Q Q'). Qed.

Section Bounded.
Context {I : Type} `{LedAnimation I} {X : Type}.
Context (stopping : Lens I Event) (obs : I -> X) `{!Stoppable stopping obs}.
Variables (sch : nat -> bool) (n : nat) (x : X).

Local Abbreviation fresh := (fresh obs sch n x).
Local Abbreviation inv := (inv stopping obs sch n x).
Local Abbreviation steps := (steps stopping obs sch n x).

Lemma inv_weaken b b' p p' w : b <= b' -> p' <= p -> inv b p w -> inv b' p' w.
Proof. intros Hb Hp []. constructor; auto; lia. Qed.

Lemma steps_weaken {A} B B' (m : M I A) : B <= B' -> steps B m -> steps B' m.
Proof.
  intros HB Hm b p. eapply triple_conseq; [apply (Hm b p) | done |].
  intros ? w; simpl. apply inv_weaken; lia.
Qed.

Lemma steps_ret {A} (a : A) : steps 0 (ret a).
Proof.
  intros b p w Hw. exists a, w. split; [done|].
  eapply inv_weaken; [| |exact Hw]; lia.
Qed.

Lemma steps_bind {A C} B1 B2 (m : M I A) (f : A -> M I C) :
  steps B1 m -> (forall a, steps B2 (f a)) -> steps (B1 + B2) (bind m f).
Proof.
  intros Hm Hf b p. eapply triple_bind; [apply (Hm b p)|].
  intros a. eapply triple_conseq; [apply (Hf a (b + B1) p) | done |].
  intros ? w; simpl. apply inv_weaken; lia.
Qed.

Lemma steps_if {A} B1 B2 (c : bool) (m1 m2 : M I A) :
  steps B1 m1 -> steps B2 m2 -> steps (B1 + B2) (if c then m1 else m2).
Proof.
  intros H1 H2. destruct c; [eapply steps_weaken; [|exact H1] | eapply steps_weaken; [|exact H2]]; lia.
Qed.

Lemma steps_gets {A} (f : World I -> A) : steps 0 (gets f).
Proof.
  intros b p w Hw. exists (f w), w. split; [done|].
  eapply inv_weaken; [| |exact Hw]; lia.
Qed.

(** A value read from the world that the invariant determines. *)
Lemma steps_read {A C} B (g : World I -> A) (v : A) (f : A -> M I C) :
  (forall b p w, inv b p w -> g w = v) -> steps B (f v) -> steps B (bind (gets g) f).
Proof.
  intros Hg Hf b p w Hw. unfold bind, gets. rewrite (Hg b p w Hw).
  by apply Hf.
Qed.

Lemma steps_num_leds {C} B (f : nat -> M I C) :
  steps B (f n) -> steps B (bind leds_num_leds f).
Proof.
  intros Hf. unfold leds_num_leds. apply (steps_read B _ n f); [|done].
  intros b p w Hw. apply Hw.
Qed.

Lemma steps_sched : steps 0 sched.
Proof.
  intros b p w Hw. destruct Hw as [Hs Hl Ho Hg Hc Hb Hp].
  eexists tt, _. split; [reflexivity|].
  destruct (stops w (pc w)) eqn:E; constructor; simpl; auto; try lia.
  - by rewrite stop_obs.
  - intros _. apply stop_sets.
  - intros j _ _. rewrite stopped_app. simpl. by rewrite orb_true_r.
  - rewrite waits_after_stop_snoc. destruct (stopped (trace w)); simpl; lia.
  - intros j Hj Hk. apply (Hc j); [|done].
    destruct (decide (j = pc w)) as [->|]; [|lia]. congruence.
Qed.

Lemma steps_modify_self (f : I -> I) :
  (forall i, view stopping i = true -> view stopping (f i) = true) ->
  (forall i, obs (f i) = obs i) ->
  steps 0 (modify_self f).
Proof.
  intros Hv Hf b p w [Hs Hl Ho Hg Hc Hb Hp].
  eexists tt, _. split; [reflexivity|].
  constructor; simpl; auto; try lia. by rewrite Hf.
Qed.

Lemma steps_modify_leds (f : AbstractLed.t -> AbstractLed.t) :
  (forall d, AbstractLed.num_leds (f d) = AbstractLed.num_leds d) ->
  steps 0 (modify_leds f).
Proof.
  intros Hf b p w [Hs Hl Ho Hg Hc Hb Hp].
  eexists tt, _. split; [reflexivity|].
  constructor; simpl; auto; try lia. by rewrite Hf.
Qed.

Lemma steps_sleep ms : steps 0 (sleep ms).
Proof.
  intros b p w [Hs Hl Ho Hg Hc Hb Hp].
  eexists tt, _. split; [reflexivity|].
  constructor; simpl; auto; lia.
Qed.

Lemma steps_log e :
  is_stop e = false -> steps (if is_wait e then 1 else 0) (log e).
Proof.
  intros He b p w [Hs Hl Ho Hg Hc Hb Hp].
  eexists tt, _. split; [reflexivity|].
  constructor; simpl; auto.
  - rewrite stopped_app. simpl. rewrite He. simpl. rewrite !orb_false_r. done.
  - intros j Hj Hk. rewrite stopped_app. rewrite (Hc j Hj Hk). done.
  - rewrite waits_after_stop_snoc. destruct (stopped (trace w)), (is_wait e); lia.
Qed.

Lemma steps_for {Y} B (l : list Y) (body : Y -> M I unit) :
  (forall y, steps B (body y)) -> steps (length l * B) (for_ l body).
Proof.
  intros Hb. induction l as [|y l IH]; simpl.
  - apply steps_ret.
  - apply steps_bind; [apply Hb | intros _; apply IH].
Qed.

Lemma steps_Event_set : steps 0 (Event_set stopping).
Proof.
  apply (steps_bind 0 0); [apply steps_sched | intros _].
  apply steps_modify_self; intros i; [|apply set_obs].
  intros _. apply set_view.
Qed.

Lemma steps_Event_is_set (e : Lens I Event) : steps 0 (Event_is_set e).
Proof. apply (steps_bind 0 0); [apply steps_sched | intros _; apply steps_gets]. Qed.

Lemma steps_Event_wait (e : Lens I Event) ms : steps 1 (Event_wait e ms).
Proof.
  apply (steps_bind 0 1); [apply steps_sched | intros _].
  apply (steps_bind 0 1); [apply steps_gets | intros flag].
  apply (steps_bind 1 0); [by apply (steps_log (EWait ms)) | intros _].
  destruct flag; [apply steps_ret | apply steps_sleep].
Qed.

Lemma steps_time : steps 0 time.
Proof. apply (steps_bind 0 0); [apply steps_sched | intros _; apply steps_gets]. Qed.

Lemma steps_end_time_of timeout : steps 0 (end_time_of timeout).
Proof.
  destruct timeout as [t|]; simpl; [|apply steps_ret].
  destruct (t =? 0)%Z; [apply steps_ret|].
  apply (steps_bind 0 0); [apply steps_time | intros ?; apply steps_ret].
Qed.

Lemma steps_timed_out end_time : steps 0 (timed_out end_time).
Proof.
  destruct end_time as [t|]; simpl; [|apply steps_ret].
  destruct (t =? 0)%Z; [apply steps_ret|].
  apply (steps_bind 0 0); [apply steps_time | intros ?; apply steps_ret].
Qed.

Lemma steps_LOG_warning msg : steps 0 (LOG_warning msg).
Proof.
  apply (steps_bind 0 0); [apply steps_sched | intros _].
  by apply (steps_log (EWarning msg)).
Qed.

Lemma steps_leds_fill c : steps 0 (leds_fill c).
Proof.
  apply (steps_bind 0 0); [apply steps_sched | intros _].
  apply (steps_bind 0 0); [|intros _; by apply (steps_log (EFill c))].
  apply steps_modify_leds. intros d. apply length_replicate.
Qed.

Lemma steps_leds_set_led led c im : steps 0 (leds_set_led led c im).
Proof.
  apply (steps_bind 0 0); [apply steps_sched | intros _].
  apply (steps_bind 0 0); [|intros _; by apply (steps_log (ESetLed led c im))].
  apply steps_modify_leds. intros d. apply length_insert.
Qed.

Lemma steps_leds_show : steps 0 leds_show.
Proof.
  apply (steps_bind 0 0); [apply steps_sched | intros _].
  apply (steps_bind 0 0); [|intros _; by apply (steps_log EShow)].
  by apply steps_modify_leds.
Qed.

(** *** Before the flag is reset *)

Lemma fresh_init i d t0 :
  AbstractLed.num_leds d = n -> obs i = x -> fresh 0 (init_world i d t0 sch).
Proof. intros Hd Hi. constructor; simpl; auto. lia. Qed.

Lemma fresh_leds_fill p c :
  sch p = false -> triple (fresh p) (leds_fill c) (fun _ => fresh (S p)).
Proof.
  intros Hp w [Hs Hl Ho Ht Hc Hpc]. eexists tt, _. split; [reflexivity|].
  rewrite Hs, Hpc, Hp. constructor; simpl; auto.
  - unfold AbstractLed.num_leds, AbstractLed.fill. simpl.
    by rewrite length_replicate.
  - rewrite stopped_app, Ht. done.
  - intros j Hj. destruct (decide (j = p)) as [->|]; [done|]. apply Hc. lia.
Qed.

Lemma fresh_Event_clear p :
  sch p = false ->
  triple (fresh p) (Event_clear stopping) (fun _ => inv 0 (S p)).
Proof.
  intros Hp w [Hs Hl Ho Ht Hc Hpc]. eexists tt, _. split; [reflexivity|].
  rewrite Hs, Hpc, Hp. constructor; simpl; auto.
  - by rewrite set_obs.
  - rewrite Ht. done.
  - intros j Hj Hk. destruct (decide (j = p)) as [->|]; [congruence|].
    rewrite Hc in Hk; [done|lia].
  - by rewrite waits_after_stop_fresh.
Qed.

(** *** The loop, once [stop()] is called at operation [k] *)

Variable k : nat.
Hypothesis stop_called : sch k = true.

Lemma while_returns {S} B (body : S -> M I S) :
  (forall s, steps B (body s)) ->
  forall fuel s b p w,
    inv b p w ->
    (k < pc w /\ 1 <= fuel) \/ (pc w <= k /\ k + 2 <= pc w + fuel) ->
    exists s' w',
      while_not_set stopping fuel s body w = Returned s' w'
      /\ inv (Nat.max b B) p w'.
Proof.
  intros Hb. induction fuel as [|fuel IH]; intros s b p w Hw Hk; [lia|].
  simpl. unfold bind at 1. unfold Event_is_set, bind at 1. unfold bind at 1.
  destruct (steps_sched b p w Hw) as ([] & w1 & E1 & Hw1).
  rewrite E1. unfold gets.
  assert (Hpc1 : pc w1 = Datatypes.S (pc w)).
  { unfold sched in E1. injection E1 as <-. by destruct (stops w (pc w)). }
  destruct (view stopping (self w1)) eqn:Eflag.
  { exists s, w1. split; [done|]. eapply inv_weaken; [| |exact Hw1]; lia. }
  assert (Hfresh : stopped (trace w1) = false).
  { destruct (stopped (trace w1)) eqn:Et; [|done].
    rewrite (inv_good Hw1) in Eflag; done. }
  assert (Hk1 : pc w1 <= k).
  { destruct (decide (k < pc w1)) as [Hlt|]; [|lia].
    rewrite (inv_caught Hw1 k Hlt stop_called) in Hfresh. done. }
  assert (Hw1' : inv 0 (pc w1) w1).
  { destruct Hw1. constructor; auto. by rewrite waits_after_stop_fresh. }
  destruct (Hb s 0 (pc w1) w1 Hw1') as (s1 & w2 & E2 & Hw2).
  unfold bind. rewrite E2. simpl in Hw2.
  destruct (IH s1 B (pc w1) w2 Hw2) as (s' & w' & E' & Hw').
  { pose proof (inv_pc Hw2). lia. }
  exists s', w'. split; [done|].
  eapply inv_weaken; [| |exact Hw']; [lia|].
  pose proof (inv_pc Hw). lia.
Qed.

Lemma triple_while {S} B (body : S -> M I S) fuel s b p :
  (forall s, steps B (body s)) -> 1 <= p -> k < fuel ->
  triple (inv b p) (while_not_set stopping fuel s body)
         (fun _ => inv (Nat.max b B) p).
Proof.
  intros Hb Hp Hf w Hw. apply while_returns; [done..|].
  pose proof (inv_pc Hw).
  destruct (decide (k < pc w)); [left|right]; lia.
Qed.
End Bounded.


(** Closes the side condition that the flag is the one [stop()] raises. *)
Ltac stoppable :=
  lazymatch goal with
  | |- Stoppable _ _ => exact _
  | |- _ => idtac
  end.

(** Decomposes a [steps] goal along the program text. *)
Ltac steps_step :=
  lazymatch goal with
  | |- steps _ _ _ _ _ _ (bind leds_num_leds _) => eapply steps_num_leds
  | |- steps _ _ _ _ _ _ (bind _ _) => eapply steps_bind; [ | intros ? ]
  | |- steps _ _ _ _ _ _ (if _ then _ else _) => eapply steps_if
  | |- steps _ _ _ _ _ _ (for_ _ _) => eapply steps_for; intros ?
  | |- steps _ _ _ _ _ _ (ret _) => apply steps_ret
  | |- steps _ _ _ _ _ _ (gets _) => apply steps_gets
  | |- steps _ _ _ _ _ _ (Event_set _) => apply steps_Event_set; stoppable
  | |- steps _ _ _ _ _ _ (Event_wait _ _) => apply steps_Event_wait; stoppable
  | |- steps _ _ _ _ _ _ (timed_out _) => apply steps_timed_out; stoppable
  | |- steps _ _ _ _ _ _ (end_time_of _) => apply steps_end_time_of; stoppable
  | |- steps _ _ _ _ _ _ (LOG_warning _) => apply steps_LOG_warning; stoppable
  | |- steps _ _ _ _ _ _ (leds_fill _) => apply steps_leds_fill; stoppable
  | |- steps _ _ _ _ _ _ (leds_set_led _ _ _) => apply steps_leds_set_led; stoppable
  | |- steps _ _ _ _ _ _ leds_show => apply steps_leds_show; stoppable
  | |- steps _ _ _ _ _ _ (modify_self _) =>
      apply steps_modify_self; [by intros [] | by intros []]
  | |- steps _ _ _ _ _ _ _ => progress cbv beta iota zeta
  end.

(** Proves [steps B m] for a given bound [B]. *)
Ltac steps_bound :=
  eapply steps_weaken; [ | solve [repeat steps_step] ];
  rewrite ?length_seq, ?length_rev, ?length_seq; simpl; lia.

(** The same rules on a [triple] goal, one operation at a time. *)
Tactic Notation "triple_step" uconstr(lem) :=
  eapply triple_bind; [apply lem; stoppable | intros ? ].

#[local] Instance breathe_stoppable :
  Stoppable BreatheLedAnimation.stoppingL (fun _ => tt).
Proof. split; by intros; try destruct i. Qed.

#[local] Instance chase_stoppable :
  Stoppable ChaseLedAnimation.stoppingL (fun _ => tt).
Proof. split; by intros; try destruct i. Qed.

#[local] Instance refill_stoppable :
  Stoppable RefillLedAnimation.stoppingL (fun _ => tt).
Proof. split; by intros; try destruct i. Qed.

#[local] Instance bounce_stoppable :
  Stoppable BounceLedAnimation.stoppingL (fun _ => tt).
Proof. split; by intros; try destruct i. Qed.

#[local] Instance blink_stoppable :
  Stoppable BlinkLedAnimation.stoppingL BlinkLedAnimation.num_blinks.
Proof. split; by intros; try destruct i. Qed.

#[local] Instance alternating_stoppable :
  Stoppable AlternatingLedAnimation.stoppingL (fun _ => tt).
Proof. split; by intros; try destruct i. Qed.

(** A Fill pass inside any running instance starts one wait per LED. *)
Lemma fill_steps {I} `{LedAnimation I} {X} (stopping : Lens I Event) (obs : I -> X)
    `{!Stoppable stopping obs} sch n x this timeout one_shot :
  steps stopping obs sch n x n (FillLedAnimation.start this timeout one_shot).
Proof.
  unfold FillLedAnimation.start.
  apply (steps_bind _ _ _ _ _ 0 n).
  { destruct (negb one_shot || bool_decide (timeout <> None)); steps_step. }
  intros _. apply steps_num_leds.
  apply (steps_bind _ _ _ _ _ 0 n); [steps_step|]. intros r.
  eapply (steps_weaken _ _ _ _ _
            (length (if r then rev (seq 0 n) else seq 0 n) * 1)).
  { destruct r; rewrite ?length_rev, length_seq; lia. }
  apply steps_for. intros led. steps_bound.
Qed.

Section StopBounds.
Variables (sch : nat -> bool) (k fuel : nat).
Variables (timeout : option Z) (one_shot : bool).
Variables (d : AbstractLed.t) (t0 : Z).
Hypothesis first : sch 0 = false.
Hypothesis called : sch k = true.
Hypothesis enough : k < fuel.

Let n := AbstractLed.num_leds d.

Lemma chase_stop_bound (a : ChaseLedAnimation.t) :
  exists w',
    run (ChaseLedAnimation.start timeout one_shot fuel) a d t0 sch = Returned tt w'
    /\ waits_after_stop (trace w') <= n.
Proof.
  assert (T : triple (fresh (fun _ => tt) sch n tt 0)
                (ChaseLedAnimation.start timeout one_shot fuel)
                (fun _ => inv ChaseLedAnimation.stoppingL (fun _ => tt) sch n tt n 1)).
  { unfold ChaseLedAnimation.start.
    eapply triple_bind; [by apply fresh_Event_clear | intros ?].
    triple_step steps_end_time_of.
    triple_step steps_gets.
    triple_step steps_leds_fill.
    eapply triple_bind; [apply (triple_while _ _ _ _ _ k called n) | intros ?].
    - intros _. steps_bound.
    - lia.
    - done.
    - eapply triple_post; [apply steps_leds_fill; stoppable|].
      intros ? w. simpl. apply inv_weaken; lia. }
  destruct (T _ (fresh_init (fun _ => tt) sch n tt a d t0 eq_refl eq_refl))
    as ([] & w' & E & Hw').
  exists w'. split; [exact E | apply Hw'].
Qed.

Lemma breathe_stop_bound (a : BreatheLedAnimation.t) :
  exists w',
    run (BreatheLedAnimation.start timeout one_shot fuel) a d t0 sch = Returned tt w'
    /\ waits_after_stop (trace w') <= 1.
Proof.
  assert (T : triple (fresh (fun _ => tt) sch n tt 0)
                (BreatheLedAnimation.start timeout one_shot fuel)
                (fun _ => inv BreatheLedAnimation.stoppingL (fun _ => tt) sch n tt 1 1)).
  { unfold BreatheLedAnimation.start.
    eapply triple_bind; [by apply fresh_Event_clear | intros ?].
    triple_step steps_end_time_of.
    triple_step steps_gets.
    eapply triple_bind; [apply (triple_while _ _ _ _ _ k called 1) | intros ?].
    - intros [[brightness step_] ending]. steps_bound.
    - lia.
    - done.
    - eapply triple_post; [apply steps_leds_fill; stoppable|].
      intros ? w. simpl. apply inv_weaken; lia. }
  destruct (T _ (fresh_init (fun _ => tt) sch n tt a d t0 eq_refl eq_refl))
    as ([] & w' & E & Hw').
  exists w'. split; [exact E | apply Hw'].
Qed.

Lemma refill_cycle_steps :
  steps RefillLedAnimation.stoppingL (fun _ => tt) sch n tt (n + n)
        RefillLedAnimation.cycle.
Proof.
  unfold RefillLedAnimation.cycle.
  apply steps_bind; [apply fill_steps; stoppable | intros _].
  eapply steps_weaken; [|eapply steps_bind; [steps_step | intros _]].
  2: { eapply steps_bind; [apply fill_steps; stoppable | intros _].
       eapply steps_bind; [steps_step | intros c]. steps_step. }
  lia.
Qed.

Lemma refill_stop_bound (a : RefillLedAnimation.t) :
  exists w',
    run (RefillLedAnimation.start timeout one_shot fuel) a d t0 sch = Returned tt w'
    /\ waits_after_stop (trace w') <= 2 * n.
Proof.
  assert (T : triple (fresh (fun _ => tt) sch n tt 0)
                (RefillLedAnimation.start timeout one_shot fuel)
                (fun _ => inv RefillLedAnimation.stoppingL (fun _ => tt) sch n tt
                            (2 * n) 1)).
  { unfold RefillLedAnimation.start.
    eapply triple_bind; [by apply fresh_Event_clear | intros ?].
    triple_step steps_end_time_of.
    eapply triple_post;
      [apply (triple_while _ _ _ _ _ k called (2 * n)); [|lia|done] |].
    - intros _. eapply steps_weaken;
        [|eapply steps_bind; [apply refill_cycle_steps | intros _; repeat steps_step]].
      simpl; lia.
    - intros ? w. simpl. apply inv_weaken; lia. }
  destruct (T _ (fresh_init (fun _ => tt) sch n tt a d t0 eq_refl eq_refl))
    as ([] & w' & E & Hw').
  exists w'. split; [exact E | apply Hw'].
Qed.

Lemma bounce_flip_steps :
  steps BounceLedAnimation.stoppingL (fun _ => tt) sch n tt 0
        BounceLedAnimation.flip_reverse.
Proof. unfold BounceLedAnimation.flip_reverse. steps_bound. Qed.

Lemma bounce_cycle_steps :
  steps BounceLedAnimation.stoppingL (fun _ => tt) sch n tt (n + n)
        BounceLedAnimation.cycle.
Proof.
  unfold BounceLedAnimation.cycle.
  apply steps_bind; [apply fill_steps; stoppable | intros _].
  eapply steps_weaken; [|eapply steps_bind; [apply bounce_flip_steps | intros _]].
  2: { eapply steps_bind; [steps_step | intros _].
       eapply steps_bind; [apply fill_steps; stoppable | intros _].
       eapply steps_bind; [apply bounce_flip_steps | intros _].
       eapply steps_bind; [steps_step | intros c]. steps_step. }
  lia.
Qed.

Lemma bounce_stop_bound (a : BounceLedAnimation.t) :
  exists w',
    run (BounceLedAnimation.start timeout one_shot fuel) a d t0 sch = Returned tt w'
    /\ waits_after_stop (trace w') <= 2 * n.
Proof.
  assert (T : triple (fresh (fun _ => tt) sch n tt 0)
                (BounceLedAnimation.start timeout one_shot fuel)
                (fun _ => inv BounceLedAnimation.stoppingL (fun _ => tt) sch n tt
                            (2 * n) 1)).
  { unfold BounceLedAnimation.start.
    eapply triple_bind; [by apply fresh_Event_clear | intros ?].
    triple_step steps_end_time_of.
    eapply triple_post;
      [apply (triple_while _ _ _ _ _ k called (2 * n)); [|lia|done] |].
    - intros _. eapply steps_weaken;
        [|eapply steps_bind; [apply bounce_cycle_steps | intros _; repeat steps_step]].
      simpl; lia.
    - intros ? w. simpl. apply inv_weaken; lia. }
  destruct (T _ (fresh_init (fun _ => tt) sch n tt a d t0 eq_refl eq_refl))
    as ([] & w' & E & Hw').
  exists w'. split; [exact E | apply Hw'].
Qed.

Lemma blinks_steps nb :
  steps BlinkLedAnimation.stoppingL BlinkLedAnimation.num_blinks sch n nb
        (2 * Z.to_nat nb) BlinkLedAnimation.blinks.
Proof.
  unfold BlinkLedAnimation.blinks.
  apply (steps_read _ _ _ _ _ _ _ nb); [intros b p w Hw; apply Hw|].
  eapply steps_weaken; [|apply (steps_for _ _ _ _ _ 2); intros _; steps_bound].
  rewrite length_seq. lia.
Qed.

Lemma blink_stop_bound (a : BlinkLedAnimation.t) :
  exists w',
    run (BlinkLedAnimation.start timeout one_shot fuel) a d t0 sch = Returned tt w'
    /\ waits_after_stop (trace w') <= 2 * Z.to_nat (BlinkLedAnimation.num_blinks a) + 1.
Proof.
  set (nb := BlinkLedAnimation.num_blinks a).
  set (B := 2 * Z.to_nat nb + 1).
  assert (T : triple (fresh BlinkLedAnimation.num_blinks sch n nb 0)
                (BlinkLedAnimation.start timeout one_shot fuel)
                (fun _ => inv BlinkLedAnimation.stoppingL BlinkLedAnimation.num_blinks
                            sch n nb B 1)).
  { unfold BlinkLedAnimation.start.
    eapply triple_bind; [by apply fresh_Event_clear | intros ?].
    triple_step steps_end_time_of.
    triple_step steps_leds_fill.
    triple_step steps_Event_wait.
    eapply triple_post;
      [apply (triple_while _ _ _ _ _ k called B); [|lia|done] |].
    - intros _. eapply steps_weaken;
        [|eapply steps_bind; [apply blinks_steps | intros _; repeat steps_step]].
      unfold B. simpl; lia.
    - intros ? w. simpl. apply inv_weaken; lia. }
  destruct (T _ (fresh_init BlinkLedAnimation.num_blinks sch n nb a d t0 eq_refl eq_refl))
    as ([] & w' & E & Hw').
  exists w'. split; [exact E | apply Hw'].
Qed.

Lemma alternating_frame_steps evens :
  steps AlternatingLedAnimation.stoppingL (fun _ => tt) sch n tt 0
        (AlternatingLedAnimation.frame evens).
Proof. unfold AlternatingLedAnimation.frame. steps_bound. Qed.

Lemma alternating_stop_bound (a : AlternatingLedAnimation.t) :
  sch 1 = false ->
  exists w',
    run (AlternatingLedAnimation.start timeout one_shot fuel) a d t0 sch
    = Returned tt w'
    /\ waits_after_stop (trace w') <= 1.
Proof.
  intros second.
  assert (T : triple (fresh (fun _ => tt) sch n tt 0)
                (AlternatingLedAnimation.start timeout one_shot fuel)
                (fun _ => inv AlternatingLedAnimation.stoppingL (fun _ => tt)
                            sch n tt 1 1)).
  { unfold AlternatingLedAnimation.start.
    eapply triple_bind; [by apply fresh_leds_fill | intros ?].
    eapply triple_bind; [by apply fresh_Event_clear | intros ?].
    triple_step steps_end_time_of.
    eapply triple_bind; [apply (triple_while _ _ _ _ _ k called 1) | intros ?].
    - intros evens. eapply steps_weaken;
        [|eapply steps_bind;
           [apply alternating_frame_steps | intros _; repeat steps_step]].
      simpl; lia.
    - lia.
    - done.
    - eapply triple_post; [apply steps_leds_fill; stoppable|].
      intros ? w. simpl. apply inv_weaken; lia. }
  destruct (T _ (fresh_init (fun _ => tt) sch n tt a d t0 eq_refl eq_refl))
    as ([] & w' & E & Hw').
  exists w'. split; [exact E | apply Hw'].
Qed.
End StopBounds.

(** ** The calls of loop-free code, whatever the schedule *)

Lemma replay_app es1 es2 d : replay (es1 ++ es2) d = replay es2 (replay es1 d).
Proof. revert d. induction es1 as [|e es1 IH]; intros d; simpl; [done|]. apply IH. Qed.

Lemma apply_call_num_leds d e :
  AbstractLed.num_leds (apply_call d e) = AbstractLed.num_leds d.
Proof.
  destruct e; simpl; try done; unfold AbstractLed.num_leds; simpl.
  - apply length_replicate.
  - apply length_insert.
Qed.

Lemma replay_num_leds es d :
  AbstractLed.num_leds (replay es d) = AbstractLed.num_leds d.
Proof.
  revert d. induction es as [|e es IH]; intros d; simpl; [done|].
  by rewrite IH, apply_call_num_leds.
Qed.

Lemma emits_eq {I X A} (obs : I -> X) n x (m : M I A) es es' x' :
  es = es' -> emits obs n x m es x' -> emits obs n x m es' x'.
Proof. by intros ->. Qed.

Section Emits.
Context {I : Type} `{LedAnimation I} {X : Type} (obs : I -> X) (n : nat).
Hypothesis stop_keeps : forall i, obs (stop i) = obs i.

Local Abbreviation emits := (emits obs n).

Lemma emits_ret {A} x (a : A) : emits x (ret a) [] x.
Proof.
  intros w Hx Hn. exists a, w. by rewrite app_nil_r.
Qed.

Lemma emits_bind {A C} x x1 x2 es1 es2 (m : M I A) (f : A -> M I C) :
  emits x m es1 x1 -> (forall a, emits x1 (f a) es2 x2) ->
  emits x (bind m f) (es1 ++ es2) x2.
Proof.
  intros Hm Hf w Hx Hn.
  destruct (Hm w Hx Hn) as (a & w1 & E1 & Hc1 & Hl1 & Hx1 & Hn1).
  destruct (Hf a w1 Hx1 Hn1) as (c & w2 & E2 & Hc2 & Hl2 & Hx2 & Hn2).
  exists c, w2. unfold bind. rewrite E1.
  split; [done|].
  repeat split; [| |done..].
  - by rewrite Hc2, Hc1, <- (assoc_L (++)).
  - by rewrite Hl2, Hl1, replay_app.
Qed.

Lemma emits_gets {A} x (g : World I -> A) : emits x (gets g) [] x.
Proof. intros w Hx Hn. exists (g w), w. by rewrite app_nil_r. Qed.

(** A value read from the world that the fields in [x] and the number of LEDs
    determine. *)
Lemma emits_read {A C} x x' es (g : World I -> A) (v : A) (f : A -> M I C) :
  (forall w, obs (self w) = x -> AbstractLed.num_leds (leds w) = n -> g w = v) ->
  emits x (f v) es x' -> emits x (bind (gets g) f) es x'.
Proof.
  intros Hg Hf w Hx Hn. unfold bind, gets. rewrite (Hg w Hx Hn). by apply Hf.
Qed.

Lemma emits_num_leds {C} x x' es (f : nat -> M I C) :
  emits x (f n) es x' -> emits x (bind leds_num_leds f) es x'.
Proof. intros Hf. unfold leds_num_leds. by apply (emits_read x x' es _ n f). Qed.

Lemma emits_if {A} x x' (c : bool) (m1 m2 : M I A) es1 es2 :
  emits x m1 es1 x' -> emits x m2 es2 x' ->
  emits x (if c then m1 else m2) (if c then es1 else es2) x'.
Proof. by destruct c. Qed.

Lemma emits_sched x : emits x sched [] x.
Proof.
  intros w Hx Hn. eexists tt, _. split; [reflexivity|].
  destruct (stops w (pc w)); simpl; rewrite ?calls_app, ?stop_keeps; simpl;
    by rewrite !app_nil_r.
Qed.

Lemma emits_modify_self x x' (f : I -> I) :
  (forall i, obs i = x -> obs (f i) = x') -> emits x (modify_self f) [] x'.
Proof.
  intros Hf w Hx Hn. eexists tt, _. split; [reflexivity|]. simpl.
  rewrite app_nil_r. auto.
Qed.

Lemma emits_leds_fill x c : emits x (leds_fill c) [EFill c] x.
Proof.
  intros w Hx Hn. eexists tt, _. split; [reflexivity|].
  destruct (stops w (pc w)); simpl; rewrite ?calls_app, ?stop_keeps; simpl;
    rewrite ?app_nil_r; repeat split; auto;
    unfold AbstractLed.num_leds; simpl; by rewrite length_replicate.
Qed.

Lemma emits_leds_set_led x led c im :
  emits x (leds_set_led led c im) [ESetLed led c im] x.
Proof.
  intros w Hx Hn. eexists tt, _. split; [reflexivity|].
  destruct (stops w (pc w)); simpl; rewrite ?calls_app, ?stop_keeps; simpl;
    rewrite ?app_nil_r; repeat split; auto;
    unfold AbstractLed.num_leds; simpl; by rewrite length_insert.
Qed.

Lemma emits_leds_show x : emits x leds_show [EShow] x.
Proof.
  intros w Hx Hn. eexists tt, _. split; [reflexivity|].
  destruct (stops w (pc w)); simpl; rewrite ?calls_app, ?stop_keeps; simpl;
    rewrite ?app_nil_r; repeat split; auto.
Qed.

Lemma emits_Event_wait x (e : Lens I Event) ms :
  emits x (Event_wait e ms) [EWait ms] x.
Proof.
  intros w Hx Hn. unfold Event_wait, bind, sched, gets, log, sleep, ret.
  destruct (stops w (pc w)); simpl;
    match goal with |- context [view e ?s] => destruct (view e s) end;
    eexists tt, _; (split; [reflexivity|]); simpl;
    rewrite ?calls_app, ?stop_keeps; simpl; rewrite ?app_nil_r; auto.
Qed.

Lemma emits_LOG_warning x msg : emits x (LOG_warning msg) [EWarning msg] x.
Proof.
  intros w Hx Hn. eexists tt, _. split; [reflexivity|].
  destruct (stops w (pc w)); simpl; rewrite ?calls_app, ?stop_keeps; simpl;
    rewrite ?app_nil_r; repeat split; auto.
Qed.

Lemma emits_for {Y} x (l : list Y) (body : Y -> M I unit) (es : Y -> list event) :
  (forall y, emits x (body y) (es y) x) ->
  emits x (for_ l body) (flat_map es l) x.
Proof.
  intros Hb. induction l as [|y l IH]; simpl.
  - apply emits_ret.
  - apply emits_bind with (x1 := x); [apply Hb | intros _; apply IH].
Qed.
End Emits.

(** Decomposes an [emits] goal along the program text. *)
Ltac emits_step :=
  lazymatch goal with
  | |- emits _ _ _ (bind leds_num_leds _) _ _ => eapply emits_num_leds
  | |- emits _ _ _ (bind _ _) _ _ => eapply emits_bind; [ | intros ? ]
  | |- emits _ _ _ (for_ _ _) _ _ => eapply emits_for; intros ?
  | |- emits _ _ _ (ret _) _ _ => apply emits_ret
  | |- emits _ _ _ (leds_fill _) _ _ => apply emits_leds_fill
  | |- emits _ _ _ (leds_set_led _ _ _) _ _ => apply emits_leds_set_led
  | |- emits _ _ _ leds_show _ _ => apply emits_leds_show
  | |- emits _ _ _ (Event_wait _ _) _ _ => apply emits_Event_wait
  | |- emits _ _ _ (LOG_warning _) _ _ => apply emits_LOG_warning
  | |- emits _ _ _ _ _ _ => progress cbv beta iota zeta
  end.

(** A Fill pass makes all its calls, whatever the other thread does: [this]
    is the Fill object inside the running instance, which [stop()] leaves as
    it is. *)
Lemma fill_start_emits {I} `{LedAnimation I} {X} (obs : I -> X) n
    (this : Lens I FillLedAnimation.t) (proj : X -> FillLedAnimation.t)
    timeout one_shot x :
  (forall i, obs (stop i) = obs i) ->
  (forall i, view this i = proj (obs i)) ->
  emits obs n x (FillLedAnimation.start this timeout one_shot)
    ((if negb one_shot || bool_decide (timeout <> None)
      then [EWarning FillLedAnimation.unsupported] else [])
     ++ fill_pass (as_rgb_tuple (FillLedAnimation.fill_color (proj x)))
                  (FillLedAnimation.step_delay (proj x))
                  (led_order (FillLedAnimation.reverse (proj x)) n))
    x.
Proof.
  intros Hstop Hproj. unfold FillLedAnimation.start.
  apply emits_bind with (x1 := x).
  { apply emits_if; [by apply emits_LOG_warning | apply emits_ret]. }
  intros _. apply emits_num_leds.
  apply emits_read with (v := FillLedAnimation.reverse (proj x)).
  { intros w Hx _. by rewrite Hproj, Hx. }
  unfold fill_pass, led_order. apply emits_for. intros led.
  apply emits_read with (v := FillLedAnimation.fill_color (proj x)).
  { intros w Hx _. by rewrite Hproj, Hx. }
  apply emits_bind with (x1 := x) (es1 := [_]) (es2 := [_]);
    [by apply emits_leds_set_led|].
  intros _.
  apply emits_read with (v := FillLedAnimation.step_delay (proj x)).
  { intros w Hx _. by rewrite Hproj, Hx. }
  by apply emits_Event_wait.
Qed.

Lemma emits_Event_clear {I} `{LedAnimation I} {X} (obs : I -> X) n x
    (e : Lens I Event) :
  (forall i, obs (stop i) = obs i) ->
  (forall b i, obs (update e b i) = obs i) ->
  emits obs n x (Event_clear e) [] x.
Proof.
  intros Hstop He. unfold Event_clear.
  apply emits_bind with (x1 := x) (es1 := []) (es2 := []);
    [by apply emits_sched | intros _].
  apply emits_modify_self. intros i <-. apply He.
Qed.

Lemma emits_time {I} `{LedAnimation I} {X} (obs : I -> X) n x :
  (forall i, obs (stop i) = obs i) -> emits obs n x time [] x.
Proof.
  intros Hstop. unfold time.
  apply emits_bind with (x1 := x) (es1 := []) (es2 := []);
    [by apply emits_sched | intros _; apply emits_gets].
Qed.

Lemma emits_end_time_of {I} `{LedAnimation I} {X} (obs : I -> X) n x timeout :
  (forall i, obs (stop i) = obs i) -> emits obs n x (end_time_of timeout) [] x.
Proof.
  intros Hstop. destruct timeout as [t|]; simpl; [|apply emits_ret].
  destruct (t =? 0)%Z; [apply emits_ret|].
  apply emits_bind with (x1 := x) (es1 := []) (es2 := []);
    [by apply emits_time | intros ?; apply emits_ret].
Qed.

(** ** Traces only grow *)

Section Extends.
Context {I : Type} `{LedAnimation I}.

Lemma extends_ret {A} (a : A) : extends (ret a : M I A).
Proof. intros w. exists []. by rewrite app_nil_r. Qed.

Lemma extends_bind {A C} (m : M I A) (f : A -> M I C) :
  extends m -> (forall a, extends (f a)) -> extends (bind m f).
Proof.
  intros Hm Hf w. destruct (Hm w) as (tr1 & E1). unfold bind.
  destruct (m w) as [a w1|w1]; simpl in *.
  - destruct (Hf a w1) as (tr2 & E2). exists (tr1 ++ tr2).
    by rewrite E2, E1, <- (assoc_L (++)).
  - by exists tr1.
Qed.

Lemma extends_if {A} (c : bool) (m1 m2 : M I A) :
  extends m1 -> extends m2 -> extends (if c then m1 else m2).
Proof. by destruct c. Qed.

Lemma extends_gets {A} (g : World I -> A) : extends (gets g).
Proof. intros w. exists []. by rewrite app_nil_r. Qed.

Lemma extends_sched : extends (sched : M I unit).
Proof.
  intros w. unfold sched. destruct (stops w (pc w)); simpl.
  - by eexists.
  - exists []. by rewrite app_nil_r.
Qed.

Lemma extends_modify_self f : extends (modify_self f : M I unit).
Proof. intros w. exists []. simpl. by rewrite app_nil_r. Qed.

Lemma extends_modify_leds f : extends (modify_leds f : M I unit).
Proof. intros w. exists []. simpl. by rewrite app_nil_r. Qed.

Lemma extends_sleep ms : extends (sleep ms : M I unit).
Proof. intros w. exists []. simpl. by rewrite app_nil_r. Qed.

Lemma extends_log e : extends (log e : M I unit).
Proof. intros w. by exists [e]. Qed.

Lemma extends_for {Y} (l : list Y) (body : Y -> M I unit) :
  (forall y, extends (body y)) -> extends (for_ l body).
Proof.
  intros Hb. induction l as [|y l IH]; simpl.
  - apply extends_ret.
  - apply extends_bind; [apply Hb | intros _; apply IH].
Qed.

Lemma extends_Event_set e : extends (Event_set e : M I unit).
Proof.
  apply extends_bind; [apply extends_sched | intros _; apply extends_modify_self].
Qed.

Lemma extends_Event_is_set e : extends (Event_is_set e : M I bool).
Proof.
  apply extends_bind; [apply extends_sched | intros _; apply extends_gets].
Qed.

Lemma extends_Event_wait e ms : extends (Event_wait e ms : M I unit).
Proof.
  apply extends_bind; [apply extends_sched | intros _].
  apply extends_bind; [apply extends_gets | intros flag].
  apply extends_bind; [apply extends_log | intros _].
  destruct flag; [apply extends_ret | apply extends_sleep].
Qed.

Lemma extends_time : extends (time : M I Z).
Proof.
  apply extends_bind; [apply extends_sched | intros _; apply extends_gets].
Qed.

Lemma extends_timed_out end_time : extends (timed_out end_time : M I bool).
Proof.
  destruct end_time as [t|]; simpl; [|apply extends_ret].
  destruct (t =? 0)%Z; [apply extends_ret|].
  apply extends_bind; [apply extends_time | intros ?; apply extends_ret].
Qed.

Lemma extends_leds_fill c : extends (leds_fill c : M I unit).
Proof.
  apply extends_bind; [apply extends_sched | intros _].
  apply extends_bind; [apply extends_modify_leds | intros _; apply extends_log].
Qed.

Lemma extends_leds_set_led led c im : extends (leds_set_led led c im : M I unit).
Proof.
  apply extends_bind; [apply extends_sched | intros _].
  apply extends_bind; [apply extends_modify_leds | intros _; apply extends_log].
Qed.

Lemma extends_leds_show : extends (leds_show : M I unit).
Proof.
  apply extends_bind; [apply extends_sched | intros _].
  apply extends_bind; [apply extends_modify_leds | intros _; apply extends_log].
Qed.

Lemma extends_while {S} stopping fuel (s : S) (body : S -> M I S) :
  (forall s, extends (body s)) -> extends (while_not_set stopping fuel s body).
Proof.
  intros Hb. revert s. induction fuel as [|fuel IH]; intros s; simpl.
  - intros w. exists []. simpl. by rewrite app_nil_r.
  - apply extends_bind; [apply extends_Event_is_set | intros b].
    destruct b; [apply extends_ret|].
    apply extends_bind; [apply Hb | intros s'; apply IH].
Qed.
End Extends.

(** Decomposes an [extends] goal along the program text. *)
Ltac extends_step :=
  lazymatch goal with
  | |- extends (bind _ _) => apply extends_bind; [ | intros ? ]
  | |- extends (if _ then _ else _) => apply extends_if
  | |- extends (for_ _ _) => apply extends_for; intros ?
  | |- extends (while_not_set _ _ _ _) => apply extends_while; intros ?
  | |- extends (ret _) => apply extends_ret
  | |- extends (gets _) => apply extends_gets
  | |- extends (Event_set _) => apply extends_Event_set
  | |- extends (Event_wait _ _) => apply extends_Event_wait
  | |- extends (timed_out _) => apply extends_timed_out
  | |- extends (leds_fill _) => apply extends_leds_fill
  | |- extends (leds_set_led _ _ _) => apply extends_leds_set_led
  | |- extends leds_show => apply extends_leds_show
  | |- extends leds_num_leds => apply extends_gets
  | |- extends _ => progress cbv beta iota zeta
  end.

Lemma begins_extends {I X A} (obs : I -> X) n x (m : M I A) :
  extends m -> begins obs n x m [].
Proof.
  intros Hm w _ _. destruct (Hm w) as (tr & E). exists (calls tr).
  by rewrite E, calls_app.
Qed.

Lemma begins_bind {I X A C} (obs : I -> X) n x x1 es1 es2
    (m : M I A) (f : A -> M I C) :
  emits obs n x m es1 x1 -> (forall a, begins obs n x1 (f a) es2) ->
  begins obs n x (bind m f) (es1 ++ es2).
Proof.
  intros Hm Hf w Hx Hn.
  destruct (Hm w Hx Hn) as (a & w1 & E1 & Hc1 & _ & Hx1 & Hn1).
  destruct (Hf a w1 Hx1 Hn1) as (rest & E2). exists rest.
  unfold bind. rewrite E1, E2, Hc1. by rewrite <- !(assoc_L (++)).
Qed.

(** ** Fill *)

Lemma replay_fill_pass_other c ms l d led :
  led ∉ l -> AbstractLed.shown d = AbstractLed.pixels d ->
  AbstractLed.shown (replay (fill_pass c ms l) d)
  = AbstractLed.pixels (replay (fill_pass c ms l) d)
  /\ AbstractLed.pixels (replay (fill_pass c ms l) d) !! led
     = AbstractLed.pixels d !! led.
Proof.
  revert d. induction l as [|a l IH]; intros d Hled Hd; simpl; [done|].
  apply not_elem_of_cons in Hled as [Hne Hl].
  destruct (IH (AbstractLed.set_led d a c true) Hl eq_refl) as [E1 E2].
  split; [done|]. rewrite E2. simpl. by apply list_lookup_insert_ne.
Qed.

Lemma replay_fill_pass_lookup c ms l d led :
  led ∈ l -> led < AbstractLed.num_leds d ->
  AbstractLed.shown (replay (fill_pass c ms l) d) !! led = Some c.
Proof.
  revert d. induction l as [|a l IH]; intros d Hled Hlt; simpl.
  { by apply elem_of_nil in Hled. }
  destruct (decide (led ∈ l)) as [Hin|Hnot].
  { apply IH; [done|]. unfold AbstractLed.num_leds in *. simpl.
    by rewrite length_insert. }
  apply elem_of_cons in Hled as [->|]; [|done].
  destruct (replay_fill_pass_other c ms l (AbstractLed.set_led d a c true) a
              Hnot eq_refl) as [E1 E2].
  rewrite E1, E2. simpl. by apply list_lookup_insert_eq.
Qed.

Lemma led_order_elem reverse n led : led < n -> led ∈ led_order reverse n.
Proof.
  intros Hlt. unfold led_order.
  destruct reverse; [rewrite list_elem_of_In, <- in_rev, <- list_elem_of_In|];
    apply elem_of_seq; lia.
Qed.

Lemma count_wait_fill_pass c ms l : count is_wait (fill_pass c ms l) = length l.
Proof. induction l as [|a l IH]; simpl; [done|]. by rewrite IH. Qed.

Lemma count_wait_calls tr : count is_wait (calls tr) = count is_wait tr.
Proof.
  induction tr as [|e tr IH]; simpl; [done|].
  destruct e; simpl; by rewrite IH.
Qed.

Lemma count_after_stop_le f tr : count f (after_stop tr) <= count f tr.
Proof.
  induction tr as [|e tr IH]; simpl; [done|].
  destruct (is_stop e); lia.
Qed.

Lemma length_led_order reverse n : length (led_order reverse n) = n.
Proof. unfold led_order. destruct reverse; by rewrite ?length_rev, length_seq. Qed.

(** C5. [FillLedAnimation.start] makes exactly one pass over the LEDs, in
    index order or reversed, setting each to the fill colour and waiting after
    each, whatever [one_shot] and [timeout] are and whatever [stop()] calls
    arrive; the only difference a [one_shot] that is false or a [timeout] that
    is not [None] makes is the warning logged first; no call follows the pass,
    so every LED displays the fill colour when it returns. *)
Theorem fill_start_single_pass (a : FillLedAnimation.t) (d : AbstractLed.t)
    (t0 : Z) (sch : nat -> bool) (timeout : option Z) (one_shot : bool) :
  exists w',
    run (FillLedAnimation.start idL timeout one_shot) a d t0 sch = Returned tt w'
    /\ calls (trace w')
       = (if negb one_shot || bool_decide (timeout <> None)
          then [EWarning FillLedAnimation.unsupported] else [])
         ++ fill_pass (as_rgb_tuple (FillLedAnimation.fill_color a))
                      (FillLedAnimation.step_delay a)
                      (led_order (FillLedAnimation.reverse a)
                                 (AbstractLed.num_leds d))
    /\ all_leds (as_rgb_tuple (FillLedAnimation.fill_color a)) (leds w').
Proof.
  assert (Hstop : forall i : FillLedAnimation.t, stop i = i) by done.
  destruct (fill_start_emits (fun i => i) (AbstractLed.num_leds d) idL
              (fun i => i) timeout one_shot a Hstop (fun _ => eq_refl)
              (init_world a d t0 sch) eq_refl eq_refl)
    as ([] & w' & E & Hc & Hl & _ & Hn).
  exists w'. split; [exact E|]. split; [exact Hc|].
  intros led Hled. rewrite Hn in Hled. rewrite Hl, replay_app. simpl.
  apply replay_fill_pass_lookup.
  - by apply led_order_elem.
  - by destruct (negb one_shot || bool_decide (timeout <> None)).
Qed.

(** ** Refill and Bounce *)

Lemma emits_Event_set {I} `{LedAnimation I} {X} (obs : I -> X) n x
    (e : Lens I Event) :
  (forall i, obs (stop i) = obs i) ->
  (forall b i, obs (update e b i) = obs i) ->
  emits obs n x (Event_set e) [] x.
Proof.
  intros Hstop He. unfold Event_set.
  apply emits_bind with (x1 := x) (es1 := []) (es2 := []);
    [by apply emits_sched | intros _].
  apply emits_modify_self. intros i <-. apply He.
Qed.

Lemma emits_timed_out {I} `{LedAnimation I} {X} (obs : I -> X) n x end_time :
  (forall i, obs (stop i) = obs i) -> emits obs n x (timed_out end_time) [] x.
Proof.
  intros Hstop. destruct end_time as [t|]; simpl; [|apply emits_ret].
  destruct (t =? 0)%Z; [apply emits_ret|].
  apply emits_bind with (x1 := x) (es1 := []) (es2 := []);
    [by apply emits_time | intros ?; apply emits_ret].
Qed.

(** The stop conditions at the end of a loop pass make no call. *)
Lemma emits_stop_conditions {I} `{LedAnimation I} {X} (obs : I -> X) n x
    (e : Lens I Event) (one_shot : bool) end_time :
  (forall i, obs (stop i) = obs i) ->
  (forall b i, obs (update e b i) = obs i) ->
  emits obs n x
    (if one_shot then Event_set e
     else bind (timed_out end_time)
            (fun b => if b : bool then Event_set e else ret tt))
    [] x.
Proof.
  intros Hstop He. destruct one_shot; [by apply emits_Event_set|].
  apply emits_bind with (x1 := x) (es1 := []) (es2 := []);
    [by apply emits_timed_out | intros b].
  destruct b; [by apply emits_Event_set | apply emits_ret].
Qed.

Lemma bind_returned {I A B} (m : M I A) (f : A -> M I B) w a w1 :
  m w = Returned a w1 -> bind m f w = f a w1.
Proof. intros E. unfold bind. by rewrite E. Qed.

(** One unfolding of the loop. *)
Lemma while_not_set_step {I} `{LedAnimation I} {St} (stopping : Lens I Event)
    fuel (s : St) (body : St -> M I St) (w : World I) :
  while_not_set stopping (S fuel) s body w
  = match sched w with
    | Returned _ w1 =>
        (if view stopping (self w1) then ret s
         else bind (body s) (fun s' => while_not_set stopping fuel s' body)) w1
    | Running w1 => Running w1
    end.
Proof. reflexivity. Qed.

(** A loop whose every pass makes the calls [es] makes them a whole number of
    times, whatever the other thread does and however far the loop gets. *)
Lemma while_emits {I} `{LedAnimation I} {X St} (obs : I -> X) n x
    (stopping : Lens I Event) (body : St -> M I St) es :
  (forall i, obs (stop i) = obs i) ->
  (forall s, emits obs n x (body s) es x) ->
  forall fuel s w,
    obs (self w) = x -> AbstractLed.num_leds (leds w) = n ->
    exists m,
      calls (trace (world_of (while_not_set stopping fuel s body w)))
      = calls (trace w) ++ concat (replicate m es)
      /\ leds (world_of (while_not_set stopping fuel s body w))
         = replay (concat (replicate m es)) (leds w).
Proof.
  intros Hstop Hb. induction fuel as [|fuel IH]; intros s w Hx Hn.
  { exists 0. simpl. by rewrite app_nil_r. }
  rewrite while_not_set_step.
  destruct (emits_sched obs n Hstop x w Hx Hn)
    as ([] & w1 & E1 & Hc1 & Hl1 & Hx1 & Hn1).
  rewrite E1. rewrite app_nil_r in Hc1. simpl in Hl1.
  destruct (view stopping (self w1)).
  { exists 0. simpl. by rewrite app_nil_r, Hc1, Hl1. }
  destruct (Hb s w1 Hx1 Hn1) as (s' & w2 & E2 & Hc2 & Hl2 & Hx2 & Hn2).
  unfold bind. rewrite E2.
  destruct (IH s' w2 Hx2 Hn2) as (m & Em & El). exists (S m).
  rewrite Em, El, Hc2, Hc1, Hl2, Hl1. simpl.
  by rewrite <- (assoc_L (++)), replay_app.
Qed.

Lemma refill_cycle_emits n c reverse :
  emits refill_obs n (c, FillLedAnimation.init c reverse) RefillLedAnimation.cycle
    (fill_pass (as_rgb_tuple c) 50 (led_order reverse n)
     ++ fill_pass (as_rgb_tuple BLACK) 50 (led_order reverse n))
    (c, FillLedAnimation.init c reverse).
Proof.
  assert (Hstop : forall i, refill_obs (stop i) = refill_obs i) by by intros [].
  unfold RefillLedAnimation.cycle.
  eapply emits_bind.
  { apply (fill_start_emits refill_obs n _ snd None true); [done|by intros []]. }
  intros _. eapply emits_eq; [|eapply emits_bind].
  2: { apply emits_modify_self with (x' := (c, FillLedAnimation.init BLACK reverse)).
       by intros [] [= -> ->]. }
  2: { intros _. eapply emits_bind.
       { apply (fill_start_emits refill_obs n _ snd None true); [done|by intros []]. }
       intros _. apply emits_read with (v := c); [by intros w [= ? ?]|].
       apply emits_modify_self. by intros [] [= -> ->]. }
  simpl. by rewrite app_nil_r.
Qed.

Lemma bounce_cycle_emits n c reverse :
  emits bounce_obs n (c, FillLedAnimation.init c reverse) BounceLedAnimation.cycle
    (fill_pass (as_rgb_tuple c) 50 (led_order reverse n)
     ++ fill_pass (as_rgb_tuple BLACK) 50 (led_order (negb reverse) n))
    (c, FillLedAnimation.init c reverse).
Proof.
  assert (Hstop : forall i, bounce_obs (stop i) = bounce_obs i) by by intros [].
  unfold BounceLedAnimation.cycle, BounceLedAnimation.flip_reverse.
  eapply emits_bind.
  { apply (fill_start_emits bounce_obs n _ snd None true); [done|by intros []]. }
  intros _. eapply emits_eq; [|eapply emits_bind].
  2: { apply emits_read with (v := reverse); [by intros w [= ? ->]|].
       apply emits_modify_self
         with (x' := (c, FillLedAnimation.init c (negb reverse))).
       by intros [] [= -> ->]. }
  2: { intros _. eapply emits_bind.
       { apply emits_modify_self
           with (x' := (c, FillLedAnimation.init BLACK (negb reverse))).
         by intros [] [= -> ->]. }
       intros _. eapply emits_bind.
       { apply (fill_start_emits bounce_obs n _ snd None true); [done|by intros []]. }
       intros _. eapply emits_bind.
       { apply emits_read with (v := negb reverse); [by intros w [= ? ->]|].
         apply emits_modify_self
           with (x' := (c, FillLedAnimation.init BLACK reverse)).
         intros [] [= -> ->]. simpl. by rewrite negb_involutive. }
       intros _. apply emits_read with (v := c); [by intros w [= ? ?]|].
       apply emits_modify_self. by intros [] [= -> ->]. }
  simpl. by rewrite !app_nil_r.
Qed.

Lemma refill_whole_cycles sch fuel timeout one_shot d t0 c reverse :
  exists m,
    calls (trace (world_of
      (run (RefillLedAnimation.start timeout one_shot fuel)
           (RefillLedAnimation.init c reverse) d t0 sch)))
    = concat (replicate m (refill_cycle_calls c reverse (AbstractLed.num_leds d)))
    /\ leds (world_of
      (run (RefillLedAnimation.start timeout one_shot fuel)
           (RefillLedAnimation.init c reverse) d t0 sch))
       = replay (concat (replicate m
                   (refill_cycle_calls c reverse (AbstractLed.num_leds d)))) d.
Proof.
  set (n := AbstractLed.num_leds d).
  set (x := (c, FillLedAnimation.init c reverse)).
  assert (Hstop : forall i, refill_obs (stop i) = refill_obs i) by by intros [].
  assert (Hset : forall b i,
    refill_obs (update RefillLedAnimation.stoppingL b i) = refill_obs i)
    by by intros b [].
  unfold run, RefillLedAnimation.start.
  destruct (emits_Event_clear refill_obs n x _ Hstop Hset
              (init_world (RefillLedAnimation.init c reverse) d t0 sch)
              eq_refl eq_refl) as ([] & w1 & E1 & Hc1 & Hl1 & Hx1 & Hn1).
  rewrite (bind_returned _ _ _ _ _ E1).
  destruct (emits_end_time_of refill_obs n x timeout Hstop w1 Hx1 Hn1)
    as (end_time & w2 & E2 & Hc2 & Hl2 & Hx2 & Hn2).
  rewrite (bind_returned _ _ _ _ _ E2).
  destruct (while_emits refill_obs n x RefillLedAnimation.stoppingL
              (fun _ : unit =>
                 bind RefillLedAnimation.cycle (fun _ =>
                   if one_shot then Event_set RefillLedAnimation.stoppingL
                   else bind (timed_out end_time) (fun b =>
                     if b : bool then Event_set RefillLedAnimation.stoppingL
                     else ret tt)))
              (refill_cycle_calls c reverse n) Hstop) with (fuel := fuel) (s := tt) (w := w2)
    as (m & Em & El); [|done|done|].
  { intros _. eapply emits_eq; [|eapply emits_bind;
      [apply refill_cycle_emits | intros _; by apply emits_stop_conditions]].
    by rewrite app_nil_r. }
  exists m. rewrite Em, El, Hc2, Hc1, Hl2, Hl1. done.
Qed.

Lemma bounce_whole_cycles sch fuel timeout one_shot d t0 c reverse :
  exists m,
    calls (trace (world_of
      (run (BounceLedAnimation.start timeout one_shot fuel)
           (BounceLedAnimation.init c reverse) d t0 sch)))
    = concat (replicate m (bounce_cycle_calls c reverse (AbstractLed.num_leds d)))
    /\ leds (world_of
      (run (BounceLedAnimation.start timeout one_shot fuel)
           (BounceLedAnimation.init c reverse) d t0 sch))
       = replay (concat (replicate m
                   (bounce_cycle_calls c reverse (AbstractLed.num_leds d)))) d.
Proof.
  set (n := AbstractLed.num_leds d).
  set (x := (c, FillLedAnimation.init c reverse)).
  assert (Hstop : forall i, bounce_obs (stop i) = bounce_obs i) by by intros [].
  assert (Hset : forall b i,
    bounce_obs (update BounceLedAnimation.stoppingL b i) = bounce_obs i)
    by by intros b [].
  unfold run, BounceLedAnimation.start.
  destruct (emits_Event_clear bounce_obs n x _ Hstop Hset
              (init_world (BounceLedAnimation.init c reverse) d t0 sch)
              eq_refl eq_refl) as ([] & w1 & E1 & Hc1 & Hl1 & Hx1 & Hn1).
  rewrite (bind_returned _ _ _ _ _ E1).
  destruct (emits_end_time_of bounce_obs n x timeout Hstop w1 Hx1 Hn1)
    as (end_time & w2 & E2 & Hc2 & Hl2 & Hx2 & Hn2).
  rewrite (bind_returned _ _ _ _ _ E2).
  destruct (while_emits bounce_obs n x BounceLedAnimation.stoppingL
              (fun _ : unit =>
                 bind BounceLedAnimation.cycle (fun _ =>
                   if one_shot then Event_set BounceLedAnimation.stoppingL
                   else bind (timed_out end_time) (fun b =>
                     if b : bool then Event_set BounceLedAnimation.stoppingL
                     else ret tt)))
              (bounce_cycle_calls c reverse n) Hstop) with (fuel := fuel) (s := tt) (w := w2)
    as (m & Em & El); [|done|done|].
  { intros _. eapply emits_eq; [|eapply emits_bind;
      [apply bounce_cycle_emits | intros _; by apply emits_stop_conditions]].
    by rewrite app_nil_r. }
  exists m. rewrite Em, El, Hc2, Hc1, Hl2, Hl1. done.
Qed.

(** C3, as amended. [stop()] on a Refill or Bounce instance raises the flag of
    the composite only; the Fill object it owns reads no flag, so the Fill pass
    in progress is not cut short: the calls of the run are a whole number of
    complete colour-then-black cycles, and [start] returns at the loop check
    after the cycle in progress, at most [2 * num_leds] waits after the
    [stop()] (raised once [start] has reset the flag). *)
Theorem composite_stop_ends_after_cycle (sch : nat -> bool) (k fuel : nat)
    (timeout : option Z) (one_shot : bool) (d : AbstractLed.t) (t0 : Z)
    (c : Color) (reverse : bool) :
  sch 0 = false -> sch k = true -> k < fuel ->
  (exists w' m,
     run (RefillLedAnimation.start timeout one_shot fuel)
         (RefillLedAnimation.init c reverse) d t0 sch = Returned tt w'
     /\ calls (trace w')
        = concat (replicate m (refill_cycle_calls c reverse (AbstractLed.num_leds d)))
     /\ waits_after_stop (trace w') <= 2 * AbstractLed.num_leds d)
  /\ (exists w' m,
     run (BounceLedAnimation.start timeout one_shot fuel)
         (BounceLedAnimation.init c reverse) d t0 sch = Returned tt w'
     /\ calls (trace w')
        = concat (replicate m (bounce_cycle_calls c reverse (AbstractLed.num_leds d)))
     /\ waits_after_stop (trace w') <= 2 * AbstractLed.num_leds d).
Proof.
  intros H0 Hk Hf. split.
  - destruct (refill_stop_bound sch k fuel timeout one_shot d t0 H0 Hk Hf
                (RefillLedAnimation.init c reverse)) as (w' & E & Hw).
    destruct (refill_whole_cycles sch fuel timeout one_shot d t0 c reverse)
      as (m & Em & _).
    rewrite E in Em. by exists w', m.
  - destruct (bounce_stop_bound sch k fuel timeout one_shot d t0 H0 Hk Hf
                (BounceLedAnimation.init c reverse)) as (w' & E & Hw).
    destruct (bounce_whole_cycles sch fuel timeout one_shot d t0 c reverse)
      as (m & Em & _).
    rewrite E in Em. by exists w', m.
Qed.

Lemma composite_stop_ends_after_cycle_witness :
  stop_at 4 0 = false /\ stop_at 4 4 = true /\ 4 < 5
  /\ (exists w' m,
        run (RefillLedAnimation.start None false 5)
            (RefillLedAnimation.init red false) (strip 3 blue) 0 (stop_at 4)
        = Returned tt w'
        /\ calls (trace w')
           = concat (replicate m
               (refill_cycle_calls red false (AbstractLed.num_leds (strip 3 blue))))
        /\ waits_after_stop (trace w') <= 2 * AbstractLed.num_leds (strip 3 blue)).
Proof.
  split; [reflexivity|]. split; [reflexivity|]. split; [lia|].
  apply (composite_stop_ends_after_cycle (stop_at 4) 4 5 None false
           (strip 3 blue) 0 red false); [reflexivity | reflexivity | lia].
Defined.

(** C3, as stated, fails: on three LEDs, [stop()] lands in the first Fill pass
    of a Refill (of a Bounce) once LED 0 is set; the two LEDs left of that
    pass are still set, and the three of the black pass after them. *)
Lemma composite_stop_not_seen_by_fill :
  (let tr := trace (world_of
       (run (RefillLedAnimation.start None false 5)
            (RefillLedAnimation.init red false) (strip 3 blue) 0 (stop_at 4))) in
   tr = [ESetLed 0 (as_rgb_tuple red) true; EWait 50; EStop 50;
         ESetLed 1 (as_rgb_tuple red) true; EWait 50;
         ESetLed 2 (as_rgb_tuple red) true; EWait 50;
         ESetLed 0 (as_rgb_tuple BLACK) true; EWait 50;
         ESetLed 1 (as_rgb_tuple BLACK) true; EWait 50;
         ESetLed 2 (as_rgb_tuple BLACK) true; EWait 50]
   /\ ~ fill_pass_cut_short 2 tr)
  /\ (let tr := trace (world_of
       (run (BounceLedAnimation.start None false 5)
            (BounceLedAnimation.init red false) (strip 3 blue) 0 (stop_at 4))) in
   tr = [ESetLed 0 (as_rgb_tuple red) true; EWait 50; EStop 50;
         ESetLed 1 (as_rgb_tuple red) true; EWait 50;
         ESetLed 2 (as_rgb_tuple red) true; EWait 50;
         ESetLed 2 (as_rgb_tuple BLACK) true; EWait 50;
         ESetLed 1 (as_rgb_tuple BLACK) true; EWait 50;
         ESetLed 0 (as_rgb_tuple BLACK) true; EWait 50]
   /\ ~ fill_pass_cut_short 2 tr).
Proof.
  split; (split; [vm_compute; reflexivity|]);
    unfold fill_pass_cut_short; vm_compute; lia.
Qed.

(** ** [stop()] and the loops *)

Lemma fill_stop_bound sch timeout one_shot d t0 (a : FillLedAnimation.t) :
  exists w',
    run (FillLedAnimation.start idL timeout one_shot) a d t0 sch = Returned tt w'
    /\ waits_after_stop (trace w') <= AbstractLed.num_leds d.
Proof.
  destruct (fill_start_single_pass a d t0 sch timeout one_shot)
    as (w' & E & Hc & _).
  exists w'. split; [exact E|]. unfold waits_after_stop.
  etrans; [apply count_after_stop_le|].
  rewrite <- count_wait_calls, Hc, count_app, count_wait_fill_pass, length_led_order.
  by destruct (negb one_shot || bool_decide (timeout <> None)).
Qed.

(** C1, as amended. No loop looks at the flag between two waits of one pass, and
    no wait is cut short, so a [stop()] raised once [start] has reset the flag
    makes [start] return at the end of the loop pass in progress, whatever the
    timeout: after it at most one wait is started by Breathe and Alternating,
    [num_leds] by Chase, [2 * num_leds] by Refill and Bounce and
    [2 * num_blinks + 1] by Blink; Fill reads no flag and returns after its
    single pass of [num_leds] waits. *)
Theorem stop_ends_current_pass (sch : nat -> bool) (k fuel : nat)
    (timeout : option Z) (one_shot : bool) (d : AbstractLed.t) (t0 : Z) :
  sch 0 = false -> sch k = true -> k < fuel ->
  (forall a, exists w',
     run (BreatheLedAnimation.start timeout one_shot fuel) a d t0 sch = Returned tt w'
     /\ waits_after_stop (trace w') <= 1)
  /\ (forall a, exists w',
     run (ChaseLedAnimation.start timeout one_shot fuel) a d t0 sch = Returned tt w'
     /\ waits_after_stop (trace w') <= AbstractLed.num_leds d)
  /\ (forall a, exists w',
     run (FillLedAnimation.start idL timeout one_shot) a d t0 sch = Returned tt w'
     /\ waits_after_stop (trace w') <= AbstractLed.num_leds d)
  /\ (forall a, exists w',
     run (RefillLedAnimation.start timeout one_shot fuel) a d t0 sch = Returned tt w'
     /\ waits_after_stop (trace w') <= 2 * AbstractLed.num_leds d)
  /\ (forall a, exists w',
     run (BounceLedAnimation.start timeout one_shot fuel) a d t0 sch = Returned tt w'
     /\ waits_after_stop (trace w') <= 2 * AbstractLed.num_leds d)
  /\ (forall a, exists w',
     run (BlinkLedAnimation.start timeout one_shot fuel) a d t0 sch = Returned tt w'
     /\ waits_after_stop (trace w')
        <= 2 * Z.to_nat (BlinkLedAnimation.num_blinks a) + 1)
  /\ (forall a, sch 1 = false -> exists w',
     run (AlternatingLedAnimation.start timeout one_shot fuel) a d t0 sch
     = Returned tt w'
     /\ waits_after_stop (trace w') <= 1).
Proof.
  intros H0 Hk Hf. repeat split; intros a.
  - by apply breathe_stop_bound with (k := k).
  - by apply chase_stop_bound with (k := k).
  - apply fill_stop_bound.
  - by apply refill_stop_bound with (k := k).
  - by apply bounce_stop_bound with (k := k).
  - by apply blink_stop_bound with (k := k).
  - by apply alternating_stop_bound with (k := k).
Qed.

Lemma stop_ends_current_pass_witness :
  stop_at 5 0 = false /\ stop_at 5 5 = true /\ 5 < 6
  /\ exists w',
       run (ChaseLedAnimation.start (Some 60%Z) false 6)
           (ChaseLedAnimation.init red BLACK) (strip 4 blue) 0 (stop_at 5)
       = Returned tt w'
       /\ waits_after_stop (trace w') <= AbstractLed.num_leds (strip 4 blue).
Proof.
  split; [reflexivity|]. split; [reflexivity|]. split; [lia|].
  apply (stop_ends_current_pass (stop_at 5) 5 6 (Some 60%Z) false (strip 4 blue) 0);
    [reflexivity | reflexivity | lia].
Defined.

(** C1, as stated, fails: Chase on four LEDs, [stop()] landing right after the
    first wait of a sweep.  The sweep goes on over the three LEDs left: three
    more waits are started, and [start] returns 300 ms after the [stop()]. *)
Lemma chase_stop_waits_for_sweep :
  let o := run (ChaseLedAnimation.start None false 5)
               (ChaseLedAnimation.init red BLACK) (strip 4 blue) 0 (stop_at 5) in
  has_returned o = true
  /\ waits_after_stop (trace (world_of o)) = 3
  /\ stop_time (trace (world_of o)) = Some 100%Z
  /\ now (world_of o) = 400%Z
  /\ ~ returns_within_one_wait o.
Proof.
  repeat split; try (vm_compute; reflexivity).
  unfold returns_within_one_wait. vm_compute. lia.
Qed.

(** ** The wait *)

Lemma Event_wait_ignores_stop {I} `{LedAnimation I} (delay : Lens I Event) :
  (forall i, view delay (stop i) = view delay i) -> wait_ignores_stop delay.
Proof.
  intros Hstop. split; [exact Hstop|]. intros w ms Hms.
  unfold Event_wait, bind, sched, gets, log, sleep, ret.
  destruct (stops w (pc w)); simpl; rewrite ?Hstop;
    destruct (view delay (self w)); simpl;
    (split; [done|]); (split; [lia|]); intros; try done; lia.
Qed.

(** C2, as amended. [wait(seconds)] blocks for at most [seconds], and returns
    at once only when the event it waits on, [_delay], is set.  [stop()]
    raises [stopping] (Fill's does nothing) and never [_delay]: on an instance
    whose [_delay] is unset the wait lasts the whole [seconds], whether
    [stop()] was called before it or is called during it.  This holds of the
    wait of every pattern, the Fill object of a Refill or Bounce included. *)
Theorem wait_is_not_cancelled_by_stop :
  wait_ignores_stop BreatheLedAnimation.delayL
  /\ wait_ignores_stop ChaseLedAnimation.delayL
  /\ wait_ignores_stop (composeL idL FillLedAnimation.delayL)
  /\ wait_ignores_stop
       (composeL RefillLedAnimation.fill_animationL FillLedAnimation.delayL)
  /\ wait_ignores_stop
       (composeL BounceLedAnimation.fill_animationL FillLedAnimation.delayL)
  /\ wait_ignores_stop BlinkLedAnimation.delayL
  /\ wait_ignores_stop AlternatingLedAnimation.delayL.
Proof.
  refine (conj _ (conj _ (conj _ (conj _ (conj _ (conj _ _))))));
    apply Event_wait_ignores_stop; by intros [].
Qed.

Lemma wait_is_not_cancelled_by_stop_witness :
  (0 <= 50)%Z
  /\ view BreatheLedAnimation.delayL (stop (BreatheLedAnimation.init red)) = false
  /\ now (world_of (Event_wait BreatheLedAnimation.delayL 50
        (init_world (stop (BreatheLedAnimation.init red)) (strip 2 blue) 0
                    (stop_at 0))))
     = (0 + 50)%Z.
Proof.
  split; [lia|]. split; [reflexivity|].
  apply (proj2 (proj1 wait_is_not_cancelled_by_stop)
           (init_world (stop (BreatheLedAnimation.init red)) (strip 2 blue) 0
                       (stop_at 0)) 50%Z); [lia | reflexivity].
Defined.

(** C2, as stated, fails: on a Breathe instance [stop()] was called on, and
    on one it is called on during the wait, [wait(0.05)] still takes its
    50 ms. *)
Lemma wait_after_stop_takes_full_time :
  now (world_of (Event_wait BreatheLedAnimation.delayL 50
        (init_world (stop (BreatheLedAnimation.init red)) (strip 2 blue) 0 no_stop)))
  = 50%Z
  /\ now (world_of (Event_wait BreatheLedAnimation.delayL 50
        (init_world (BreatheLedAnimation.init red) (strip 2 blue) 0 (stop_at 0))))
     = 50%Z
  /\ ~ wait_observes_stop BreatheLedAnimation.delayL.
Proof.
  split; [reflexivity|]. split; [reflexivity|].
  intros Hc.
  specialize (Hc (BreatheLedAnimation.init red) (strip 2 blue) 0%Z no_stop 50%Z).
  vm_compute in Hc. specialize (Hc eq_refl). discriminate Hc.
Qed.

(** ** Chase *)

(** C6. On four LEDs, a one-shot Chase that nobody stops and that has no
    timeout returns, having made, after the fill with the background colour
    it begins with, exactly four pairs of [set_led] calls, LED [i] to the
    foreground and back to the background, for [i = 0, 1, 2, 3] in this
    order, and then one fill with black, which leaves every LED off. *)
Theorem chase_one_shot_four_leds (fg bg : Color) (c0 c1 c2 c3 : rgb) (t0 : Z)
    (fuel : nat) :
  let o := run (ChaseLedAnimation.start None true (S (S fuel)))
               (ChaseLedAnimation.init fg bg)
               (AbstractLed.showing [c0; c1; c2; c3]) t0 no_stop in
  has_returned o = true
  /\ trace (world_of o)
     = [EFill (as_rgb_tuple bg);
        ESetLed 0 (as_rgb_tuple fg) true; EWait 100; ESetLed 0 (as_rgb_tuple bg) true;
        ESetLed 1 (as_rgb_tuple fg) true; EWait 100; ESetLed 1 (as_rgb_tuple bg) true;
        ESetLed 2 (as_rgb_tuple fg) true; EWait 100; ESetLed 2 (as_rgb_tuple bg) true;
        ESetLed 3 (as_rgb_tuple fg) true; EWait 100; ESetLed 3 (as_rgb_tuple bg) true;
        EFill (as_rgb_tuple BLACK)]
  /\ trace (world_of o)
     = [EFill (as_rgb_tuple bg)] ++ chase_sweep (as_rgb_tuple fg) (as_rgb_tuple bg) 100 4
       ++ [EFill (as_rgb_tuple BLACK)]
  /\ AbstractLed.shown (leds (world_of o)) = replicate 4 (as_rgb_tuple BLACK).
Proof. repeat split. Qed.

(** ** Blink *)

(** C8. With [num_blinks = 3], [repeat] false, [one_shot] false, no timeout
    and no [stop()], Blink returns, having made after its opening black fill
    and wait exactly three on/off pairs (fill with the colour, wait 0.25 s,
    fill with black, wait 0.5 s); no wait of 2 s follows the third pair, and
    the last fill is the black one. *)
Theorem blink_three_times_no_repeat (c : Color) (d : AbstractLed.t) (t0 : Z)
    (fuel : nat) :
  let o := run (BlinkLedAnimation.start None false (S (S fuel)))
               (BlinkLedAnimation.init c 3 false) d t0 no_stop in
  has_returned o = true
  /\ trace (world_of o)
     = [EFill (as_rgb_tuple BLACK); EWait 500;
        EFill (as_rgb_tuple c); EWait 250; EFill (as_rgb_tuple BLACK); EWait 500;
        EFill (as_rgb_tuple c); EWait 250; EFill (as_rgb_tuple BLACK); EWait 500;
        EFill (as_rgb_tuple c); EWait 250; EFill (as_rgb_tuple BLACK); EWait 500]
  /\ trace (world_of o)
     = [EFill (as_rgb_tuple BLACK); EWait 500] ++ blink_burst (as_rgb_tuple c) 3
  /\ AbstractLed.shown (leds (world_of o))
     = replicate (AbstractLed.num_leds d) (as_rgb_tuple BLACK).
Proof.
  repeat split.
  cbv -[replicate length Z.add]. by rewrite !length_replicate.
Qed.

(** C10. Whatever its parameters, its timeout, the [stop()] calls that arrive
    and however far it gets, Blink begins by filling the LEDs with black and
    waiting 0.5 s: its first call on the device is the black fill. *)
Theorem blink_begins_with_black (a : BlinkLedAnimation.t) (d : AbstractLed.t)
    (t0 : Z) (sch : nat -> bool) (timeout : option Z) (one_shot : bool)
    (fuel : nat) :
  exists rest,
    calls (trace (world_of
      (run (BlinkLedAnimation.start timeout one_shot fuel) a d t0 sch)))
    = EFill (as_rgb_tuple BLACK) :: EWait 500 :: rest.
Proof.
  assert (Hstop : forall i : BlinkLedAnimation.t, (fun _ => tt) (stop i) = tt) by done.
  assert (B : begins (fun _ : BlinkLedAnimation.t => tt) (AbstractLed.num_leds d) tt
                (BlinkLedAnimation.start timeout one_shot fuel)
                ([] ++ [] ++ [EFill (as_rgb_tuple BLACK)] ++ [EWait 500] ++ [])).
  { unfold BlinkLedAnimation.start.
    eapply begins_bind; [by apply emits_Event_clear | intros _].
    eapply begins_bind; [by apply emits_end_time_of | intros end_time].
    eapply begins_bind; [by apply emits_leds_fill | intros _].
    eapply begins_bind; [by apply emits_Event_wait | intros _].
    apply begins_extends. unfold BlinkLedAnimation.blinks. repeat extends_step. }
  destruct (B (init_world a d t0 sch) eq_refl eq_refl) as (rest & E).
  by exists rest.
Qed.

(** ** Breathe *)

(** C7. A one-shot Breathe that nobody stops and that has no timeout returns
    (after 40 passes).  Each pass fills the LEDs with the three channels of
    the colour multiplied by the brightness, as floats, and waits 50 ms; an
    integer channel counts as the float of the same value.  The brightness
    values rendered are the forty values listed: they rise strictly, in steps
    of 0.05 from 0, staying below 1 until the twentieth reaches it, then fall
    strictly, staying above 0 until the twentieth is at most 0, where the loop
    stops; a fill with black follows. *)
Theorem breathe_one_shot_cycle (c : Color) (d : AbstractLed.t) (t0 : Z)
    (fuel : nat) :
  let o := run (BreatheLedAnimation.start None true (41 + fuel))
               (BreatheLedAnimation.init c) d t0 no_stop in
  has_returned o = true
  /\ trace (world_of o)
     = (let '(r, g, b) := as_rgb_tuple c in
        breathe_frames (float_of_num r) (float_of_num g) (float_of_num b) 50
                       (breathe_up ++ breathe_down))
       ++ [EFill (as_rgb_tuple BLACK)]
  /\ map (fun k => float_of_num (Int (Z.of_nat k))) (seq 0 256)
     = 0%float :: ramp 255 0 1
  /\ (forall f, float_of_num (Float f) = f)
  /\ breathe_up
     = [0.050000000000000003; 0.10000000000000001; 0.15000000000000002;
        0.20000000000000001; 0.25; 0.29999999999999999; 0.34999999999999998;
        0.39999999999999997; 0.44999999999999996; 0.49999999999999994;
        0.54999999999999993; 0.59999999999999998; 0.65000000000000002;
        0.70000000000000007; 0.75000000000000011; 0.80000000000000016;
        0.8500000000000002; 0.90000000000000024; 0.95000000000000029;
        1.0000000000000002]%float
  /\ breathe_down
     = [0.95000000000000018; 0.90000000000000013; 0.85000000000000009;
        0.80000000000000004; 0.75; 0.69999999999999996; 0.64999999999999991;
        0.59999999999999987; 0.54999999999999982; 0.49999999999999983;
        0.44999999999999984; 0.39999999999999986; 0.34999999999999987;
        0.29999999999999988; 0.24999999999999989; 0.1999999999999999;
        0.14999999999999991; 0.099999999999999908; 0.049999999999999906;
        -9.7144514654701197e-17]%float
  /\ increasing (0%float :: breathe_up) = true
  /\ forallb (fun b => (b <? 1)%float) (removelast breathe_up) = true
  /\ (1 <=? breathe_peak)%float = true
  /\ decreasing (breathe_peak :: breathe_down) = true
  /\ forallb (fun b => (0 <? b)%float) (removelast breathe_down) = true
  /\ (List.last breathe_down 1 <=? 0)%float = true.
Proof.
  destruct c as [[[r g] b]]. cbv zeta.
  split; [vm_compute; reflexivity|].
  split; [vm_compute; reflexivity|].
  split; [vm_compute; reflexivity|].
  split; [reflexivity|].
  repeat split; vm_compute; reflexivity.
Qed.

(** ** Alternating *)

Lemma lit_partition led : lit true led = negb (lit false led).
Proof.
  unfold lit. pose proof (Nat.mod_upper_bound led 2).
  destruct (led mod 2) as [|[|r]] eqn:E; simpl; [done | done | lia].
Qed.

Lemma flat_map_singleton {A B} (f : A -> B) (l : list A) :
  flat_map (fun a => [f a]) l = map f l.
Proof. induction l as [|a l IH]; simpl; [done|]. by rewrite IH. Qed.

(** What the body of the [for] loop does for one LED. *)
Lemma alternating_led_emits n c evens led :
  emits AlternatingLedAnimation.color n c
    (bind (gets (fun w => AlternatingLedAnimation.color (self w))) (fun c =>
       if evens && (led mod 2 =? 0)
       then leds_set_led led (as_rgb_tuple c) false
       else if negb evens && (led mod 2 =? 1)
       then leds_set_led led (as_rgb_tuple c) false
       else leds_set_led led (as_rgb_tuple BLACK) false))
    [ESetLed led (if lit evens led then as_rgb_tuple c else as_rgb_tuple BLACK) false]
    c.
Proof.
  assert (Hstop : forall i, AlternatingLedAnimation.color (stop i)
                            = AlternatingLedAnimation.color i) by by intros [].
  apply emits_read with (v := c); [done|].
  unfold lit. pose proof (Nat.mod_upper_bound led 2).
  destruct evens, (led mod 2) as [|[|r]]; simpl;
    try (by apply emits_leds_set_led); lia.
Qed.

Lemma alternating_frame_emits n c evens :
  emits AlternatingLedAnimation.color n c (AlternatingLedAnimation.frame evens)
    (frame_calls (as_rgb_tuple c) evens n) c.
Proof.
  assert (Hstop : forall i, AlternatingLedAnimation.color (stop i)
                            = AlternatingLedAnimation.color i) by by intros [].
  unfold AlternatingLedAnimation.frame, frame_calls.
  apply emits_num_leds. rewrite <- flat_map_singleton.
  apply emits_bind with (x1 := c); [|intros _; by apply emits_leds_show].
  apply emits_for. intros led. apply alternating_led_emits.
Qed.

(** The [for] loop of a frame when nobody calls [stop()]: the world it
    leaves. *)
Lemma alternating_for_no_stop evens a n j dv t tr p :
  let f := fun led =>
    ESetLed led (if lit evens led
                 then as_rgb_tuple (AlternatingLedAnimation.color a)
                 else as_rgb_tuple BLACK) false in
  for_ (seq j n) (fun led =>
    bind (gets (fun w => AlternatingLedAnimation.color (self w))) (fun c =>
      if evens && (led mod 2 =? 0)
      then leds_set_led led (as_rgb_tuple c) false
      else if negb evens && (led mod 2 =? 1)
      then leds_set_led led (as_rgb_tuple c) false
      else leds_set_led led (as_rgb_tuple BLACK) false))
    (mkWorld a dv t tr p (fun _ => false))
  = Returned tt
      (mkWorld a (replay (map f (seq j n)) dv) t (tr ++ map f (seq j n))
               (p + n) (fun _ => false)).
Proof.
  intros f. revert j dv tr p. induction n as [|n IH]; intros j dv tr p.
  - simpl. by rewrite Nat.add_0_r, app_nil_r.
  - cbn [seq for_ map replay]. unfold bind at 1.
    assert (E : bind (gets (fun w => AlternatingLedAnimation.color (self w)))
                  (fun c =>
                     if evens && (j mod 2 =? 0)
                     then leds_set_led j (as_rgb_tuple c) false
                     else if negb evens && (j mod 2 =? 1)
                     then leds_set_led j (as_rgb_tuple c) false
                     else leds_set_led j (as_rgb_tuple BLACK) false)
                  (mkWorld a dv t tr p (fun _ => false))
                = Returned tt
                    (mkWorld a (apply_call dv (f j)) t (tr ++ [f j]) (S p) (fun _ => false))).
    { unfold f, lit. pose proof (Nat.mod_upper_bound j 2).
      destruct evens, (j mod 2) as [|[|r]]; simpl; try reflexivity; lia. }
    rewrite E, IH, <- (assoc_L (++)).
    replace (S p + n) with (p + S n) by lia. reflexivity.
Qed.

(** A frame when nobody calls [stop()]: the world it leaves. *)
Lemma alternating_frame_no_stop evens a dv t tr p :
  AlternatingLedAnimation.frame evens (mkWorld a dv t tr p (fun _ => false))
  = Returned tt
      (mkWorld a
         (replay (frame_calls (as_rgb_tuple (AlternatingLedAnimation.color a))
                              evens (AbstractLed.num_leds dv)) dv)
         t
         (tr ++ frame_calls (as_rgb_tuple (AlternatingLedAnimation.color a))
                            evens (AbstractLed.num_leds dv))
         (p + AbstractLed.num_leds dv + 1) (fun _ => false)).
Proof.
  unfold AlternatingLedAnimation.frame, frame_calls.
  unfold bind at 1. unfold leds_num_leds, gets at 1. cbv beta.
  unfold bind at 1. cbn [leds].
  rewrite alternating_for_no_stop. cbv zeta.
  rewrite replay_app, (assoc_L (++)), Nat.add_1_r. reflexivity.
Qed.

Lemma num_leds_fill d c :
  AbstractLed.num_leds (AbstractLed.fill d c) = AbstractLed.num_leds d.
Proof. apply (apply_call_num_leds d (EFill c)). Qed.

(** ** The LEDs when [start] returns *)

Lemma all_leds_fill d c : all_leds c (AbstractLed.fill d c).
Proof.
  intros led Hled. unfold AbstractLed.num_leds, AbstractLed.fill in *. simpl in *.
  rewrite length_replicate in Hled. by apply lookup_replicate_2.
Qed.

Lemma bind_returned_inv {I A B} (m : M I A) (f : A -> M I B) w b w' :
  bind m f w = Returned b w' ->
  exists a w1, m w = Returned a w1 /\ f a w1 = Returned b w'.
Proof.
  unfold bind. destruct (m w) as [a w1|w1]; [|done]. intros E. by exists a, w1.
Qed.

Lemma leds_fill_returns_filled {I} `{LedAnimation I} c (w w' : World I) :
  leds_fill c w = Returned tt w' -> all_leds c (leds w').
Proof.
  unfold leds_fill, bind, sched, modify_leds, log.
  destruct (stops w (pc w)); intros [= <-]; simpl; apply all_leds_fill.
Qed.

(** Breathe, Chase and Alternating end with a black fill: however [start]
    came to return, every LED is off then. *)
Lemma breathe_returns_off a d t0 sch timeout one_shot fuel w' :
  run (BreatheLedAnimation.start timeout one_shot fuel) a d t0 sch = Returned tt w' ->
  all_leds (as_rgb_tuple BLACK) (leds w').
Proof.
  unfold run, BreatheLedAnimation.start. intros E.
  apply bind_returned_inv in E as (? & ? & _ & E).
  apply bind_returned_inv in E as (? & ? & _ & E).
  apply bind_returned_inv in E as (? & ? & _ & E).
  apply bind_returned_inv in E as (? & ? & _ & E).
  by apply leds_fill_returns_filled in E.
Qed.

Lemma chase_returns_off a d t0 sch timeout one_shot fuel w' :
  run (ChaseLedAnimation.start timeout one_shot fuel) a d t0 sch = Returned tt w' ->
  all_leds (as_rgb_tuple BLACK) (leds w').
Proof.
  unfold run, ChaseLedAnimation.start. intros E.
  apply bind_returned_inv in E as (? & ? & _ & E).
  apply bind_returned_inv in E as (? & ? & _ & E).
  apply bind_returned_inv in E as (? & ? & _ & E).
  apply bind_returned_inv in E as (? & ? & _ & E).
  apply bind_returned_inv in E as (? & ? & _ & E).
  by apply leds_fill_returns_filled in E.
Qed.

Lemma alternating_returns_off a d t0 sch timeout one_shot fuel w' :
  run (AlternatingLedAnimation.start timeout one_shot fuel) a d t0 sch
  = Returned tt w' ->
  all_leds (as_rgb_tuple BLACK) (leds w').
Proof.
  unfold run, AlternatingLedAnimation.start. intros E.
  apply bind_returned_inv in E as (? & ? & _ & E).
  apply bind_returned_inv in E as (? & ? & _ & E).
  apply bind_returned_inv in E as (? & ? & _ & E).
  apply bind_returned_inv in E as (? & ? & _ & E).
  by apply leds_fill_returns_filled in E.
Qed.

Lemma replay_waits_only ws d : forallb is_wait ws = true -> replay ws d = d.
Proof.
  revert d. induction ws as [|e ws IH]; intros d Hws; simpl in *; [done|].
  apply andb_prop in Hws as [He Hws]. destruct e; try done. by apply IH.
Qed.

Lemma replay_blink_burst c k d :
  all_leds (as_rgb_tuple BLACK) d ->
  all_leds (as_rgb_tuple BLACK) (replay (blink_burst c k) d).
Proof.
  unfold blink_burst. generalize 0 as j. revert d.
  induction k as [|k IH]; intros d j Hd; simpl; [done|].
  apply IH, all_leds_fill.
Qed.

Lemma replay_blink_passes c nb repeat one_shot m d :
  all_leds (as_rgb_tuple BLACK) d ->
  all_leds (as_rgb_tuple BLACK)
    (replay (concat (replicate m (blink_pass_calls c nb repeat one_shot))) d).
Proof.
  revert d. induction m as [|m IH]; intros d Hd; simpl; [done|].
  rewrite replay_app. apply IH. unfold blink_pass_calls. rewrite replay_app.
  rewrite replay_waits_only; [by apply replay_blink_burst|].
  by destruct one_shot, repeat.
Qed.

Lemma blink_pass_emits n c nb (repeat one_shot : bool) end_time :
  emits blink_obs n (c, nb, repeat)
    (bind BlinkLedAnimation.blinks (fun _ =>
       bind (gets (fun w => BlinkLedAnimation.repeat (self w))) (fun r =>
         bind (if one_shot then Event_set BlinkLedAnimation.stoppingL
               else if r : bool then Event_wait BlinkLedAnimation.delayL 2000
               else Event_set BlinkLedAnimation.stoppingL) (fun _ =>
           bind (timed_out end_time) (fun b =>
             if b : bool then Event_set BlinkLedAnimation.stoppingL
             else ret tt)))))
    (blink_pass_calls c nb repeat one_shot) (c, nb, repeat).
Proof.
  assert (Hstop : forall i, blink_obs (stop i) = blink_obs i) by by intros [].
  assert (Hset : forall b i,
    blink_obs (update BlinkLedAnimation.stoppingL b i) = blink_obs i)
    by by intros b [].
  unfold blink_pass_calls. eapply emits_bind.
  { unfold BlinkLedAnimation.blinks, blink_burst.
    apply emits_read with (v := nb); [by intros w [= ? ? ?]|].
    apply emits_for. intros _.
    apply emits_read with (v := c); [by intros w [= ? ? ?]|].
    apply emits_bind with (x1 := (c, nb, repeat)) (es1 := [_]) (es2 := [_; _; _]);
      [by apply emits_leds_fill | intros _].
    apply emits_bind with (x1 := (c, nb, repeat)) (es1 := [_]) (es2 := [_; _]);
      [by apply emits_Event_wait | intros _].
    apply emits_bind with (x1 := (c, nb, repeat)) (es1 := [_]) (es2 := [_]);
      [by apply emits_leds_fill | intros _].
    by apply emits_Event_wait. }
  intros _. apply emits_read with (v := repeat); [by intros w [= ? ? ?]|].
  eapply emits_eq; [|eapply emits_bind with (x1 := (c, nb, repeat))].
  2: { instantiate (1 := if one_shot then [] else if repeat then [EWait 2000] else []).
       destruct one_shot; [by apply emits_Event_set|].
       destruct repeat; [by apply emits_Event_wait | by apply emits_Event_set]. }
  2: { intros _. apply emits_bind with (x1 := (c, nb, repeat)) (es1 := []) (es2 := []);
         [by apply emits_timed_out | intros b].
       destruct b; [by apply emits_Event_set | apply emits_ret]. }
  by rewrite app_nil_r.
Qed.

(** Blink: its calls are the opening black fill and wait and then a whole
    number of passes, each of which leaves the LEDs off. *)
Lemma blink_run_calls a d t0 sch timeout one_shot fuel :
  let o := run (BlinkLedAnimation.start timeout one_shot fuel) a d t0 sch in
  exists m,
    calls (trace (world_of o))
    = [EFill (as_rgb_tuple BLACK); EWait 500]
      ++ concat (replicate m
           (blink_pass_calls (BlinkLedAnimation.color a)
              (BlinkLedAnimation.num_blinks a) (BlinkLedAnimation.repeat a) one_shot))
    /\ leds (world_of o)
       = replay (concat (replicate m
           (blink_pass_calls (BlinkLedAnimation.color a)
              (BlinkLedAnimation.num_blinks a) (BlinkLedAnimation.repeat a) one_shot)))
           (AbstractLed.fill d (as_rgb_tuple BLACK)).
Proof.
  intros o. subst o.
  set (n := AbstractLed.num_leds d). set (x := blink_obs a).
  assert (Hstop : forall i, blink_obs (stop i) = blink_obs i) by by intros [].
  assert (Hset : forall b i,
    blink_obs (update BlinkLedAnimation.stoppingL b i) = blink_obs i)
    by by intros b [].
  unfold run, BlinkLedAnimation.start.
  destruct (emits_Event_clear blink_obs n x _ Hstop Hset (init_world a d t0 sch)
              eq_refl eq_refl) as ([] & w1 & E1 & Hc1 & Hl1 & Hx1 & Hn1).
  rewrite (bind_returned _ _ _ _ _ E1).
  destruct (emits_end_time_of blink_obs n x timeout Hstop w1 Hx1 Hn1)
    as (end_time & w2 & E2 & Hc2 & Hl2 & Hx2 & Hn2).
  rewrite (bind_returned _ _ _ _ _ E2).
  destruct (emits_leds_fill blink_obs n Hstop x (as_rgb_tuple BLACK) w2 Hx2 Hn2)
    as ([] & w3 & E3 & Hc3 & Hl3 & Hx3 & Hn3).
  rewrite (bind_returned _ _ _ _ _ E3).
  destruct (emits_Event_wait blink_obs n Hstop x BlinkLedAnimation.delayL 500 w3
              Hx3 Hn3) as ([] & w4 & E4 & Hc4 & Hl4 & Hx4 & Hn4).
  rewrite (bind_returned _ _ _ _ _ E4).
  destruct (while_emits blink_obs n x BlinkLedAnimation.stoppingL _ _ Hstop
              (fun _ : unit => blink_pass_emits n (BlinkLedAnimation.color a)
                 (BlinkLedAnimation.num_blinks a) (BlinkLedAnimation.repeat a)
                 one_shot end_time) fuel tt w4 Hx4 Hn4) as (m & Em & El).
  exists m. by rewrite Em, El, Hc4, Hc3, Hc2, Hc1, Hl4, Hl3, Hl2, Hl1.
Qed.

Lemma blink_returns_off a d t0 sch timeout one_shot fuel w' :
  run (BlinkLedAnimation.start timeout one_shot fuel) a d t0 sch = Returned tt w' ->
  all_leds (as_rgb_tuple BLACK) (leds w').
Proof.
  intros E.
  destruct (blink_run_calls a d t0 sch timeout one_shot fuel) as (m & _ & El).
  rewrite E in El. simpl in El. rewrite El.
  apply replay_blink_passes, all_leds_fill.
Qed.

Lemma replay_fill_pass_all c ms reverse d :
  all_leds c (replay (fill_pass c ms (led_order reverse (AbstractLed.num_leds d))) d).
Proof.
  intros led Hled. rewrite replay_num_leds in Hled.
  apply replay_fill_pass_lookup; [by apply led_order_elem | done].
Qed.

Lemma replay_whole_cycles_off (cyc : nat -> list event) m d :
  (forall d', all_leds (as_rgb_tuple BLACK)
                (replay (cyc (AbstractLed.num_leds d')) d')) ->
  all_leds (as_rgb_tuple BLACK)
    (replay (concat (replicate (S m) (cyc (AbstractLed.num_leds d)))) d).
Proof.
  intros Hcyc. rewrite replicate_S_end, concat_app, replay_app. simpl.
  rewrite app_nil_r.
  specialize (Hcyc (replay (concat (replicate m (cyc (AbstractLed.num_leds d)))) d)).
  by rewrite replay_num_leds in Hcyc.
Qed.

(** Refill and Bounce have no closing fill: the LEDs are off when [start]
    returns provided it made a call at all, that is, ran at least one
    cycle. *)
Lemma refill_returns_off sch fuel timeout one_shot d t0 c reverse w' :
  run (RefillLedAnimation.start timeout one_shot fuel)
      (RefillLedAnimation.init c reverse) d t0 sch = Returned tt w' ->
  calls (trace w') <> [] ->
  all_leds (as_rgb_tuple BLACK) (leds w').
Proof.
  intros E Hcalls.
  destruct (refill_whole_cycles sch fuel timeout one_shot d t0 c reverse)
    as (m & Em & El).
  rewrite E in Em, El. simpl in Em, El.
  destruct m as [|m]; [done|]. rewrite El.
  apply (replay_whole_cycles_off (refill_cycle_calls c reverse)).
  intros d'. unfold refill_cycle_calls. rewrite replay_app.
  pose proof (replay_fill_pass_all (as_rgb_tuple BLACK) 50 reverse
                (replay (fill_pass (as_rgb_tuple c) 50
                           (led_order reverse (AbstractLed.num_leds d'))) d')) as Hp.
  by rewrite replay_num_leds in Hp.
Qed.

Lemma bounce_returns_off sch fuel timeout one_shot d t0 c reverse w' :
  run (BounceLedAnimation.start timeout one_shot fuel)
      (BounceLedAnimation.init c reverse) d t0 sch = Returned tt w' ->
  calls (trace w') <> [] ->
  all_leds (as_rgb_tuple BLACK) (leds w').
Proof.
  intros E Hcalls.
  destruct (bounce_whole_cycles sch fuel timeout one_shot d t0 c reverse)
    as (m & Em & El).
  rewrite E in Em, El. simpl in Em, El.
  destruct m as [|m]; [done|]. rewrite El.
  apply (replay_whole_cycles_off (bounce_cycle_calls c reverse)).
  intros d'. unfold bounce_cycle_calls. rewrite replay_app.
  pose proof (replay_fill_pass_all (as_rgb_tuple BLACK) 50 (negb reverse)
                (replay (fill_pass (as_rgb_tuple c) 50
                           (led_order reverse (AbstractLed.num_leds d'))) d')) as Hp.
  by rewrite replay_num_leds in Hp.
Qed.

(** C4 fails on the code: a Refill (a Bounce) on two LEDs showing blue, with
    [stop()] called right after [start] has reset the flag and before its
    first loop check.  [start] returns without a call on the device, and the
    LEDs still show blue. *)
Theorem composite_stopped_at_once_leaves_leds_lit :
  (let o := run (RefillLedAnimation.start None false 5)
                (RefillLedAnimation.init red false) (strip 2 blue) 0 (stop_at 1) in
   has_returned o = true
   /\ calls (trace (world_of o)) = []
   /\ AbstractLed.shown (leds (world_of o)) = [as_rgb_tuple blue; as_rgb_tuple blue]
   /\ ~ all_leds (as_rgb_tuple BLACK) (leds (world_of o)))
  /\ (let o := run (BounceLedAnimation.start None false 5)
                (BounceLedAnimation.init red false) (strip 2 blue) 0 (stop_at 1) in
   has_returned o = true
   /\ calls (trace (world_of o)) = []
   /\ AbstractLed.shown (leds (world_of o)) = [as_rgb_tuple blue; as_rgb_tuple blue]
   /\ ~ all_leds (as_rgb_tuple BLACK) (leds (world_of o))).
Proof.
  split; (split; [reflexivity|]); (split; [reflexivity|]); (split; [reflexivity|]);
    intros Hoff; specialize (Hoff 0 ltac:(vm_compute; lia)); discriminate Hoff.
Qed.

(** * Further properties *)

(** ** The registry *)

(** X1. The [animations] dict has exactly the seven names as keys, each class
    is the value of one of them and of no other, and a name that is not a key
    has no value ([KeyError]). *)
Theorem animations_registry :
  (forall name p, animations !! name = Some p <-> (name, p) ∈ animations_items)
  /\ (forall name, name ∉ animations_items.*1 -> animations !! name = None)
  /\ (forall p, exists name, animations !! name = Some p)
  /\ (forall name1 name2 p,
        animations !! name1 = Some p -> animations !! name2 = Some p ->
        name1 = name2)
  /\ size animations = 7.
Proof.
  assert (Hnd : NoDup animations_items.*1).
  { apply (bool_decide_unpack _). by vm_compute. }
  assert (Hiff : forall name p,
    animations !! name = Some p <-> (name, p) ∈ animations_items).
  { intros name p. unfold animations. symmetry. by apply elem_of_list_to_map. }
  split; [exact Hiff|]. split; [|split; [|split]].
  - intros name Hname. unfold animations. by apply not_elem_of_list_to_map_1.
  - intros []; eexists; apply Hiff; unfold animations_items;
      repeat first [apply list_elem_of_here | apply list_elem_of_further].
  - intros name1 name2 p H1 H2. apply Hiff in H1, H2.
    clear Hiff Hnd. unfold animations_items in H1, H2.
    repeat (apply elem_of_cons in H1 as [H1|H1]);
      try (by apply elem_of_nil in H1);
      repeat (apply elem_of_cons in H2 as [H2|H2]);
      try (by apply elem_of_nil in H2); congruence.
  - unfold animations. by rewrite map_size_list_to_map.
Qed.

(** ** What no run does *)

Section Safe.
Context {I : Type} `{LedAnimation I} (P : I -> Prop) (n : nat).
Hypothesis stop_keeps : forall i, P i -> P (stop i).

Local Abbreviation safe := (safe P n (in_range n)).

Lemma safe_ret {A} (a : A) : safe (ret a).
Proof.
  intros w HP Hn. simpl. repeat split; [done..|].
  exists []. by rewrite app_nil_r.
Qed.

Lemma safe_bind {A C} (m : M I A) (f : A -> M I C) :
  safe m -> (forall a, safe (f a)) -> safe (bind m f).
Proof.
  intros Hm Hf w HP Hn. destruct (Hm w HP Hn) as (HP1 & Hn1 & tr1 & E1 & Hok1).
  unfold bind. destruct (m w) as [a w1|w1]; simpl in *.
  - destruct (Hf a w1 HP1 Hn1) as (HP2 & Hn2 & tr2 & E2 & Hok2).
    repeat split; [done..|]. exists (tr1 ++ tr2).
    rewrite E2, E1, <- (assoc_L (++)). split; [done|]. by apply Forall_app.
  - repeat split; [done..|]. by exists tr1.
Qed.

Lemma safe_if {A} (c : bool) (m1 m2 : M I A) :
  safe m1 -> safe m2 -> safe (if c then m1 else m2).
Proof. by destruct c. Qed.

Lemma safe_gets {A} (g : World I -> A) : safe (gets g).
Proof.
  intros w HP Hn. simpl. repeat split; [done..|].
  exists []. by rewrite app_nil_r.
Qed.

Lemma safe_num_leds {C} (f : nat -> M I C) :
  safe (f n) -> safe (bind leds_num_leds f).
Proof.
  intros Hf w HP Hn. unfold bind, leds_num_leds, gets. rewrite Hn. by apply Hf.
Qed.

Lemma safe_sched : safe sched.
Proof.
  intros w HP Hn. unfold sched. destruct (stops w (pc w)); simpl.
  - repeat split; [by apply stop_keeps | done |].
    eexists. split; [done|]. by repeat constructor.
  - repeat split; [done..|]. exists []. by rewrite app_nil_r.
Qed.

Lemma safe_modify_self (f : I -> I) :
  (forall i, P i -> P (f i)) -> safe (modify_self f).
Proof.
  intros Hf w HP Hn. simpl. repeat split; [by apply Hf | done |].
  exists []. by rewrite app_nil_r.
Qed.

Lemma safe_modify_leds (f : AbstractLed.t -> AbstractLed.t) :
  (forall d, AbstractLed.num_leds (f d) = AbstractLed.num_leds d) ->
  safe (modify_leds f).
Proof.
  intros Hf w HP Hn. simpl. repeat split; [done | by rewrite Hf |].
  exists []. by rewrite app_nil_r.
Qed.

Lemma safe_sleep ms : safe (sleep ms).
Proof.
  intros w HP Hn. simpl. repeat split; [done..|].
  exists []. by rewrite app_nil_r.
Qed.

Lemma safe_log e : in_range n e -> safe (log e).
Proof.
  intros He w HP Hn. simpl. repeat split; [done..|].
  exists [e]. split; [done|]. by repeat constructor.
Qed.

Lemma safe_for {Y} (l : list Y) (body : Y -> M I unit) :
  (forall y, y ∈ l -> safe (body y)) -> safe (for_ l body).
Proof.
  induction l as [|y l IH]; intros Hb; simpl.
  - apply safe_ret.
  - apply safe_bind; [apply Hb; by left | intros _].
    apply IH. intros y' Hy'. apply Hb. by right.
Qed.

Lemma safe_Event_update (e : Lens I Event) :
  (forall b i, P i -> P (update e b i)) ->
  safe (Event_set e) /\ safe (Event_clear e).
Proof.
  intros He. split; (apply safe_bind; [apply safe_sched | intros _]);
    apply safe_modify_self; intros i; apply He.
Qed.

Lemma safe_Event_is_set (e : Lens I Event) : safe (Event_is_set e).
Proof. apply safe_bind; [apply safe_sched | intros _; apply safe_gets]. Qed.

Lemma safe_Event_wait (e : Lens I Event) ms : safe (Event_wait e ms).
Proof.
  apply safe_bind; [apply safe_sched | intros _].
  apply safe_bind; [apply safe_gets | intros flag].
  apply safe_bind; [by apply safe_log | intros _].
  destruct flag; [apply safe_ret | apply safe_sleep].
Qed.

Lemma safe_time : safe time.
Proof. apply safe_bind; [apply safe_sched | intros _; apply safe_gets]. Qed.

Lemma safe_end_time_of timeout : safe (end_time_of timeout).
Proof.
  destruct timeout as [t|]; simpl; [|apply safe_ret].
  destruct (t =? 0)%Z; [apply safe_ret|].
  apply safe_bind; [apply safe_time | intros ?; apply safe_ret].
Qed.

Lemma safe_timed_out end_time : safe (timed_out end_time).
Proof.
  destruct end_time as [t|]; simpl; [|apply safe_ret].
  destruct (t =? 0)%Z; [apply safe_ret|].
  apply safe_bind; [apply safe_time | intros ?; apply safe_ret].
Qed.

Lemma safe_LOG_warning msg : safe (LOG_warning msg).
Proof. apply safe_bind; [apply safe_sched | intros _; by apply safe_log]. Qed.

Lemma safe_leds_fill c : safe (leds_fill c).
Proof.
  apply safe_bind; [apply safe_sched | intros _].
  apply safe_bind; [|intros _; by apply safe_log].
  apply safe_modify_leds. intros d. apply num_leds_fill.
Qed.

Lemma safe_leds_set_led led c im : led < n -> safe (leds_set_led led c im).
Proof.
  intros Hled. apply safe_bind; [apply safe_sched | intros _].
  apply safe_bind; [|intros _; by apply safe_log].
  apply safe_modify_leds. intros d.
  apply (apply_call_num_leds d (ESetLed led c im)).
Qed.

Lemma safe_leds_show : safe leds_show.
Proof.
  apply safe_bind; [apply safe_sched | intros _].
  apply safe_bind; [|intros _; by apply safe_log].
  by apply safe_modify_leds.
Qed.

Lemma safe_while {St} stopping fuel (s : St) (body : St -> M I St) :
  (forall s, safe (body s)) -> safe (while_not_set stopping fuel s body).
Proof.
  intros Hb. revert s. induction fuel as [|fuel IH]; intros s; simpl.
  - intros w HP Hn. simpl. repeat split; [done..|].
    exists []. by rewrite app_nil_r.
  - apply safe_bind; [apply safe_Event_is_set | intros b].
    destruct b; [apply safe_ret|].
    apply safe_bind; [apply Hb | intros s'; apply IH].
Qed.
End Safe.

(** Closes the side conditions of the rules for a given invariant. *)
Ltac safe_side :=
  lazymatch goal with
  | H : ?led ∈ seq 0 _ |- ?led < _ => apply elem_of_seq in H; lia
  | |- _ => first [ done | by intros [] | by intros ? [] ]
  end.

(** Decomposes a [safe] goal along the program text. *)
Ltac safe_step :=
  lazymatch goal with
  | |- safe _ _ _ (bind leds_num_leds _) => apply safe_num_leds
  | |- safe _ _ _ (bind _ _) => apply safe_bind; [ | intros ? ]
  | |- safe _ _ _ (if _ then _ else _) => apply safe_if
  | |- safe _ _ _ (for_ (seq 0 _) _) => apply safe_for; intros ? ?
  | |- safe _ _ _ (while_not_set _ _ _ _) => apply safe_while; [safe_side | intros ?]
  | |- safe _ _ _ (ret _) => apply safe_ret
  | |- safe _ _ _ (gets _) => apply safe_gets
  | |- safe _ _ _ (Event_set _) => apply safe_Event_update; safe_side
  | |- safe _ _ _ (Event_clear _) => apply safe_Event_update; safe_side
  | |- safe _ _ _ (Event_wait _ _) => apply safe_Event_wait; safe_side
  | |- safe _ _ _ (timed_out _) => apply safe_timed_out; safe_side
  | |- safe _ _ _ (end_time_of _) => apply safe_end_time_of; safe_side
  | |- safe _ _ _ (LOG_warning _) => apply safe_LOG_warning; safe_side
  | |- safe _ _ _ (leds_fill _) => apply safe_leds_fill; safe_side
  | |- safe _ _ _ (leds_set_led _ _ _) => apply safe_leds_set_led; safe_side
  | |- safe _ _ _ leds_show => apply safe_leds_show; safe_side
  | |- safe _ _ _ (modify_self _) => apply safe_modify_self; safe_side
  | |- safe _ _ _ _ => progress cbv beta iota zeta
  end.

Lemma fill_start_safe {I} `{LedAnimation I} (P : I -> Prop) n
    (this : Lens I FillLedAnimation.t) timeout one_shot :
  (forall i, P i -> P (stop i)) ->
  safe P n (in_range n) (FillLedAnimation.start this timeout one_shot).
Proof.
  intros Hstop. unfold FillLedAnimation.start.
  apply safe_bind; [|intros _].
  { apply safe_if; [by apply safe_LOG_warning | apply safe_ret]. }
  apply safe_num_leds. apply safe_bind; [apply safe_gets | intros r].
  apply safe_for. intros led Hled.
  assert (Hlt : led < n).
  { destruct r; [rewrite list_elem_of_In, <- in_rev, <- list_elem_of_In in Hled|];
      apply elem_of_seq in Hled; lia. }
  apply safe_bind; [apply safe_gets | intros c].
  apply safe_bind; [by apply safe_leds_set_led | intros _].
  apply safe_bind; [apply safe_gets | intros ms]. by apply safe_Event_wait.
Qed.

(** Proves that a [start] method is [safe] for a given invariant. *)
Ltac safe_start :=
  unfold BreatheLedAnimation.start, ChaseLedAnimation.start,
    RefillLedAnimation.start, RefillLedAnimation.cycle,
    BounceLedAnimation.start, BounceLedAnimation.cycle,
    BounceLedAnimation.flip_reverse,
    BlinkLedAnimation.start, BlinkLedAnimation.blinks,
    AlternatingLedAnimation.start, AlternatingLedAnimation.frame;
  repeat first
    [ apply fill_start_safe; safe_side
    | match goal with s : BreatheLedAnimation.locals |- _ => destruct s as [[? ?] ?] end
    | match goal with s : (_ * _ * _)%type |- _ => destruct s as [[? ?] ?] end
    | safe_step ].

(** X2. Whatever the pattern, its parameters, the timeout, the [stop()] calls
    and however far the run gets, every [set_led] call addresses an LED of the
    device: its index is below [num_leds]. *)
Theorem set_led_stays_in_range (d : AbstractLed.t) (t0 : Z) (sch : nat -> bool)
    (timeout : option Z) (one_shot : bool) (fuel : nat) :
  let ok := Forall (in_range (AbstractLed.num_leds d)) in
  (forall a, ok (trace (world_of
     (run (BreatheLedAnimation.start timeout one_shot fuel) a d t0 sch))))
  /\ (forall a, ok (trace (world_of
     (run (ChaseLedAnimation.start timeout one_shot fuel) a d t0 sch))))
  /\ (forall a, ok (trace (world_of
     (run (FillLedAnimation.start idL timeout one_shot) a d t0 sch))))
  /\ (forall a, ok (trace (world_of
     (run (RefillLedAnimation.start timeout one_shot fuel) a d t0 sch))))
  /\ (forall a, ok (trace (world_of
     (run (BounceLedAnimation.start timeout one_shot fuel) a d t0 sch))))
  /\ (forall a, ok (trace (world_of
     (run (BlinkLedAnimation.start timeout one_shot fuel) a d t0 sch))))
  /\ (forall a, ok (trace (world_of
     (run (AlternatingLedAnimation.start timeout one_shot fuel) a d t0 sch)))).
Proof.
  intros ok.
  assert (Hrun : forall I (i : I) (m : M I unit),
    safe (fun _ => True) (AbstractLed.num_leds d) (in_range (AbstractLed.num_leds d)) m ->
    ok (trace (world_of (run m i d t0 sch)))).
  { intros I i m Hm. destruct (Hm (init_world i d t0 sch) Logic.I eq_refl)
      as (_ & _ & tr & E & Hok). unfold run. by rewrite E. }
  repeat split; intros a; apply Hrun; safe_start.
Qed.

(** X3. No run of a pattern built by its constructor ever sets a [_delay]
    event, its own or that of the Fill object it owns, whatever the timeout,
    the [stop()] calls and however far the run gets: every wait of every run
    is a wait on an unset event. *)
Theorem delay_is_never_set (d : AbstractLed.t) (t0 : Z) (sch : nat -> bool)
    (timeout : option Z) (one_shot : bool) (fuel : nat) :
  (forall c,
     BreatheLedAnimation._delay (self (world_of
       (run (BreatheLedAnimation.start timeout one_shot fuel)
            (BreatheLedAnimation.init c) d t0 sch))) = false)
  /\ (forall fg bg,
     ChaseLedAnimation._delay (self (world_of
       (run (ChaseLedAnimation.start timeout one_shot fuel)
            (ChaseLedAnimation.init fg bg) d t0 sch))) = false)
  /\ (forall c reverse,
     FillLedAnimation._delay (self (world_of
       (run (FillLedAnimation.start idL timeout one_shot)
            (FillLedAnimation.init c reverse) d t0 sch))) = false)
  /\ (forall c reverse,
     let a := self (world_of
       (run (RefillLedAnimation.start timeout one_shot fuel)
            (RefillLedAnimation.init c reverse) d t0 sch)) in
     RefillLedAnimation._delay a = false
     /\ FillLedAnimation._delay (RefillLedAnimation.fill_animation a) = false)
  /\ (forall c reverse,
     let a := self (world_of
       (run (BounceLedAnimation.start timeout one_shot fuel)
            (BounceLedAnimation.init c reverse) d t0 sch)) in
     BounceLedAnimation._delay a = false
     /\ FillLedAnimation._delay (BounceLedAnimation.fill_animation a) = false)
  /\ (forall c num_blinks repeat,
     BlinkLedAnimation._delay (self (world_of
       (run (BlinkLedAnimation.start timeout one_shot fuel)
            (BlinkLedAnimation.init c num_blinks repeat) d t0 sch))) = false)
  /\ (forall c,
     AlternatingLedAnimation._delay (self (world_of
       (run (AlternatingLedAnimation.start timeout one_shot fuel)
            (AlternatingLedAnimation.init c) d t0 sch))) = false).
Proof.
  assert (Hrun : forall I (P : I -> Prop) (i : I) (m : M I unit),
    P i ->
    safe P (AbstractLed.num_leds d) (in_range (AbstractLed.num_leds d)) m ->
    P (self (world_of (run m i d t0 sch)))).
  { intros I P i m Hi Hm. by destruct (Hm (init_world i d t0 sch) Hi eq_refl). }
  split; [|split; [|split; [|split; [|split; [|split]]]]].
  - intros c. apply (Hrun _ (fun a => BreatheLedAnimation._delay a = false));
      [done | safe_start].
  - intros fg bg. apply (Hrun _ (fun a => ChaseLedAnimation._delay a = false));
      [done | safe_start].
  - intros c reverse. apply (Hrun _ (fun a => FillLedAnimation._delay a = false));
      [done | safe_start].
  - intros c reverse.
    apply (Hrun _ (fun a => RefillLedAnimation._delay a = false
       /\ FillLedAnimation._delay (RefillLedAnimation.fill_animation a) = false));
      [done | safe_start].
  - intros c reverse.
    apply (Hrun _ (fun a => BounceLedAnimation._delay a = false
       /\ FillLedAnimation._delay (BounceLedAnimation.fill_animation a) = false));
      [done | safe_start].
  - intros c num_blinks repeat.
    apply (Hrun _ (fun a => BlinkLedAnimation._delay a = false));
      [done | safe_start].
  - intros c. apply (Hrun _ (fun a => AlternatingLedAnimation._delay a = false));
      [done | safe_start].
Qed.

(** ** Starting again *)

Lemma bind_congr {I A B} (m : M I A) (f : A -> M I B) w1 w2 :
  m w1 = m w2 -> bind m f w1 = bind m f w2.
Proof. intros E. unfold bind. by rewrite E. Qed.

(** X4. [start] begins by clearing [stopping], so a [stop()] called before
    [start] is forgotten: on an instance that was stopped, [start] does, step
    for step, what it does on the instance as it was before the [stop()]. *)
Theorem start_forgets_earlier_stop (d : AbstractLed.t) (t0 : Z)
    (sch : nat -> bool) (timeout : option Z) (one_shot : bool) (fuel : nat) :
  (forall a : BreatheLedAnimation.t,
     run (BreatheLedAnimation.start timeout one_shot fuel) (stop a) d t0 sch
     = run (BreatheLedAnimation.start timeout one_shot fuel) a d t0 sch)
  /\ (forall a : ChaseLedAnimation.t,
     run (ChaseLedAnimation.start timeout one_shot fuel) (stop a) d t0 sch
     = run (ChaseLedAnimation.start timeout one_shot fuel) a d t0 sch)
  /\ (forall a : RefillLedAnimation.t,
     run (RefillLedAnimation.start timeout one_shot fuel) (stop a) d t0 sch
     = run (RefillLedAnimation.start timeout one_shot fuel) a d t0 sch)
  /\ (forall a : BounceLedAnimation.t,
     run (BounceLedAnimation.start timeout one_shot fuel) (stop a) d t0 sch
     = run (BounceLedAnimation.start timeout one_shot fuel) a d t0 sch)
  /\ (forall a : BlinkLedAnimation.t,
     run (BlinkLedAnimation.start timeout one_shot fuel) (stop a) d t0 sch
     = run (BlinkLedAnimation.start timeout one_shot fuel) a d t0 sch)
  /\ (forall a : AlternatingLedAnimation.t,
     run (AlternatingLedAnimation.start timeout one_shot fuel) (stop a) d t0 sch
     = run (AlternatingLedAnimation.start timeout one_shot fuel) a d t0 sch).
Proof.
  repeat split; intros a; unfold run.
  - apply bind_congr. destruct a.
    unfold Event_clear, bind, sched, modify_self, init_world; simpl.
    by destruct (sch 0).
  - apply bind_congr. destruct a.
    unfold Event_clear, bind, sched, modify_self, init_world; simpl.
    by destruct (sch 0).
  - apply bind_congr. destruct a.
    unfold Event_clear, bind, sched, modify_self, init_world; simpl.
    by destruct (sch 0).
  - apply bind_congr. destruct a.
    unfold Event_clear, bind, sched, modify_self, init_world; simpl.
    by destruct (sch 0).
  - apply bind_congr. destruct a.
    unfold Event_clear, bind, sched, modify_self, init_world; simpl.
    by destruct (sch 0).
  - unfold AlternatingLedAnimation.start.
    unfold bind at 1 2 5 6.
    destruct a.
    unfold leds_fill, Event_clear, bind, sched, modify_leds, modify_self, log,
      init_world; simpl.
    destruct (sch 0); simpl; by destruct (sch 1).
Qed.

(** ** The Fill object of a composite *)

Lemma while_emits_obs {I} `{LedAnimation I} {X St} (obs : I -> X) n x
    (stopping : Lens I Event) (body : St -> M I St) es :
  (forall i, obs (stop i) = obs i) ->
  (forall s, emits obs n x (body s) es x) ->
  forall fuel s w,
    obs (self w) = x -> AbstractLed.num_leds (leds w) = n ->
    obs (self (world_of (while_not_set stopping fuel s body w))) = x.
Proof.
  intros Hstop Hb. induction fuel as [|fuel IH]; intros s w Hx Hn; [done|].
  rewrite while_not_set_step.
  destruct (emits_sched obs n Hstop x w Hx Hn)
    as ([] & w1 & E1 & _ & _ & Hx1 & Hn1).
  rewrite E1. destruct (view stopping (self w1)); [done|].
  destruct (Hb s w1 Hx1 Hn1) as (s' & w2 & E2 & _ & _ & Hx2 & Hn2).
  unfold bind. rewrite E2. by apply IH.
Qed.

(** X5. Refill and Bounce assign the colour (Bounce also the direction) of
    the Fill object they own during a cycle and put them back at its end:
    whatever the timeout and the [stop()] calls, and however far the run gets,
    it leaves the Fill object as the constructor built it. *)
Theorem composite_restores_fill_object (d : AbstractLed.t) (t0 : Z)
    (sch : nat -> bool) (timeout : option Z) (one_shot : bool) (fuel : nat)
    (c : Color) (reverse : bool) :
  (let a := self (world_of
     (run (RefillLedAnimation.start timeout one_shot fuel)
          (RefillLedAnimation.init c reverse) d t0 sch)) in
   RefillLedAnimation.fill_color a = c
   /\ RefillLedAnimation.fill_animation a = FillLedAnimation.init c reverse)
  /\ (let a := self (world_of
     (run (BounceLedAnimation.start timeout one_shot fuel)
          (BounceLedAnimation.init c reverse) d t0 sch)) in
   BounceLedAnimation.fill_color a = c
   /\ BounceLedAnimation.fill_animation a = FillLedAnimation.init c reverse).
Proof.
  set (n := AbstractLed.num_leds d).
  set (x := (c, FillLedAnimation.init c reverse)).
  split.
  - assert (Hstop : forall i, refill_obs (stop i) = refill_obs i) by by intros [].
    assert (Hset : forall b i,
      refill_obs (update RefillLedAnimation.stoppingL b i) = refill_obs i)
      by by intros b [].
    cut (refill_obs (self (world_of
           (run (RefillLedAnimation.start timeout one_shot fuel)
                (RefillLedAnimation.init c reverse) d t0 sch))) = x).
    { intros E. by injection E. }
    unfold run, RefillLedAnimation.start.
    destruct (emits_Event_clear refill_obs n x _ Hstop Hset
                (init_world (RefillLedAnimation.init c reverse) d t0 sch)
                eq_refl eq_refl) as ([] & w1 & E1 & _ & _ & Hx1 & Hn1).
    rewrite (bind_returned _ _ _ _ _ E1).
    destruct (emits_end_time_of refill_obs n x timeout Hstop w1 Hx1 Hn1)
      as (end_time & w2 & E2 & _ & _ & Hx2 & Hn2).
    rewrite (bind_returned _ _ _ _ _ E2).
    apply (while_emits_obs refill_obs n x) with (es := refill_cycle_calls c reverse n);
      [done| |done|done].
    intros _. eapply emits_eq; [|eapply emits_bind;
      [apply refill_cycle_emits | intros _; by apply emits_stop_conditions]].
    by rewrite app_nil_r.
  - assert (Hstop : forall i, bounce_obs (stop i) = bounce_obs i) by by intros [].
    assert (Hset : forall b i,
      bounce_obs (update BounceLedAnimation.stoppingL b i) = bounce_obs i)
      by by intros b [].
    cut (bounce_obs (self (world_of
           (run (BounceLedAnimation.start timeout one_shot fuel)
                (BounceLedAnimation.init c reverse) d t0 sch))) = x).
    { intros E. by injection E. }
    unfold run, BounceLedAnimation.start.
    destruct (emits_Event_clear bounce_obs n x _ Hstop Hset
                (init_world (BounceLedAnimation.init c reverse) d t0 sch)
                eq_refl eq_refl) as ([] & w1 & E1 & _ & _ & Hx1 & Hn1).
    rewrite (bind_returned _ _ _ _ _ E1).
    destruct (emits_end_time_of bounce_obs n x timeout Hstop w1 Hx1 Hn1)
      as (end_time & w2 & E2 & _ & _ & Hx2 & Hn2).
    rewrite (bind_returned _ _ _ _ _ E2).
    apply (while_emits_obs bounce_obs n x) with (es := bounce_cycle_calls c reverse n);
      [done| |done|done].
    intros _. eapply emits_eq; [|eapply emits_bind;
      [apply bounce_cycle_emits | intros _; by apply emits_stop_conditions]].
    by rewrite app_nil_r.
Qed.

(** ** One cycle and no more *)

(** The operations at a point where no [stop()] lands. *)
Lemma Event_clear_quiet {I} `{LedAnimation I} (e : Lens I Event) a dv t tr p sch :
  sch p = false ->
  Event_clear e (mkWorld a dv t tr p sch)
  = Returned tt (mkWorld (update e false a) dv t tr (S p) sch).
Proof. intros E. unfold Event_clear, bind, sched, modify_self. simpl. by rewrite E. Qed.

Lemma leds_fill_quiet {I} `{LedAnimation I} c (a : I) dv t tr p sch :
  sch p = false ->
  leds_fill c (mkWorld a dv t tr p sch)
  = Returned tt (mkWorld a (AbstractLed.fill dv c) t (tr ++ [EFill c]) (S p) sch).
Proof.
  intros E. unfold leds_fill, bind, sched, modify_leds, log. simpl. by rewrite E.
Qed.

Lemma end_time_of_quiet {I} `{LedAnimation I} timeout (a : I) dv t tr p sch :
  sch p = false ->
  exists e p',
    end_time_of timeout (mkWorld a dv t tr p sch)
    = Returned e (mkWorld a dv t tr p' sch)
    /\ p <= p' <= S p.
Proof.
  intros E. destruct timeout as [z|]; simpl.
  - destruct (z =? 0)%Z.
    + exists None, p. split; [done|lia].
    + exists (Some (t + 1000 * z)%Z), (S p). split; [|lia].
      unfold bind, time, bind, sched, gets, ret. simpl. by rewrite E.
  - exists None, p. split; [done|lia].
Qed.

Lemma Event_wait_quiet {I} `{LedAnimation I} (e : Lens I Event) ms (a : I)
    dv t tr p sch :
  sch p = false ->
  exists t',
    Event_wait e ms (mkWorld a dv t tr p sch)
    = Returned tt (mkWorld a dv t' (tr ++ [EWait ms]) (S p) sch).
Proof.
  intros E. unfold Event_wait, bind, sched, gets, log, sleep, ret. simpl.
  rewrite E. simpl. destruct (view e a); by eexists.
Qed.

Lemma bind_gets {I A B} (g : World I -> A) (f : A -> M I B) w :
  bind (gets g) f w = f (g w) w.
Proof. reflexivity. Qed.

(** A loop whose pass makes the calls [es] and ends with the flag raised runs
    that pass once, when no [stop()] lands before its first check. *)
Lemma while_once {I} `{LedAnimation I} {X} (obs : I -> X) n x
    (stopping : Lens I Event) (body : unit -> M I unit) es :
  (forall i, obs (stop i) = obs i) ->
  (forall i, view stopping (stop i) = true) ->
  (forall w, obs (self w) = x -> AbstractLed.num_leds (leds w) = n ->
     exists w',
       body tt w = Returned tt w'
       /\ calls (trace w') = calls (trace w) ++ es
       /\ leds w' = replay es (leds w)
       /\ obs (self w') = x
       /\ view stopping (self w') = true) ->
  forall fuel w,
    obs (self w) = x -> AbstractLed.num_leds (leds w) = n ->
    view stopping (self w) = false -> stops w (pc w) = false ->
    exists w',
      while_not_set stopping (S (S fuel)) tt body w = Returned tt w'
      /\ calls (trace w') = calls (trace w) ++ es
      /\ leds w' = replay es (leds w)
      /\ obs (self w') = x.
Proof.
  intros Hstop Hflag Hb fuel w Hx Hn Hf Hq.
  rewrite while_not_set_step. unfold sched at 1. rewrite Hq. simpl.
  rewrite Hf.
  destruct (Hb (mkWorld (self w) (leds w) (now w) (trace w) (S (pc w)) (stops w))
              Hx Hn) as (w1 & E1 & Hc1 & Hl1 & Hx1 & Hf1).
  rewrite (bind_returned _ _ _ _ _ E1).
  unfold bind at 1. unfold Event_is_set, bind, sched, gets.
  destruct (stops w1 (pc w1)); simpl.
  - rewrite Hflag. eexists. split; [reflexivity|]. simpl.
    rewrite calls_app, Hc1, Hstop. simpl. by rewrite app_nil_r.
  - rewrite Hf1. eexists. split; [reflexivity|]. by simpl.
Qed.

(** Work that makes the calls [es], followed by raising the flag. *)
Lemma emits_then_set {I} `{LedAnimation I} {X} (obs : I -> X) n x
    (stopping : Lens I Event) (work : M I unit) es :
  (forall i, obs (stop i) = obs i) ->
  (forall b i, obs (update stopping b i) = obs i) ->
  (forall b i, view stopping (update stopping b i) = b) ->
  emits obs n x work es x ->
  forall w, obs (self w) = x -> AbstractLed.num_leds (leds w) = n ->
    exists w',
      bind work (fun _ => Event_set stopping) w = Returned tt w'
      /\ calls (trace w') = calls (trace w) ++ es
      /\ leds w' = replay es (leds w)
      /\ obs (self w') = x
      /\ view stopping (self w') = true.
Proof.
  intros Hstop Hset Hview Hw w Hx Hn.
  destruct (Hw w Hx Hn) as ([] & w1 & E1 & Hc1 & Hl1 & Hx1 & Hn1).
  rewrite (bind_returned _ _ _ _ _ E1).
  unfold Event_set, bind, sched, modify_self.
  destruct (stops w1 (pc w1)); eexists; (split; [reflexivity|]); simpl;
    rewrite ?calls_app, ?Hset, ?Hstop, ?Hview; simpl; rewrite ?app_nil_r; done.
Qed.

Lemma chase_sweep_emits n fg bg ms :
  emits chase_obs n (fg, bg, ms)
    (bind leds_num_leds (fun n =>
       for_ (seq 0 n) (fun led =>
         bind (gets (fun w => ChaseLedAnimation.foreground_color (self w))) (fun fg =>
           bind (leds_set_led led (as_rgb_tuple fg) true) (fun _ =>
             bind (gets (fun w => ChaseLedAnimation.step_delay (self w))) (fun d =>
               bind (Event_wait ChaseLedAnimation.delayL d) (fun _ =>
                 bind (gets (fun w => ChaseLedAnimation.background_color (self w)))
                   (fun bg => leds_set_led led (as_rgb_tuple bg) true))))))))
    (chase_sweep (as_rgb_tuple fg) (as_rgb_tuple bg) ms n) (fg, bg, ms).
Proof.
  assert (Hstop : forall i, chase_obs (stop i) = chase_obs i) by by intros [].
  apply emits_num_leds. unfold chase_sweep. apply emits_for. intros led.
  apply emits_read with (v := fg); [by intros w [= ? ? ?]|].
  apply emits_bind with (x1 := (fg, bg, ms)) (es1 := [_]) (es2 := [_; _]);
    [by apply emits_leds_set_led | intros _].
  apply emits_read with (v := ms); [by intros w [= ? ? ?]|].
  apply emits_bind with (x1 := (fg, bg, ms)) (es1 := [_]) (es2 := [_]);
    [by apply emits_Event_wait | intros _].
  apply emits_read with (v := bg); [by intros w [= ? ? ?]|].
  by apply emits_leds_set_led.
Qed.

(** X6. A one-shot Chase makes exactly one sweep over the LEDs, whatever
    their number and the timeout, also when [stop()] arrives during the
    sweep (no [stop()] landing before the first loop check): the background
    fill, for each LED in index order foreground, wait, background, then the
    black fill, which leaves every LED off. *)
Theorem chase_one_shot_one_sweep (a : ChaseLedAnimation.t) (d : AbstractLed.t)
    (t0 : Z) (sch : nat -> bool) (timeout : option Z) (fuel : nat) :
  (forall j, j <= 3 -> sch j = false) ->
  exists w',
    run (ChaseLedAnimation.start timeout true (S (S fuel))) a d t0 sch
    = Returned tt w'
    /\ calls (trace w')
       = [EFill (as_rgb_tuple (ChaseLedAnimation.background_color a))]
         ++ chase_sweep (as_rgb_tuple (ChaseLedAnimation.foreground_color a))
                        (as_rgb_tuple (ChaseLedAnimation.background_color a))
                        (ChaseLedAnimation.step_delay a) (AbstractLed.num_leds d)
         ++ [EFill (as_rgb_tuple BLACK)]
    /\ all_leds (as_rgb_tuple BLACK) (leds w').
Proof.
  intros Hq. set (n := AbstractLed.num_leds d).
  assert (Hstop : forall i, chase_obs (stop i) = chase_obs i) by by intros [].
  unfold run, ChaseLedAnimation.start, init_world.
  rewrite (bind_returned _ _ _ _ _ (Event_clear_quiet (I := ChaseLedAnimation.t) _ _ _ _ _ _ _ (Hq 0 ltac:(lia)))).
  destruct (end_time_of_quiet timeout
              (update ChaseLedAnimation.stoppingL false a) d t0 [] 1 sch
              (Hq 1 ltac:(lia))) as (e & p' & E & Hp').
  rewrite (bind_returned _ _ _ _ _ E), bind_gets.
  rewrite (bind_returned _ _ _ _ _
             (leds_fill_quiet (I := ChaseLedAnimation.t) _ _ _ _ _ _ _ (Hq p' ltac:(lia)))).
  edestruct (while_once chase_obs n (chase_obs a) ChaseLedAnimation.stoppingL)
    as (w2 & E2 & Hc2 & Hl2 & Hx2);
    [exact Hstop | by intros [] | | | | | | rewrite (bind_returned _ _ _ _ _ E2)].
  - apply emits_then_set; [exact Hstop | by intros b [] | by intros b [] |].
    apply chase_sweep_emits.
  - by destruct a.
  - simpl. unfold AbstractLed.num_leds. simpl. by rewrite length_replicate.
  - by destruct a.
  - simpl. apply Hq. lia.
  - destruct (emits_leds_fill chase_obs n Hstop (chase_obs a) (as_rgb_tuple BLACK) w2)
      as ([] & w3 & E3 & Hc3 & Hl3 & _); [done| |].
    { rewrite Hl2, replay_num_leds. simpl. unfold AbstractLed.num_leds. simpl.
      by rewrite length_replicate. }
    exists w3. split; [exact E3|]. split.
    + rewrite Hc3, Hc2. simpl. by destruct a.
    + by apply leds_fill_returns_filled in E3.
Qed.

Lemma chase_one_shot_one_sweep_witness :
  (forall j, j <= 3 -> stop_at 5 j = false)
  /\ exists w',
       run (ChaseLedAnimation.start (Some 60%Z) true 2)
           (ChaseLedAnimation.init red blue) (strip 3 blue) 0 (stop_at 5)
       = Returned tt w'
       /\ calls (trace w')
          = [EFill (as_rgb_tuple blue)]
            ++ chase_sweep (as_rgb_tuple red) (as_rgb_tuple blue) 100 3
            ++ [EFill (as_rgb_tuple BLACK)]
       /\ all_leds (as_rgb_tuple BLACK) (leds w').
Proof.
  assert (H : forall j, j <= 3 -> stop_at 5 j = false).
  { intros j Hj. unfold stop_at. apply Nat.eqb_neq. lia. }
  split; [exact H|].
  apply (chase_one_shot_one_sweep (ChaseLedAnimation.init red blue) (strip 3 blue)
           0 (stop_at 5) (Some 60%Z) 0 H).
Defined.

Lemma refill_cycle_ends_off c reverse d :
  all_leds (as_rgb_tuple BLACK)
    (replay (refill_cycle_calls c reverse (AbstractLed.num_leds d)) d).
Proof.
  unfold refill_cycle_calls. rewrite replay_app.
  pose proof (replay_fill_pass_all (as_rgb_tuple BLACK) 50 reverse
                (replay (fill_pass (as_rgb_tuple c) 50
                           (led_order reverse (AbstractLed.num_leds d))) d)) as Hp.
  by rewrite replay_num_leds in Hp.
Qed.

Lemma bounce_cycle_ends_off c reverse d :
  all_leds (as_rgb_tuple BLACK)
    (replay (bounce_cycle_calls c reverse (AbstractLed.num_leds d)) d).
Proof.
  unfold bounce_cycle_calls. rewrite replay_app.
  pose proof (replay_fill_pass_all (as_rgb_tuple BLACK) 50 (negb reverse)
                (replay (fill_pass (as_rgb_tuple c) 50
                           (led_order reverse (AbstractLed.num_leds d))) d)) as Hp.
  by rewrite replay_num_leds in Hp.
Qed.

(** X7. A one-shot Refill or Bounce makes exactly one cycle, whatever the
    number of LEDs and the timeout, also when [stop()] arrives during the
    cycle (no [stop()] landing before the first loop check): one Fill pass in
    the colour and one in black (for Bounce the other way round), each LED
    followed by a wait of 50 ms; every LED is off at the end. *)
Theorem composite_one_shot_one_cycle (c : Color) (reverse : bool)
    (d : AbstractLed.t) (t0 : Z) (sch : nat -> bool) (timeout : option Z)
    (fuel : nat) :
  (forall j, j <= 2 -> sch j = false) ->
  (exists w',
     run (RefillLedAnimation.start timeout true (S (S fuel)))
         (RefillLedAnimation.init c reverse) d t0 sch = Returned tt w'
     /\ calls (trace w') = refill_cycle_calls c reverse (AbstractLed.num_leds d)
     /\ all_leds (as_rgb_tuple BLACK) (leds w'))
  /\ (exists w',
     run (BounceLedAnimation.start timeout true (S (S fuel)))
         (BounceLedAnimation.init c reverse) d t0 sch = Returned tt w'
     /\ calls (trace w') = bounce_cycle_calls c reverse (AbstractLed.num_leds d)
     /\ all_leds (as_rgb_tuple BLACK) (leds w')).
Proof.
  intros Hq. set (n := AbstractLed.num_leds d). split.
  - assert (Hstop : forall i, refill_obs (stop i) = refill_obs i) by by intros [].
    unfold run, RefillLedAnimation.start, init_world.
    rewrite (bind_returned _ _ _ _ _
      (Event_clear_quiet (I := RefillLedAnimation.t) _ _ _ _ _ _ _ (Hq 0 ltac:(lia)))).
    destruct (end_time_of_quiet timeout
                (update RefillLedAnimation.stoppingL false
                   (RefillLedAnimation.init c reverse)) d t0 [] 1 sch
                (Hq 1 ltac:(lia))) as (e & p' & E & Hp').
    rewrite (bind_returned _ _ _ _ _ E).
    destruct (while_once refill_obs n (c, FillLedAnimation.init c reverse)
                RefillLedAnimation.stoppingL
                (fun _ => bind RefillLedAnimation.cycle
                            (fun _ => Event_set RefillLedAnimation.stoppingL))
                (refill_cycle_calls c reverse n) Hstop
                (fun i => match i with RefillLedAnimation.mk _ _ _ _ => eq_refl end)
                (emits_then_set refill_obs n _ RefillLedAnimation.stoppingL _ _ Hstop
                   (fun b i => match i with RefillLedAnimation.mk _ _ _ _ => eq_refl end)
                   (fun b i => match i with RefillLedAnimation.mk _ _ _ _ => eq_refl end)
                   (refill_cycle_emits n c reverse))
                fuel
                (mkWorld (update RefillLedAnimation.stoppingL false
                            (RefillLedAnimation.init c reverse)) d t0 [] p' sch)
                eq_refl eq_refl eq_refl (Hq p' ltac:(lia)))
      as (w2 & E2 & Hc2 & Hl2 & Hx2).
    exists w2. split; [exact E2|]. split; [exact Hc2|].
    rewrite Hl2. apply refill_cycle_ends_off.
  - assert (Hstop : forall i, bounce_obs (stop i) = bounce_obs i) by by intros [].
    unfold run, BounceLedAnimation.start, init_world.
    rewrite (bind_returned _ _ _ _ _
      (Event_clear_quiet (I := BounceLedAnimation.t) _ _ _ _ _ _ _ (Hq 0 ltac:(lia)))).
    destruct (end_time_of_quiet timeout
                (update BounceLedAnimation.stoppingL false
                   (BounceLedAnimation.init c reverse)) d t0 [] 1 sch
                (Hq 1 ltac:(lia))) as (e & p' & E & Hp').
    rewrite (bind_returned _ _ _ _ _ E).
    destruct (while_once bounce_obs n (c, FillLedAnimation.init c reverse)
                BounceLedAnimation.stoppingL
                (fun _ => bind BounceLedAnimation.cycle
                            (fun _ => Event_set BounceLedAnimation.stoppingL))
                (bounce_cycle_calls c reverse n) Hstop
                (fun i => match i with BounceLedAnimation.mk _ _ _ _ => eq_refl end)
                (emits_then_set bounce_obs n _ BounceLedAnimation.stoppingL _ _ Hstop
                   (fun b i => match i with BounceLedAnimation.mk _ _ _ _ => eq_refl end)
                   (fun b i => match i with BounceLedAnimation.mk _ _ _ _ => eq_refl end)
                   (bounce_cycle_emits n c reverse))
                fuel
                (mkWorld (update BounceLedAnimation.stoppingL false
                            (BounceLedAnimation.init c reverse)) d t0 [] p' sch)
                eq_refl eq_refl eq_refl (Hq p' ltac:(lia)))
      as (w2 & E2 & Hc2 & Hl2 & Hx2).
    exists w2. split; [exact E2|]. split; [exact Hc2|].
    rewrite Hl2. apply bounce_cycle_ends_off.
Qed.

Lemma composite_one_shot_one_cycle_witness :
  (forall j, j <= 2 -> stop_at 4 j = false)
  /\ (exists w',
        run (RefillLedAnimation.start (Some 1%Z) true 2)
            (RefillLedAnimation.init red true) (strip 3 blue) 0 (stop_at 4)
        = Returned tt w'
        /\ calls (trace w') = refill_cycle_calls red true 3
        /\ all_leds (as_rgb_tuple BLACK) (leds w'))
  /\ (exists w',
        run (BounceLedAnimation.start (Some 1%Z) true 2)
            (BounceLedAnimation.init red true) (strip 3 blue) 0 (stop_at 4)
        = Returned tt w'
        /\ calls (trace w') = bounce_cycle_calls red true 3
        /\ all_leds (as_rgb_tuple BLACK) (leds w')).
Proof.
  assert (H : forall j, j <= 2 -> stop_at 4 j = false).
  { intros j Hj. unfold stop_at. apply Nat.eqb_neq. lia. }
  split; [exact H|].
  apply (composite_one_shot_one_cycle red true (strip 3 blue) 0 (stop_at 4)
           (Some 1%Z) 0 H).
Defined.

Lemma Event_set_sets {I} `{LedAnimation I} (e : Lens I Event) w a w' :
  (forall b i, view e (update e b i) = b) ->
  Event_set e w = Returned a w' -> view e (self w') = true.
Proof.
  intros He. unfold Event_set, bind, sched, modify_self.
  destruct (stops w (pc w)); intros [= ? <-]; simpl; apply He.
Qed.

(** A raised flag stays raised through the timeout check of a pass. *)
Lemma blink_timeout_check_keeps_flag end_time w w' :
  BlinkLedAnimation.stopping (self w) = true ->
  bind (timed_out end_time) (fun b =>
    if b : bool then Event_set BlinkLedAnimation.stoppingL else ret tt) w
  = Returned tt w' ->
  BlinkLedAnimation.stopping (self w') = true.
Proof.
  intros Hf E.
  assert (Hs : safe (fun i => BlinkLedAnimation.stopping i = true)
                 (AbstractLed.num_leds (leds w))
                 (in_range (AbstractLed.num_leds (leds w)))
                 (bind (timed_out end_time) (fun b =>
                    if b : bool then Event_set BlinkLedAnimation.stoppingL
                    else ret tt))).
  { apply safe_bind; [by apply safe_timed_out | intros b].
    destruct b; [|by apply safe_ret].
    apply safe_bind; [by apply safe_sched | intros ?].
    by apply safe_modify_self. }
  destruct (Hs w Hf eq_refl) as (Hf' & _). by rewrite E in Hf'.
Qed.

Lemma blinks_keep_repeat w w' :
  BlinkLedAnimation.blinks w = Returned tt w' ->
  BlinkLedAnimation.repeat (self w') = BlinkLedAnimation.repeat (self w).
Proof.
  intros E.
  assert (Hs : safe (fun i => BlinkLedAnimation.repeat i
                               = BlinkLedAnimation.repeat (self w))
                 (AbstractLed.num_leds (leds w))
                 (in_range (AbstractLed.num_leds (leds w)))
                 BlinkLedAnimation.blinks).
  { safe_start. }
  destruct (Hs w eq_refl eq_refl) as (Hr & _). by rewrite E in Hr.
Qed.

(** A pass of the Blink loop that is one-shot or does not repeat: one burst,
    and the flag raised at its end. *)
Lemma blink_pass_once n c nb (repeat one_shot : bool) end_time :
  one_shot = true \/ repeat = false ->
  forall w, blink_obs (self w) = (c, nb, repeat) ->
    AbstractLed.num_leds (leds w) = n ->
    exists w',
      bind BlinkLedAnimation.blinks (fun _ =>
        bind (gets (fun w => BlinkLedAnimation.repeat (self w))) (fun r =>
          bind (if one_shot then Event_set BlinkLedAnimation.stoppingL
                else if r : bool then Event_wait BlinkLedAnimation.delayL 2000
                else Event_set BlinkLedAnimation.stoppingL) (fun _ =>
            bind (timed_out end_time) (fun b =>
              if b : bool then Event_set BlinkLedAnimation.stoppingL
              else ret tt)))) w
      = Returned tt w'
      /\ calls (trace w')
         = calls (trace w) ++ blink_burst (as_rgb_tuple c) (Z.to_nat nb)
      /\ leds w' = replay (blink_burst (as_rgb_tuple c) (Z.to_nat nb)) (leds w)
      /\ blink_obs (self w') = (c, nb, repeat)
      /\ view BlinkLedAnimation.stoppingL (self w') = true.
Proof.
  intros Hos w Hx Hn.
  destruct (blink_pass_emits n c nb repeat one_shot end_time w Hx Hn)
    as ([] & w' & E & Hc & Hl & Hx' & Hn').
  assert (Hcalls : blink_pass_calls c nb repeat one_shot
                   = blink_burst (as_rgb_tuple c) (Z.to_nat nb)).
  { unfold blink_pass_calls.
    destruct Hos as [-> | ->]; [|destruct one_shot]; by rewrite app_nil_r. }
  rewrite Hcalls in Hc, Hl.
  exists w'. split; [exact E|]. split; [exact Hc|]. split; [exact Hl|].
  split; [exact Hx'|].
  apply bind_returned_inv in E as ([] & w1 & E1 & E).
  rewrite bind_gets in E.
  apply bind_returned_inv in E as ([] & w2 & E2 & E3).
  apply (blink_timeout_check_keeps_flag end_time w2 w'); [|exact E3].
  assert (Hset : forall b i,
    view BlinkLedAnimation.stoppingL (update BlinkLedAnimation.stoppingL b i) = b)
    by by intros b [].
  destruct one_shot;
    [exact (Event_set_sets BlinkLedAnimation.stoppingL _ _ _ Hset E2)|].
  destruct Hos as [? | ->]; [done|].
  rewrite (blinks_keep_repeat _ _ E1) in E2.
  injection Hx as _ _ Hr. rewrite Hr in E2.
  exact (Event_set_sets BlinkLedAnimation.stoppingL _ _ _ Hset E2).
Qed.

(** X8. A Blink that is one-shot, or whose [repeat] is off, makes one burst
    and returns, whatever the timeout and also when [stop()] arrives during
    the burst (no [stop()] landing before the first loop check): black and
    500 ms, then [num_blinks] times colour, 250 ms, black, 500 ms; every LED
    is off at the end.  With [num_blinks] zero or negative the burst is
    empty: the LEDs never show the colour. *)
Theorem blink_single_burst (a : BlinkLedAnimation.t) (d : AbstractLed.t)
    (t0 : Z) (sch : nat -> bool) (timeout : option Z) (one_shot : bool)
    (fuel : nat) :
  one_shot = true \/ BlinkLedAnimation.repeat a = false ->
  (forall j, j <= 4 -> sch j = false) ->
  exists w',
    run (BlinkLedAnimation.start timeout one_shot (S (S fuel))) a d t0 sch
    = Returned tt w'
    /\ calls (trace w')
       = [EFill (as_rgb_tuple BLACK); EWait 500]
         ++ blink_burst (as_rgb_tuple (BlinkLedAnimation.color a))
                        (Z.to_nat (BlinkLedAnimation.num_blinks a))
    /\ all_leds (as_rgb_tuple BLACK) (leds w')
    /\ ((BlinkLedAnimation.num_blinks a <= 0)%Z ->
        calls (trace w') = [EFill (as_rgb_tuple BLACK); EWait 500]).
Proof.
  intros Hos Hq. set (n := AbstractLed.num_leds d).
  assert (Hstop : forall i, blink_obs (stop i) = blink_obs i) by by intros [].
  pose proof (eq_refl : run (BlinkLedAnimation.start timeout one_shot (S (S fuel)))
                            a d t0 sch = _) as Erun.
  unfold run at 2, BlinkLedAnimation.start, init_world in Erun.
  rewrite (bind_returned _ _ _ _ _
    (Event_clear_quiet (I := BlinkLedAnimation.t) _ _ _ _ _ _ _ (Hq 0 ltac:(lia))))
    in Erun.
  destruct (end_time_of_quiet timeout
              (update BlinkLedAnimation.stoppingL false a) d t0 [] 1 sch
              (Hq 1 ltac:(lia))) as (e & p' & E & Hp').
  rewrite (bind_returned _ _ _ _ _ E) in Erun.
  rewrite (bind_returned _ _ _ _ _
    (leds_fill_quiet (I := BlinkLedAnimation.t) _ _ _ _ _ _ _ (Hq p' ltac:(lia))))
    in Erun.
  destruct (Event_wait_quiet BlinkLedAnimation.delayL 500
              (update BlinkLedAnimation.stoppingL false a)
              (AbstractLed.fill d (as_rgb_tuple BLACK)) t0
              ([] ++ [EFill (as_rgb_tuple BLACK)]) (S p') sch
              (Hq (S p') ltac:(lia))) as (t' & Ew).
  rewrite (bind_returned _ _ _ _ _ Ew) in Erun.
  destruct (while_once blink_obs n (blink_obs a) BlinkLedAnimation.stoppingL
              (fun _ =>
                 bind BlinkLedAnimation.blinks (fun _ =>
                   bind (gets (fun w => BlinkLedAnimation.repeat (self w))) (fun r =>
                     bind (if one_shot then Event_set BlinkLedAnimation.stoppingL
                           else if r : bool
                                then Event_wait BlinkLedAnimation.delayL 2000
                                else Event_set BlinkLedAnimation.stoppingL) (fun _ =>
                       bind (timed_out e) (fun b =>
                         if b : bool then Event_set BlinkLedAnimation.stoppingL
                         else ret tt)))))
              (blink_burst (as_rgb_tuple (BlinkLedAnimation.color a))
                           (Z.to_nat (BlinkLedAnimation.num_blinks a)))
              Hstop
              (fun i => eq_refl)
              (blink_pass_once n (BlinkLedAnimation.color a)
                 (BlinkLedAnimation.num_blinks a) (BlinkLedAnimation.repeat a)
                 one_shot e Hos)
              fuel
              (mkWorld (update BlinkLedAnimation.stoppingL false a)
                 (AbstractLed.fill d (as_rgb_tuple BLACK)) t'
                 (([] ++ [EFill (as_rgb_tuple BLACK)]) ++ [EWait 500])
                 (S (S p')) sch)
              eq_refl (num_leds_fill d _) eq_refl (Hq (S (S p')) ltac:(lia)))
    as (w2 & E2 & Hc2 & Hl2 & Hx2).
  rewrite E2 in Erun.
  exists w2. split; [exact Erun|]. split; [exact Hc2|].
  split; [by apply (blink_returns_off _ _ _ _ _ _ _ _ Erun)|].
  intros Hnb. rewrite Hc2. simpl.
  by replace (Z.to_nat (BlinkLedAnimation.num_blinks a)) with 0 by lia.
Qed.

Lemma blink_single_burst_witness :
  (false = true \/ BlinkLedAnimation.repeat (BlinkLedAnimation.init red 2 false) = false)
  /\ (forall j, j <= 4 -> stop_at 6 j = false)
  /\ exists w',
       run (BlinkLedAnimation.start None false 2)
           (BlinkLedAnimation.init red 2 false) (strip 3 blue) 0 (stop_at 6)
       = Returned tt w'
       /\ calls (trace w')
          = [EFill (as_rgb_tuple BLACK); EWait 500]
            ++ blink_burst (as_rgb_tuple red) 2
       /\ all_leds (as_rgb_tuple BLACK) (leds w')
       /\ ((2 <= 0)%Z ->
           calls (trace w') = [EFill (as_rgb_tuple BLACK); EWait 500]).
Proof.
  assert (H : forall j, j <= 4 -> stop_at 6 j = false).
  { intros j Hj. unfold stop_at. apply Nat.eqb_neq. lia. }
  split; [by right|]. split; [exact H|].
  apply (blink_single_burst (BlinkLedAnimation.init red 2 false) (strip 3 blue)
           0 (stop_at 6) None false 0 (or_intror eq_refl) H).
Defined.

(** ** What an Alternating frame displays *)

(** Unflushed writes change the pixel buffer and leave the display alone. *)
Lemma replay_unflushed_writes (f : nat -> rgb) l d :
  AbstractLed.shown
    (replay (map (fun led => ESetLed led (f led) false) l) d)
  = AbstractLed.shown d
  /\ forall led, led < AbstractLed.num_leds d ->
       AbstractLed.pixels
         (replay (map (fun led => ESetLed led (f led) false) l) d) !! led
       = if bool_decide (led ∈ l) then Some (f led)
         else AbstractLed.pixels d !! led.
Proof.
  revert d. induction l as [|a l IH]; intros d; simpl.
  { split; [done|]. by intros led _. }
  destruct (IH (AbstractLed.set_led d a (f a) false)) as [Es Ep].
  split; [by rewrite Es|]. intros led Hled.
  rewrite Ep by (unfold AbstractLed.num_leds in *; simpl; by rewrite length_insert).
  simpl. destruct (decide (led ∈ l)) as [Hin|Hnot].
  { rewrite !bool_decide_eq_true_2; [done | by apply elem_of_cons; right | done]. }
  rewrite (bool_decide_eq_false_2 _ Hnot).
  destruct (decide (led = a)) as [->|Hne].
  - rewrite bool_decide_eq_true_2 by (apply elem_of_cons; by left).
    by apply list_lookup_insert_eq.
  - rewrite bool_decide_eq_false_2
      by (intros [?|?]%elem_of_cons; [by apply Hne | by apply Hnot]).
    by apply list_lookup_insert_ne.
Qed.

(** X9. Whatever [stop()] calls arrive, an Alternating frame returns, and
    when it has, the strip displays the pattern: every LED lit in this phase
    shows the colour and every other LED shows black.  Nothing of the frame
    reaches the display before its [show()]: the writes of the [for] loop
    change the pixel buffer only. *)
Theorem alternating_frame_displays_pattern (w : World AlternatingLedAnimation.t)
    (evens : bool) :
  exists w',
    AlternatingLedAnimation.frame evens w = Returned tt w'
    /\ AbstractLed.num_leds (leds w') = AbstractLed.num_leds (leds w)
    /\ (forall led, led < AbstractLed.num_leds (leds w) ->
          AbstractLed.shown (leds w') !! led
          = Some (if lit evens led
                  then as_rgb_tuple (AlternatingLedAnimation.color (self w))
                  else as_rgb_tuple BLACK))
    /\ AbstractLed.shown
         (replay (map (fun led =>
                         ESetLed led
                           (if lit evens led
                            then as_rgb_tuple (AlternatingLedAnimation.color (self w))
                            else as_rgb_tuple BLACK) false)
                      (seq 0 (AbstractLed.num_leds (leds w))))
                 (leds w))
       = AbstractLed.shown (leds w).
Proof.
  set (c := AlternatingLedAnimation.color (self w)).
  set (n := AbstractLed.num_leds (leds w)).
  set (f := fun led => if lit evens led then as_rgb_tuple c else as_rgb_tuple BLACK).
  destruct (alternating_frame_emits n c evens w eq_refl eq_refl)
    as ([] & w' & E & _ & Hl & _ & Hn).
  destruct (replay_unflushed_writes f (seq 0 n) (leds w)) as [Es Ep].
  exists w'. split; [exact E|]. split; [exact Hn|]. split; [|exact Es].
  intros led Hled. rewrite Hl. unfold frame_calls. rewrite replay_app. simpl.
  change (AbstractLed.pixels
            (replay (map (fun led => ESetLed led (f led) false) (seq 0 n)) (leds w))
          !! led = Some (f led)).
  rewrite (Ep led Hled).
  rewrite bool_decide_eq_true_2; [done|]. apply elem_of_seq. lia.
Qed.

(** ** Runs nobody stops *)

Lemma deadline_passed_mono end_time t t' :
  deadline_passed end_time t -> (t <= t')%Z -> deadline_passed end_time t'.
Proof. destruct end_time; simpl; [|done]. intros [? ?] ?. split; [done|lia]. Qed.

Lemma sched_no_stop {I} `{LedAnimation I} (w : World I) :
  stops w = no_stop ->
  sched w = Returned tt (mkWorld (self w) (leds w) (now w) (trace w) (S (pc w))
                                 (stops w)).
Proof. intros Hs. unfold sched. by rewrite Hs. Qed.

Section Calm.
Context {I : Type} `{LedAnimation I}.
Implicit Types P : I -> Z -> Prop.

Lemma calm_conseq {A} (P P' : I -> Z -> Prop) (m : M I A)
    (Q Q' : A -> I -> Z -> Prop) :
  (forall i t, P' i t -> P i t) -> (forall a i t, Q a i t -> Q' a i t) ->
  calm P m Q -> calm P' m Q'.
Proof.
  intros HP HQ Hm w Hs Hw a w' E.
  destruct (Hm w Hs (HP _ _ Hw) a w' E) as [? ?]. split; [done|by apply HQ].
Qed.

Lemma calm_pure {A} (phi : Prop) P (m : M I A) Q :
  (phi -> calm P m Q) -> calm (fun i t => phi /\ P i t) m Q.
Proof. intros Hm w Hs [Hphi Hw]. by apply Hm. Qed.

Lemma calm_skip {A} P (a : A) : calm P (ret a) (fun _ => P).
Proof. intros w Hs Hw b w' [= ? ?]. by subst. Qed.

Lemma calm_bind {A B} P Q R (m : M I A) (f : A -> M I B) :
  calm P m Q -> (forall a, calm (Q a) (f a) R) -> calm P (bind m f) R.
Proof.
  intros Hm Hf w Hs Hw b w' E.
  apply bind_returned_inv in E as (a & w1 & E1 & E2).
  destruct (Hm w Hs Hw a w1 E1) as [Hs1 Hq]. exact (Hf a w1 Hs1 Hq b w' E2).
Qed.

Lemma calm_if {A} P Q (c : bool) (m1 m2 : M I A) :
  calm P m1 Q -> calm P m2 Q -> calm P (if c then m1 else m2) Q.
Proof. by destruct c. Qed.

Lemma calm_sched P : calm P sched (fun _ => P).
Proof.
  intros w Hs Hw a w' E. rewrite (sched_no_stop w Hs) in E.
  injection E as _ <-. done.
Qed.

Lemma calm_gets {A} (g : World I -> A) P : calm P (gets g) (fun _ => P).
Proof. intros w Hs Hw a w' [= ? ?]. by subst. Qed.

Lemma calm_modify_self (f : I -> I) (P P' : I -> Z -> Prop) :
  (forall i t, P i t -> P' (f i) t) -> calm P (modify_self f) (fun _ => P').
Proof. intros Hf w Hs Hw a w' [= ? <-]. simpl. split; [done|by apply Hf]. Qed.

Lemma calm_modify_leds (f : AbstractLed.t -> AbstractLed.t) P :
  calm P (modify_leds f) (fun _ => P).
Proof. intros w Hs Hw a w' [= ? <-]. done. Qed.

Lemma calm_log e P : calm P (log e) (fun _ => P).
Proof. intros w Hs Hw a w' [= ? <-]. done. Qed.

Lemma calm_sleep ms (P P' : I -> Z -> Prop) :
  (forall i t, P i t -> P' i (t + ms)%Z) -> calm P (sleep ms) (fun _ => P').
Proof. intros Hf w Hs Hw a w' [= ? <-]. simpl. split; [done|by apply Hf]. Qed.

Lemma calm_step {A B} P (m : M I A) (f : A -> M I B) Q :
  calm P m (fun _ => P) -> (forall a, calm P (f a) Q) -> calm P (bind m f) Q.
Proof. intros Hm Hf. by apply calm_bind with (Q := fun _ => P). Qed.

Lemma calm_for {Y} P (l : list Y) (body : Y -> M I unit) :
  (forall x, calm P (body x) (fun _ => P)) -> calm P (for_ l body) (fun _ => P).
Proof.
  intros Hb. induction l as [|x l IH]; simpl; [apply calm_skip|].
  apply calm_step; [apply Hb | intros _; apply IH].
Qed.

Lemma calm_Event_set (e : Lens I Event) (P P' : I -> Z -> Prop) :
  (forall i t, P i t -> P' (update e true i) t) ->
  calm P (Event_set e) (fun _ => P').
Proof.
  intros He. unfold Event_set.
  apply calm_step; [apply calm_sched | intros _]. by apply calm_modify_self.
Qed.

Lemma calm_Event_clear (e : Lens I Event) (P P' : I -> Z -> Prop) :
  (forall i t, P i t -> P' (update e false i) t) ->
  calm P (Event_clear e) (fun _ => P').
Proof.
  intros He. unfold Event_clear.
  apply calm_step; [apply calm_sched | intros _]. by apply calm_modify_self.
Qed.

Lemma calm_Event_wait (e : Lens I Event) ms (P : I -> Z -> Prop) :
  (forall i t t', P i t -> (t <= t')%Z -> P i t') ->
  calm P (Event_wait e ms) (fun _ => P).
Proof.
  intros Hmono. unfold Event_wait.
  apply calm_step; [apply calm_sched | intros _].
  apply calm_step; [apply calm_gets | intros flag].
  apply calm_step; [apply calm_log | intros _].
  destruct flag; [apply calm_skip|].
  apply calm_sleep. intros i t Hp. apply (Hmono i t); [done|lia].
Qed.

Lemma calm_LOG_warning msg P : calm P (LOG_warning msg) (fun _ => P).
Proof.
  unfold LOG_warning. apply calm_step; [apply calm_sched | intros _; apply calm_log].
Qed.

Lemma calm_leds_fill c P : calm P (leds_fill c) (fun _ => P).
Proof.
  unfold leds_fill. apply calm_step; [apply calm_sched | intros _].
  apply calm_step; [apply calm_modify_leds | intros _; apply calm_log].
Qed.

Lemma calm_leds_set_led led c im P : calm P (leds_set_led led c im) (fun _ => P).
Proof.
  unfold leds_set_led. apply calm_step; [apply calm_sched | intros _].
  apply calm_step; [apply calm_modify_leds | intros _; apply calm_log].
Qed.

Lemma calm_leds_show P : calm P leds_show (fun _ => P).
Proof.
  unfold leds_show. apply calm_step; [apply calm_sched | intros _].
  apply calm_step; [apply calm_modify_leds | intros _; apply calm_log].
Qed.

(** [end_time = time() + timeout if timeout else None], read at [t0]. *)
Lemma calm_end_time_of timeout t0 (P : I -> Prop) :
  calm (fun i t => t = t0 /\ P i) (end_time_of timeout)
       (fun e i t => e = deadline timeout t0 /\ P i).
Proof.
  intros w Hs [Ht Hp] e w' E. unfold end_time_of, deadline in *.
  destruct timeout as [z|]; [|injection E as <- <-; done].
  destruct (z =? 0)%Z; [injection E as <- <-; done|].
  unfold bind, time, bind in E. rewrite (sched_no_stop w Hs) in E.
  injection E as <- <-. simpl. by rewrite Ht.
Qed.

(** The timeout check at the end of a pass raises the flag only once the
    deadline has passed. *)
Lemma calm_timeout_check (stopping : Lens I Event) end_time (K : I -> Prop) :
  (forall i, K i -> K (update stopping true i)) ->
  calm (fun i t => K i /\ ends_late stopping end_time i t)
       (bind (timed_out end_time) (fun b =>
          if b : bool then Event_set stopping else ret tt))
       (fun _ i t => K i /\ ends_late stopping end_time i t).
Proof.
  intros HK.
  apply calm_bind
    with (Q := fun b i t => (b = true -> deadline_passed end_time t)
                            /\ K i /\ ends_late stopping end_time i t).
  - intros w Hs Hw b w' E. unfold timed_out in E.
    destruct end_time as [e|]; [|injection E as <- <-; done].
    destruct (e =? 0)%Z eqn:He; [injection E as <- <-; done|].
    unfold bind, time, bind in E. rewrite (sched_no_stop w Hs) in E.
    injection E as <- <-. simpl. split; [done|]. split; [|done].
    intros Hlt. split; [by apply Z.eqb_neq | by apply Z.ltb_lt].
  - intros [].
    + apply calm_Event_set. intros i t (Hd & Hk & _). split; [by apply HK|].
      intros _. by apply Hd.
    + intros w Hs (_ & ? & ?) a w' [= ? ?]. by subst.
Qed.

Lemma calm_timeout_check_then {B} (stopping : Lens I Event) end_time
    (K : I -> Prop) (k : unit -> M I B) Q :
  (forall i, K i -> K (update stopping true i)) ->
  (forall u, calm (fun i t => K i /\ ends_late stopping end_time i t) (k u) Q) ->
  calm (fun i t => K i /\ ends_late stopping end_time i t)
       (bind (timed_out end_time) (fun b =>
          bind (if b : bool then Event_set stopping else ret tt) k))
       Q.
Proof.
  intros HK Hk w Hs Hw a w' E.
  assert (E' : bind (bind (timed_out end_time) (fun b =>
                       if b : bool then Event_set stopping else ret tt)) k w
               = Returned a w').
  { rewrite <- E. unfold bind. by destruct (timed_out end_time w). }
  exact (calm_bind _ _ _ _ _ (calm_timeout_check stopping end_time K HK) Hk
           w Hs Hw a w' E').
Qed.

Lemma calm_ret_state {A} P (Qs : A -> Prop) (a : A) :
  Qs a -> calm P (ret a) (fun s' i t => Qs s' /\ P i t).
Proof. intros Hq w Hs Hw b w' [= ? ?]. by subst. Qed.

(** The loop: the body keeps the invariant [J] and the condition [Qs] on the
    local variables; when the loop ends, the flag is up. *)
Lemma calm_while {St} (stopping : Lens I Event) (J : I -> Z -> Prop)
    (Qs : St -> Prop) (body : St -> M I St) :
  (forall s, Qs s -> calm J (body s) (fun s' i t => Qs s' /\ J i t)) ->
  forall fuel s, Qs s ->
    calm J (while_not_set stopping fuel s body)
         (fun _ i t => J i t /\ view stopping i = true).
Proof.
  intros Hb. induction fuel as [|fuel IH]; intros s Hq w Hs Hw a w' E; [done|].
  rewrite while_not_set_step, (sched_no_stop w Hs) in E. cbn [self] in E.
  destruct (view stopping (self w)) eqn:Hf.
  { injection E as <- <-. done. }
  apply bind_returned_inv in E as (s' & w1 & E1 & E2).
  destruct (Hb s Hq (mkWorld (self w) (leds w) (now w) (trace w) (S (pc w))
                             (stops w)) Hs Hw s' w1 E1) as (Hs1 & Hq1 & Hw1).
  exact (IH s' Hq1 w1 Hs1 Hw1 a w' E2).
Qed.

Lemma calm_fill_start (this : Lens I FillLedAnimation.t) timeout one_shot
    (P : I -> Z -> Prop) :
  (forall i t t', P i t -> (t <= t')%Z -> P i t') ->
  calm P (FillLedAnimation.start this timeout one_shot) (fun _ => P).
Proof.
  intros Hmono. unfold FillLedAnimation.start.
  apply calm_step; [|intros _].
  { apply calm_if; [apply calm_LOG_warning | apply calm_skip]. }
  apply calm_step; [apply calm_gets | intros n].
  apply calm_step; [apply calm_gets | intros r].
  apply calm_for. intros led.
  apply calm_step; [apply calm_gets | intros c].
  apply calm_step; [apply calm_leds_set_led | intros _].
  apply calm_step; [apply calm_gets | intros d].
  by apply calm_Event_wait.
Qed.

End Calm.

(** A loop body without local variables. *)
Lemma calm_unit_body {I} (P : I -> Z -> Prop) (m : M I unit) :
  calm P m (fun _ => P) -> calm P m (fun _ i t => True /\ P i t).
Proof. apply calm_conseq; [done | by intros [] ? ?]. Qed.

Lemma ends_late_mono {I} (K : I -> Prop) (stopping : Lens I Event) e i t t' :
  K i /\ ends_late stopping e i t -> (t <= t')%Z ->
  K i /\ ends_late stopping e i t'.
Proof.
  intros [Hk Hl] Ht. split; [done|]. intros Hf.
  eapply deadline_passed_mono; [by apply Hl | done].
Qed.

(** The opening of [start]: the flag reset and the deadline computed. *)
Lemma calm_prologue {I} `{LedAnimation I} {B} (stopping : Lens I Event)
    timeout t0 (K : I -> Prop) (f : option Z -> M I B) Q :
  (forall i, view stopping (update stopping false i) = false) ->
  (forall i, K i -> K (update stopping false i)) ->
  calm (fun i t => K i /\ ends_late stopping (deadline timeout t0) i t)
       (f (deadline timeout t0)) Q ->
  calm (fun i t => t = t0 /\ K i)
       (bind (Event_clear stopping) (fun _ => bind (end_time_of timeout) f)) Q.
Proof.
  intros Hview HK Hf.
  apply calm_bind
    with (Q := fun _ i t => t = t0 /\ (K i /\ view stopping i = false)).
  { apply calm_Event_clear. intros i t [-> Hk]. by auto. }
  intros _.
  apply calm_bind
    with (Q := fun e i (t : Z) => e = deadline timeout t0
                                  /\ (K i /\ view stopping i = false)).
  { apply (calm_end_time_of timeout t0
             (fun i => K i /\ view stopping i = false)). }
  intros e. apply calm_pure. intros ->.
  eapply calm_conseq; [| |exact Hf]; [|done].
  intros i t [Hk Hf0]. split; [done|]. intros Hf1. congruence.
Qed.

(** The loop of [start], and what follows it. *)
Lemma calm_loop {I} `{LedAnimation I} {St} (stopping : Lens I Event) e
    (K : I -> Prop) (Qs : St -> Prop) (body : St -> M I St) fuel s :
  (forall s, Qs s ->
     calm (fun i t => K i /\ ends_late stopping e i t) (body s)
          (fun s' i t => Qs s' /\ K i /\ ends_late stopping e i t)) ->
  Qs s ->
  calm (fun i t => K i /\ ends_late stopping e i t)
       (while_not_set stopping fuel s body)
       (fun _ _ t => deadline_passed e t).
Proof.
  intros Hb Hq.
  eapply calm_conseq; [| |by apply (calm_while stopping _ Qs body Hb fuel s)];
    [done|].
  intros _ i t [[_ Hl] Hf]. by apply Hl.
Qed.

Lemma calm_loop_then {I} `{LedAnimation I} {St} (stopping : Lens I Event) e
    (K : I -> Prop) (Qs : St -> Prop) (body : St -> M I St) fuel s c :
  (forall s, Qs s ->
     calm (fun i t => K i /\ ends_late stopping e i t) (body s)
          (fun s' i t => Qs s' /\ K i /\ ends_late stopping e i t)) ->
  Qs s ->
  calm (fun i t => K i /\ ends_late stopping e i t)
       (bind (while_not_set stopping fuel s body) (fun _ => leds_fill c))
       (fun _ _ t => deadline_passed e t).
Proof.
  intros Hb Hq.
  apply calm_bind with (Q := fun _ _ t => deadline_passed e t);
    [by apply (calm_loop stopping e K Qs) | intros _].
  apply (calm_leds_fill c (fun _ t => deadline_passed e t)).
Qed.

(** Decomposes a goal along the program text, for steps that keep the
    invariant. *)
Ltac calm_side :=
  first [ by apply ends_late_mono
        | by intros [] ? [? ?]
        | done ].

Ltac calm_keep :=
  lazymatch goal with
  | |- calm _ (bind leds_num_leds _) _ =>
      apply calm_step; [apply calm_gets | intros ?]
  | |- calm _ (bind (gets _) _) _ =>
      apply calm_step; [apply calm_gets | intros ?]
  | |- calm _ (bind (leds_fill _) _) _ =>
      apply calm_step; [apply calm_leds_fill | intros ?]
  | |- calm _ (bind (leds_set_led _ _ _) _) _ =>
      apply calm_step; [apply calm_leds_set_led | intros ?]
  | |- calm _ (bind leds_show _) _ =>
      apply calm_step; [apply calm_leds_show | intros ?]
  | |- calm _ (bind (Event_wait _ _) _) _ =>
      apply calm_step; [apply calm_Event_wait; calm_side | intros ?]
  | |- calm _ (bind (for_ _ _) _) _ =>
      apply calm_step; [apply calm_for; intros ? | intros ?]
  | |- calm _ (bind (FillLedAnimation.start _ _ _) _) _ =>
      apply calm_step; [apply calm_fill_start; calm_side | intros ?]
  | |- calm _ (bind (modify_self _) _) _ =>
      apply calm_step; [apply calm_modify_self; calm_side | intros ?]
  | |- calm _ (bind (timed_out _) _) _ =>
      first [ apply calm_timeout_check; calm_side
            | apply calm_timeout_check_then; [calm_side | intros ?] ]
  | |- calm _ (bind (bind _ _) _) _ =>
      apply calm_step; [ | intros ?]
  | |- calm _ (if _ then _ else _) _ => apply calm_if
  | |- calm _ (for_ _ _) _ => apply calm_for; intros ?
  | |- calm _ (leds_set_led _ _ _) _ => apply calm_leds_set_led
  | |- calm _ (leds_fill _) _ => apply calm_leds_fill
  | |- calm _ leds_show _ => apply calm_leds_show
  | |- calm _ (Event_wait _ _) _ => apply calm_Event_wait; calm_side
  | |- calm _ (modify_self _) _ => apply calm_modify_self; calm_side
  | |- calm _ (FillLedAnimation.start _ _ _) _ =>
      apply calm_fill_start; calm_side
  end.

(** With a timeout and without [one_shot], a run nobody stops returns only
    once its deadline has passed. *)
Lemma chase_ends_late timeout fuel t0 :
  calm (fun _ t => t = t0 /\ True)
       (ChaseLedAnimation.start timeout false fuel)
       (fun _ _ t => deadline_passed (deadline timeout t0) t).
Proof.
  unfold ChaseLedAnimation.start.
  apply (calm_prologue ChaseLedAnimation.stoppingL timeout t0 (fun _ => True));
    [by intros [] | done |].
  repeat calm_keep.
  apply (calm_loop_then ChaseLedAnimation.stoppingL _ (fun _ => True)
           (fun _ => True)); [|done].
  intros [] _. apply calm_unit_body. repeat calm_keep.
Qed.

Lemma breathe_ends_late timeout fuel t0 :
  calm (fun _ t => t = t0 /\ True)
       (BreatheLedAnimation.start timeout false fuel)
       (fun _ _ t => deadline_passed (deadline timeout t0) t).
Proof.
  unfold BreatheLedAnimation.start.
  apply (calm_prologue BreatheLedAnimation.stoppingL timeout t0 (fun _ => True));
    [by intros [] | done |].
  repeat calm_keep.
  apply (calm_loop_then BreatheLedAnimation.stoppingL _ (fun _ => True)
           (fun s : BreatheLedAnimation.locals => snd s = false)); [|done].
  intros [[brightness step_] ending] Hending. simpl in Hending. subst ending.
  cbv beta iota zeta. cbn [andb]. repeat calm_keep.
  by apply (calm_ret_state _ (fun s : BreatheLedAnimation.locals => snd s = false)).
Qed.

Lemma refill_ends_late timeout fuel t0 :
  calm (fun _ t => t = t0 /\ True)
       (RefillLedAnimation.start timeout false fuel)
       (fun _ _ t => deadline_passed (deadline timeout t0) t).
Proof.
  unfold RefillLedAnimation.start, RefillLedAnimation.cycle.
  apply (calm_prologue RefillLedAnimation.stoppingL timeout t0 (fun _ => True));
    [by intros [] | done |].
  apply (calm_loop RefillLedAnimation.stoppingL _ (fun _ => True)
           (fun _ => True)); [|done].
  intros [] _. apply calm_unit_body. repeat calm_keep.
Qed.

Lemma bounce_ends_late timeout fuel t0 :
  calm (fun _ t => t = t0 /\ True)
       (BounceLedAnimation.start timeout false fuel)
       (fun _ _ t => deadline_passed (deadline timeout t0) t).
Proof.
  unfold BounceLedAnimation.start, BounceLedAnimation.cycle,
    BounceLedAnimation.flip_reverse.
  apply (calm_prologue BounceLedAnimation.stoppingL timeout t0 (fun _ => True));
    [by intros [] | done |].
  apply (calm_loop BounceLedAnimation.stoppingL _ (fun _ => True)
           (fun _ => True)); [|done].
  intros [] _. apply calm_unit_body. repeat calm_keep.
Qed.

Lemma alternating_ends_late timeout fuel t0 :
  calm (fun _ t => t = t0 /\ True)
       (AlternatingLedAnimation.start timeout false fuel)
       (fun _ _ t => deadline_passed (deadline timeout t0) t).
Proof.
  unfold AlternatingLedAnimation.start, AlternatingLedAnimation.frame.
  calm_keep.
  apply (calm_prologue AlternatingLedAnimation.stoppingL timeout t0
           (fun _ => True)); [by intros [] | done |].
  apply (calm_loop_then AlternatingLedAnimation.stoppingL _ (fun _ => True)
           (fun _ : bool => True)); [|done].
  intros evens _. cbv beta iota zeta. cbn [andb]. repeat calm_keep.
  by apply (calm_ret_state _ (fun _ : bool => True)).
Qed.

Lemma blink_ends_late timeout fuel t0 :
  calm (fun i t => t = t0 /\ BlinkLedAnimation.repeat i = true)
       (BlinkLedAnimation.start timeout false fuel)
       (fun _ _ t => deadline_passed (deadline timeout t0) t).
Proof.
  unfold BlinkLedAnimation.start, BlinkLedAnimation.blinks.
  apply (calm_prologue BlinkLedAnimation.stoppingL timeout t0
           (fun i => BlinkLedAnimation.repeat i = true));
    [by intros [] | by intros [] |].
  do 2 calm_keep.
  apply (calm_loop BlinkLedAnimation.stoppingL _
           (fun i => BlinkLedAnimation.repeat i = true) (fun _ => True)); [|done].
  intros [] _. apply calm_unit_body.
  calm_keep; [repeat calm_keep|].
  apply calm_bind
    with (Q := fun r i t =>
                 r = true
                 /\ (BlinkLedAnimation.repeat i = true
                     /\ ends_late BlinkLedAnimation.stoppingL
                          (deadline timeout t0) i t)).
  { intros w Hs [Hr Hl] r w' [= ? ?]. by subst. }
  intros r. apply calm_pure. intros ->. cbv iota. repeat calm_keep.
Qed.

Lemma calm_run {I A} (P : I -> Z -> Prop) (m : M I A) Q a d t0 v w' :
  calm P m Q -> P a t0 -> run m a d t0 no_stop = Returned v w' ->
  Q v (self w') (now w').
Proof. intros Hm Hp E. by destruct (Hm (init_world a d t0 no_stop) eq_refl Hp v w' E). Qed.

Lemma no_deadline timeout t0 t :
  timeout = None \/ timeout = Some 0%Z ->
  ~ deadline_passed (deadline timeout t0) t.
Proof. intros [-> | ->] Hd; exact Hd. Qed.

Lemma deadline_passed_lt z t0 t :
  deadline_passed (deadline (Some z) t0) t -> (t0 + 1000 * z < t)%Z.
Proof. unfold deadline. destruct (z =? 0)%Z; simpl; [done|]. by intros [_ ?]. Qed.

(** X10. Without [one_shot], with no timeout or a timeout of zero (which
    the code reads as no timeout), and with nobody calling [stop()], [start]
    never returns: Breathe, Chase, Refill, Bounce, Alternating, and Blink when
    its [repeat] is on, are still running after any number of loop passes. *)
Theorem start_runs_until_stopped (timeout : option Z) (fuel : nat)
    (d : AbstractLed.t) (t0 : Z) :
  timeout = None \/ timeout = Some 0%Z ->
  (forall a, has_returned
     (run (BreatheLedAnimation.start timeout false fuel) a d t0 no_stop) = false)
  /\ (forall a, has_returned
     (run (ChaseLedAnimation.start timeout false fuel) a d t0 no_stop) = false)
  /\ (forall a, has_returned
     (run (RefillLedAnimation.start timeout false fuel) a d t0 no_stop) = false)
  /\ (forall a, has_returned
     (run (BounceLedAnimation.start timeout false fuel) a d t0 no_stop) = false)
  /\ (forall a, BlinkLedAnimation.repeat a = true ->
      has_returned
        (run (BlinkLedAnimation.start timeout false fuel) a d t0 no_stop) = false)
  /\ (forall a, has_returned
     (run (AlternatingLedAnimation.start timeout false fuel) a d t0 no_stop)
     = false).
Proof.
  intros Hto. repeat split; intros a.
  - destruct (run _ a d t0 no_stop) as [v w'|w'] eqn:E; [exfalso|done].
    eapply (no_deadline timeout t0), (calm_run _ _ _ a d t0 v w'
      (breathe_ends_late timeout fuel t0)); done.
  - destruct (run _ a d t0 no_stop) as [v w'|w'] eqn:E; [exfalso|done].
    eapply (no_deadline timeout t0), (calm_run _ _ _ a d t0 v w'
      (chase_ends_late timeout fuel t0)); done.
  - destruct (run _ a d t0 no_stop) as [v w'|w'] eqn:E; [exfalso|done].
    eapply (no_deadline timeout t0), (calm_run _ _ _ a d t0 v w'
      (refill_ends_late timeout fuel t0)); done.
  - destruct (run _ a d t0 no_stop) as [v w'|w'] eqn:E; [exfalso|done].
    eapply (no_deadline timeout t0), (calm_run _ _ _ a d t0 v w'
      (bounce_ends_late timeout fuel t0)); done.
  - intros Hr.
    destruct (run _ a d t0 no_stop) as [v w'|w'] eqn:E; [exfalso|done].
    eapply (no_deadline timeout t0), (calm_run _ _ _ a d t0 v w'
      (blink_ends_late timeout fuel t0)); done.
  - destruct (run _ a d t0 no_stop) as [v w'|w'] eqn:E; [exfalso|done].
    eapply (no_deadline timeout t0), (calm_run _ _ _ a d t0 v w'
      (alternating_ends_late timeout fuel t0)); done.
Qed.

Lemma start_runs_until_stopped_witness :
  (Some 0%Z = None \/ Some 0%Z = Some 0%Z)
  /\ has_returned
       (run (ChaseLedAnimation.start (Some 0%Z) false 7)
            (ChaseLedAnimation.init red blue) (strip 2 blue) 0 no_stop) = false
  /\ has_returned
       (run (BlinkLedAnimation.start (Some 0%Z) false 7)
            (BlinkLedAnimation.init red 2 true) (strip 2 blue) 0 no_stop) = false.
Proof.
  split; [by right|].
  destruct (start_runs_until_stopped (Some 0%Z) 7 (strip 2 blue) 0
              (or_intror eq_refl)) as (_ & Hc & _ & _ & Hb & _).
  split; [apply Hc | apply Hb; reflexivity].
Defined.

(** X11. A timeout never ends a run early: without [one_shot] and with nobody
    calling [stop()], when [start] with a timeout of [z] seconds returns, the
    clock is past the deadline, more than [1000 * z] ms after the start.  The
    deadline is only looked at between passes, so the pass under way is
    always finished first. *)
Theorem timeout_never_ends_early (z : Z) (fuel : nat) (d : AbstractLed.t)
    (t0 : Z) :
  (forall a w',
     run (BreatheLedAnimation.start (Some z) false fuel) a d t0 no_stop
     = Returned tt w' -> (t0 + 1000 * z < now w')%Z)
  /\ (forall a w',
     run (ChaseLedAnimation.start (Some z) false fuel) a d t0 no_stop
     = Returned tt w' -> (t0 + 1000 * z < now w')%Z)
  /\ (forall a w',
     run (RefillLedAnimation.start (Some z) false fuel) a d t0 no_stop
     = Returned tt w' -> (t0 + 1000 * z < now w')%Z)
  /\ (forall a w',
     run (BounceLedAnimation.start (Some z) false fuel) a d t0 no_stop
     = Returned tt w' -> (t0 + 1000 * z < now w')%Z)
  /\ (forall a w',
     BlinkLedAnimation.repeat a = true ->
     run (BlinkLedAnimation.start (Some z) false fuel) a d t0 no_stop
     = Returned tt w' -> (t0 + 1000 * z < now w')%Z)
  /\ (forall a w',
     run (AlternatingLedAnimation.start (Some z) false fuel) a d t0 no_stop
     = Returned tt w' -> (t0 + 1000 * z < now w')%Z).
Proof.
  repeat split; intros a w'.
  - intros E. apply deadline_passed_lt.
    by apply (calm_run _ _ _ a d t0 tt w' (breathe_ends_late (Some z) fuel t0)).
  - intros E. apply deadline_passed_lt.
    by apply (calm_run _ _ _ a d t0 tt w' (chase_ends_late (Some z) fuel t0)).
  - intros E. apply deadline_passed_lt.
    by apply (calm_run _ _ _ a d t0 tt w' (refill_ends_late (Some z) fuel t0)).
  - intros E. apply deadline_passed_lt.
    by apply (calm_run _ _ _ a d t0 tt w' (bounce_ends_late (Some z) fuel t0)).
  - intros Hr E. apply deadline_passed_lt.
    by apply (calm_run _ _ _ a d t0 tt w' (blink_ends_late (Some z) fuel t0)).
  - intros E. apply deadline_passed_lt.
    by apply (calm_run _ _ _ a d t0 tt w' (alternating_ends_late (Some z) fuel t0)).
Qed.

Lemma timeout_never_ends_early_witness :
  (let o := run (BreatheLedAnimation.start (Some 1%Z) false 30)
                (BreatheLedAnimation.init red) (strip 2 blue) 0 no_stop in
   has_returned o = true /\ (0 + 1000 * 1 < now (world_of o))%Z)
  /\ (let o := run (ChaseLedAnimation.start (Some 1%Z) false 30)
                (ChaseLedAnimation.init red blue) (strip 2 blue) 0 no_stop in
   has_returned o = true /\ (0 + 1000 * 1 < now (world_of o))%Z)
  /\ (let o := run (RefillLedAnimation.start (Some 1%Z) false 30)
                (RefillLedAnimation.init red false) (strip 2 blue) 0 no_stop in
   has_returned o = true /\ (0 + 1000 * 1 < now (world_of o))%Z)
  /\ (let o := run (BounceLedAnimation.start (Some 1%Z) false 30)
                (BounceLedAnimation.init red false) (strip 2 blue) 0 no_stop in
   has_returned o = true /\ (0 + 1000 * 1 < now (world_of o))%Z)
  /\ (let o := run (BlinkLedAnimation.start (Some 1%Z) false 30)
                (BlinkLedAnimation.init red 2 true) (strip 2 blue) 0 no_stop in
   has_returned o = true /\ (0 + 1000 * 1 < now (world_of o))%Z)
  /\ (let o := run (AlternatingLedAnimation.start (Some 1%Z) false 30)
                (AlternatingLedAnimation.init red) (strip 2 blue) 0 no_stop in
   has_returned o = true /\ (0 + 1000 * 1 < now (world_of o))%Z).
Proof.
  destruct (timeout_never_ends_early 1 30 (strip 2 blue) 0)
    as (H1 & H2 & H3 & H4 & H5 & H6).
  split; [|split; [|split; [|split; [|split]]]];
    (split; [vm_compute; reflexivity|]).
  - apply (H1 (BreatheLedAnimation.init red)). vm_compute. reflexivity.
  - apply (H2 (ChaseLedAnimation.init red blue)). vm_compute. reflexivity.
  - apply (H3 (RefillLedAnimation.init red false)). vm_compute. reflexivity.
  - apply (H4 (BounceLedAnimation.init red false)). vm_compute. reflexivity.
  - apply (H5 (BlinkLedAnimation.init red 2 true)); [reflexivity|].
    vm_compute. reflexivity.
  - apply (H6 (AlternatingLedAnimation.init red)). vm_compute. reflexivity.
Defined.

(** ** The frames of Alternating *)

Lemma alternating_start_unfold timeout one_shot fuel :
  AlternatingLedAnimation.start timeout one_shot fuel
  = bind (leds_fill (as_rgb_tuple BLACK)) (fun _ =>
      bind (Event_clear AlternatingLedAnimation.stoppingL) (fun _ =>
        bind (end_time_of timeout) (fun end_time =>
          bind (while_not_set AlternatingLedAnimation.stoppingL fuel true
                  (alternating_pass one_shot end_time))
               (fun _ => leds_fill (as_rgb_tuple BLACK))))).
Proof. reflexivity. Qed.

Lemma alternating_obs_stop i : alternating_obs (stop i) = alternating_obs i.
Proof. by destruct i. Qed.

Lemma alternating_obs_set b i :
  alternating_obs (update AlternatingLedAnimation.stoppingL b i) = alternating_obs i.
Proof. by destruct i. Qed.

(** One pass of the loop, whatever the other thread does: the frame of the
    phase and the wait; the phase handed on is the other one; the last pass
    of a one-shot run leaves the flag up. *)
Lemma alternating_pass_spec n c ms one_shot end_time evens w :
  alternating_obs (self w) = (c, ms) -> AbstractLed.num_leds (leds w) = n ->
  exists w',
    alternating_pass one_shot end_time evens w = Returned (negb evens) w'
    /\ calls (trace w')
       = calls (trace w) ++ frame_calls (as_rgb_tuple c) evens n ++ [EWait ms]
    /\ alternating_obs (self w') = (c, ms)
    /\ AbstractLed.num_leds (leds w') = n
    /\ (one_shot && negb evens = true ->
        view AlternatingLedAnimation.stoppingL (self w') = true).
Proof.
  intros Hx Hn.
  assert (Hemits : emits alternating_obs n (c, ms)
                     (alternating_pass one_shot end_time evens)
                     (frame_calls (as_rgb_tuple c) evens n ++ [EWait ms]) (c, ms)).
  { assert (Hstop : forall i, alternating_obs (stop i) = alternating_obs i)
      by apply alternating_obs_stop.
    unfold alternating_pass, AlternatingLedAnimation.frame.
    eapply emits_eq;
      [|eapply emits_bind
          with (x1 := (c, ms)) (es1 := frame_calls (as_rgb_tuple c) evens n)
               (es2 := [EWait ms] ++ [] ++ [])].
    2: { unfold frame_calls. apply emits_num_leds. rewrite <- flat_map_singleton.
         apply emits_bind with (x1 := (c, ms)); [|intros _; by apply emits_leds_show].
         apply emits_for. intros led.
         apply emits_read with (v := c); [by intros w0 [= ? ?]|].
         unfold lit. pose proof (Nat.mod_upper_bound led 2).
         destruct evens, (led mod 2) as [|[|r]]; simpl;
           try (by apply emits_leds_set_led); lia. }
    2: { intros _. apply emits_read with (v := ms); [by intros w0 [= ? ?]|].
         apply emits_bind with (x1 := (c, ms)) (es1 := [EWait ms]) (es2 := []);
           [by apply emits_Event_wait | intros _].
         cbv zeta.
         apply emits_bind with (x1 := (c, ms)) (es1 := []) (es2 := []);
           [|intros _; by apply emits_ret].
         apply emits_stop_conditions; [done | apply alternating_obs_set]. }
    by rewrite !app_nil_r. }
  destruct (Hemits w Hx Hn) as (a & w' & E & Hc & _ & Hx' & Hn').
  assert (Hval : a = negb evens
                 /\ (one_shot && negb evens = true ->
                     view AlternatingLedAnimation.stoppingL (self w') = true)).
  { pose proof E as E0. unfold alternating_pass in E0.
    apply bind_returned_inv in E0 as ([] & w1 & _ & E0).
    rewrite bind_gets in E0.
    apply bind_returned_inv in E0 as ([] & w2 & _ & E0). cbv zeta in E0.
    apply bind_returned_inv in E0 as ([] & w3 & E3 & E4).
    injection E4 as <- <-. split; [done|]. intros Hlast. rewrite Hlast in E3.
    apply (Event_set_sets AlternatingLedAnimation.stoppingL _ _ _
             (fun b i => match i with AlternatingLedAnimation.mk _ _ _ _ => eq_refl end)
             E3). }
  destruct Hval as [-> Hflag]. by exists w'.
Qed.

(** A loop met with the flag up makes no pass. *)
Lemma alternating_loop_flag_up n x one_shot end_time fuel evens w :
  alternating_obs (self w) = x -> AbstractLed.num_leds (leds w) = n ->
  view AlternatingLedAnimation.stoppingL (self w) = true ->
  let o := while_not_set AlternatingLedAnimation.stoppingL fuel evens
             (alternating_pass one_shot end_time) w in
  calls (trace (world_of o)) = calls (trace w)
  /\ alternating_obs (self (world_of o)) = x
  /\ AbstractLed.num_leds (leds (world_of o)) = n
  /\ (has_returned o = true \/ fuel = 0).
Proof.
  intros Hx Hn Hf o. subst o. destruct fuel as [|fuel]; [by auto|].
  rewrite while_not_set_step. unfold sched.
  destruct (stops w (pc w)); cbn [self].
  - replace (view AlternatingLedAnimation.stoppingL (stop (self w))) with true
      by by destruct (self w).
    simpl. rewrite calls_app, alternating_obs_stop. simpl.
    rewrite app_nil_r. by auto.
  - rewrite Hf. simpl. by auto.
Qed.

(** The loop, whatever the other thread does and however far it gets: a
    number of frames in alternating phases; a pass is made for each unit of
    fuel unless the loop has ended; a one-shot loop ends with the odd frame
    at the latest. *)
Lemma alternating_loop n c ms one_shot end_time fuel :
  forall evens w,
    alternating_obs (self w) = (c, ms) -> AbstractLed.num_leds (leds w) = n ->
    let o := while_not_set AlternatingLedAnimation.stoppingL fuel evens
               (alternating_pass one_shot end_time) w in
    exists m,
      calls (trace (world_of o))
      = calls (trace w) ++ alternating_frames (as_rgb_tuple c) ms n evens m
      /\ alternating_obs (self (world_of o)) = (c, ms)
      /\ AbstractLed.num_leds (leds (world_of o)) = n
      /\ m <= fuel
      /\ (has_returned o = true \/ m = fuel)
      /\ (one_shot = true -> m <= if evens then 2 else 1).
Proof.
  induction fuel as [|fuel IH]; intros evens w Hx Hn o; subst o.
  { exists 0. simpl. rewrite app_nil_r. repeat split; auto; lia. }
  rewrite while_not_set_step.
  destruct (emits_sched alternating_obs n alternating_obs_stop (c, ms) w Hx Hn)
    as ([] & w1 & E1 & Hc1 & _ & Hx1 & Hn1).
  rewrite E1. rewrite app_nil_r in Hc1.
  destruct (view AlternatingLedAnimation.stoppingL (self w1)).
  { exists 0. simpl. rewrite app_nil_r.
    repeat split; auto; lia. }
  destruct (alternating_pass_spec n c ms one_shot end_time evens w1 Hx1 Hn1)
    as (w2 & E2 & Hc2 & Hx2 & Hn2 & Hflag).
  unfold bind. rewrite E2.
  destruct (one_shot && negb evens) eqn:Hlast.
  - destruct (alternating_loop_flag_up n (c, ms) one_shot end_time fuel
                (negb evens) w2 Hx2 Hn2 (Hflag eq_refl)) as (Hc3 & Hx3 & Hn3 & Hr3).
    exists 1. cbn [alternating_frames]. rewrite Hc3, Hc2, Hc1, app_nil_r.
    split; [by rewrite <- ?(assoc_L (++))|].
    split; [done|]. split; [done|]. split; [lia|].
    split; [destruct Hr3 as [?| ->]; by auto|].
    intros _. destruct evens; lia.
  - destruct (IH (negb evens) w2 Hx2 Hn2) as (m & Hc3 & Hx3 & Hn3 & Hm & Hr3 & Hb).
    exists (S m). cbn [alternating_frames]. rewrite Hc3, Hc2, Hc1.
    split; [by rewrite <- ?(assoc_L (++))|].
    split; [done|]. split; [done|]. split; [lia|].
    split; [destruct Hr3 as [?| ->]; by auto|].
    intros ->. destruct evens; [|done]. specialize (Hb eq_refl). simpl in Hb. lia.
Qed.

(** A run of [start], whatever the other thread does and however far it
    gets. *)
Lemma alternating_run_frames a d t0 sch timeout one_shot fuel :
  let o := run (AlternatingLedAnimation.start timeout one_shot fuel) a d t0 sch in
  exists m,
    calls (trace (world_of o))
    = [EFill (as_rgb_tuple BLACK)]
      ++ alternating_frames (as_rgb_tuple (AlternatingLedAnimation.color a))
           (AlternatingLedAnimation.delay a) (AbstractLed.num_leds d) true m
      ++ (if has_returned o then [EFill (as_rgb_tuple BLACK)] else [])
    /\ m <= fuel
    /\ (has_returned o = true \/ m = fuel)
    /\ (one_shot = true -> m <= 2).
Proof.
  intros o. subst o. set (n := AbstractLed.num_leds d).
  set (x := (AlternatingLedAnimation.color a, AlternatingLedAnimation.delay a)).
  assert (Hstop := alternating_obs_stop).
  rewrite alternating_start_unfold. unfold run.
  destruct (emits_leds_fill alternating_obs n Hstop x (as_rgb_tuple BLACK)
              (init_world a d t0 sch) eq_refl eq_refl)
    as ([] & w1 & E1 & Hc1 & _ & Hx1 & Hn1).
  rewrite (bind_returned _ _ _ _ _ E1).
  destruct (emits_Event_clear alternating_obs n x AlternatingLedAnimation.stoppingL
              Hstop alternating_obs_set w1 Hx1 Hn1)
    as ([] & w2 & E2 & Hc2 & _ & Hx2 & Hn2).
  rewrite (bind_returned _ _ _ _ _ E2).
  destruct (emits_end_time_of alternating_obs n x timeout Hstop w2 Hx2 Hn2)
    as (e & w3 & E3 & Hc3 & _ & Hx3 & Hn3).
  rewrite (bind_returned _ _ _ _ _ E3).
  destruct (alternating_loop n (AlternatingLedAnimation.color a)
              (AlternatingLedAnimation.delay a) one_shot e fuel true w3 Hx3 Hn3)
    as (m & Hc4 & Hx4 & Hn4 & Hm & Hr & Hb).
  exists m.
  destruct (while_not_set AlternatingLedAnimation.stoppingL fuel true
              (alternating_pass one_shot e) w3) as [s w4|w4] eqn:E4;
    cbn [world_of has_returned] in *.
  - destruct (emits_leds_fill alternating_obs n Hstop x (as_rgb_tuple BLACK)
                w4 Hx4 Hn4) as ([] & w5 & E5 & Hc5 & _).
    rewrite (bind_returned _ _ _ _ _ E4), E5. cbn [world_of has_returned].
    rewrite Hc5, Hc4, Hc3, Hc2, Hc1. simpl. rewrite ?app_nil_r.
    repeat split; auto.
  - assert (Eo : bind (while_not_set AlternatingLedAnimation.stoppingL fuel true
                         (alternating_pass one_shot e))
                   (fun _ => leds_fill (as_rgb_tuple BLACK)) w3 = Running w4)
      by (unfold bind; by rewrite E4).
    rewrite Eo. cbn [world_of has_returned].
    rewrite Hc4, Hc3, Hc2, Hc1. simpl. rewrite ?app_nil_r.
    repeat split; auto.
Qed.

(** The operations of a run nobody stops. *)
Lemma end_time_of_no_stop {I} `{LedAnimation I} timeout (a : I) dv t tr p :
  exists p',
    end_time_of timeout (mkWorld a dv t tr p (fun _ => false))
    = Returned (deadline timeout t) (mkWorld a dv t tr p' (fun _ => false)).
Proof.
  unfold end_time_of, deadline. destruct timeout as [z|]; [|by exists p].
  destruct (z =? 0)%Z; [by exists p|]. by exists (S p).
Qed.

Lemma timed_out_no_stop {I} `{LedAnimation I} end_time (a : I) dv t tr p :
  ~ deadline_passed end_time t ->
  exists p',
    timed_out end_time (mkWorld a dv t tr p (fun _ => false))
    = Returned false (mkWorld a dv t tr p' (fun _ => false)).
Proof.
  intros Hd. unfold timed_out. destruct end_time as [e|]; [|by exists p].
  destruct (e =? 0)%Z eqn:He; [by exists p|]. exists (S p).
  unfold bind, time, bind, sched, gets, ret. simpl.
  replace (e <? t)%Z with false; [done|]. symmetry. apply Z.ltb_ge.
  apply Z.eqb_neq in He. simpl in Hd. lia.
Qed.

Lemma Event_wait_no_stop {I} `{LedAnimation I} (e : Lens I Event) ms (a : I)
    dv t tr p :
  view e a = false ->
  Event_wait e ms (mkWorld a dv t tr p (fun _ => false))
  = Returned tt (mkWorld a dv (t + Z.max 0 ms) (tr ++ [EWait ms]) (S p)
                         (fun _ => false)).
Proof.
  intros He. unfold Event_wait, bind, sched, gets, log, sleep, ret. simpl.
  by rewrite He.
Qed.

Lemma while_step_no_stop {I} `{LedAnimation I} {St} (stopping : Lens I Event)
    fuel (s s' : St) (body : St -> M I St) (a : I) dv t tr p w' :
  view stopping a = false ->
  body s (mkWorld a dv t tr (S p) (fun _ => false)) = Returned s' w' ->
  while_not_set stopping (S fuel) s body (mkWorld a dv t tr p (fun _ => false))
  = while_not_set stopping fuel s' body w'.
Proof.
  intros Hf E. rewrite while_not_set_step. unfold sched. cbn [stops self pc].
  rewrite Hf. by rewrite (bind_returned _ _ _ _ _ E).
Qed.

Lemma while_end_no_stop {I} `{LedAnimation I} {St} (stopping : Lens I Event)
    fuel (s : St) (body : St -> M I St) (a : I) dv t tr p :
  view stopping a = true ->
  while_not_set stopping (S fuel) s body (mkWorld a dv t tr p (fun _ => false))
  = Returned s (mkWorld a dv t tr (S p) (fun _ => false)).
Proof.
  intros Hf. rewrite while_not_set_step. unfold sched. cbn [stops self pc].
  by rewrite Hf.
Qed.

(** One pass of the loop when nobody calls [stop()], for the last pass of a
    one-shot run and for a pass at whose end the deadline has not passed. *)
Lemma alternating_pass_no_stop one_shot end_time evens a dv t tr p :
  AlternatingLedAnimation._delay a = false ->
  one_shot && negb evens = true
  \/ ~ deadline_passed end_time (t + Z.max 0 (AlternatingLedAnimation.delay a)) ->
  exists p',
    alternating_pass one_shot end_time evens (mkWorld a dv t tr p (fun _ => false))
    = Returned (negb evens)
        (mkWorld
           (if one_shot && negb evens
            then update AlternatingLedAnimation.stoppingL true a else a)
           (replay (frame_calls (as_rgb_tuple (AlternatingLedAnimation.color a))
                                evens (AbstractLed.num_leds dv)) dv)
           (t + Z.max 0 (AlternatingLedAnimation.delay a))
           ((tr ++ frame_calls (as_rgb_tuple (AlternatingLedAnimation.color a))
                               evens (AbstractLed.num_leds dv))
            ++ [EWait (AlternatingLedAnimation.delay a)])
           p' (fun _ => false)).
Proof.
  intros Hdelay Hcase. unfold alternating_pass.
  rewrite (bind_returned _ _ _ _ _ (alternating_frame_no_stop evens a dv t tr p)).
  rewrite bind_gets. cbn [self].
  rewrite (bind_returned _ _ _ _ _
             (Event_wait_no_stop AlternatingLedAnimation.delayL _ a _ _ _ _ Hdelay)).
  cbv zeta. destruct (one_shot && negb evens).
  - eexists. reflexivity.
  - destruct Hcase as [?|Hd]; [done|].
    destruct (timed_out_no_stop end_time a
                (replay (frame_calls (as_rgb_tuple (AlternatingLedAnimation.color a))
                                     evens (AbstractLed.num_leds dv)) dv)
                (t + Z.max 0 (AlternatingLedAnimation.delay a))
                ((tr ++ frame_calls (as_rgb_tuple (AlternatingLedAnimation.color a))
                                    evens (AbstractLed.num_leds dv))
                 ++ [EWait (AlternatingLedAnimation.delay a)])
                (S (p + AbstractLed.num_leds dv + 1)) Hd) as (p' & E).
    exists p'. unfold bind at 1. unfold bind at 1. by rewrite E.
Qed.

(** A one-shot run nobody stops, whose deadline, if any, lies ahead. *)
Lemma alternating_one_shot_no_stop c d t0 timeout fuel :
  timeout = None \/ (exists z, timeout = Some z /\ (0 <= z)%Z) ->
  let o := run (AlternatingLedAnimation.start timeout true (S (S (S fuel))))
               (AlternatingLedAnimation.init c) d t0 no_stop in
  has_returned o = true
  /\ trace (world_of o)
     = [EFill (as_rgb_tuple BLACK)]
       ++ frame_calls (as_rgb_tuple c) true (AbstractLed.num_leds d)
       ++ [EWait 500]
       ++ frame_calls (as_rgb_tuple c) false (AbstractLed.num_leds d)
       ++ [EWait 500]
       ++ [EFill (as_rgb_tuple BLACK)].
Proof.
  intros Hto o. subst o.
  assert (Hd : ~ deadline_passed (deadline timeout t0) (t0 + 500)%Z).
  { destruct Hto as [-> | (z & -> & Hz)]; [by intros []|].
    unfold deadline. destruct (z =? 0)%Z eqn:E; [by intros []|].
    apply Z.eqb_neq in E. simpl. lia. }
  set (a1 := update AlternatingLedAnimation.stoppingL false
               (AlternatingLedAnimation.init c)).
  set (d1 := AbstractLed.fill d (as_rgb_tuple BLACK)).
  rewrite alternating_start_unfold. unfold run, init_world, no_stop.
  rewrite (bind_returned _ _ _ _ _
             (leds_fill_quiet (I := AlternatingLedAnimation.t) _ _ _ _ _ _
                (fun _ => false) eq_refl)).
  rewrite (bind_returned _ _ _ _ _
             (Event_clear_quiet (I := AlternatingLedAnimation.t) _ _ _ _ _ _
                (fun _ => false) eq_refl)).
  fold a1 d1.
  destruct (end_time_of_no_stop timeout a1 d1 t0 ([] ++ [EFill (as_rgb_tuple BLACK)]) 2)
    as (p1 & E1).
  rewrite (bind_returned _ _ _ _ _ E1).
  destruct (alternating_pass_no_stop true (deadline timeout t0) true a1 d1 t0
              ([] ++ [EFill (as_rgb_tuple BLACK)]) (S p1) eq_refl (or_intror Hd))
    as (p2 & E2).
  cbn [andb negb] in E2.
  destruct (alternating_pass_no_stop true (deadline timeout t0) false a1
              (replay (frame_calls (as_rgb_tuple (AlternatingLedAnimation.color a1))
                                   true (AbstractLed.num_leds d1)) d1)
              (t0 + Z.max 0 (AlternatingLedAnimation.delay a1))
              ((([] ++ [EFill (as_rgb_tuple BLACK)])
                ++ frame_calls (as_rgb_tuple (AlternatingLedAnimation.color a1))
                               true (AbstractLed.num_leds d1))
               ++ [EWait (AlternatingLedAnimation.delay a1)])
              (S p2) eq_refl (or_introl eq_refl))
    as (p3 & E3).
  cbn [andb negb] in E3.
  unfold bind.
  rewrite (while_step_no_stop AlternatingLedAnimation.stoppingL _ _ _ _ a1
             _ _ _ _ _ eq_refl E2).
  rewrite (while_step_no_stop AlternatingLedAnimation.stoppingL _ _ _ _ a1
             _ _ _ _ _ eq_refl E3).
  rewrite (while_end_no_stop AlternatingLedAnimation.stoppingL _ _ _
             (update AlternatingLedAnimation.stoppingL true a1) _ _ _ _ eq_refl).
  rewrite (leds_fill_quiet (I := AlternatingLedAnimation.t) _ _ _ _ _ _
             (fun _ => false) eq_refl).
  cbn [has_returned world_of trace]. split; [done|].
  unfold d1. rewrite !replay_num_leds, !num_leds_fill.
  cbn [app]. by rewrite <- !(assoc_L (++)).
Qed.

(** C9. Whatever the number of LEDs and whatever [stop()] calls arrive, a
    frame of Alternating is one [set_led] call without flush for each LED, in
    index order, and then one [show()]: in the even phase the LEDs of even
    index get the colour and the others black, in the odd phase the LEDs of
    odd index get the colour and the others black, so each LED is lit in
    exactly one of the two phases.  In every run, whatever the timeout, the
    [stop()] calls and however far it gets, the frames rendered after the
    opening black fill alternate, even phase first, each followed by the
    wait; the closing black fill follows when [start] returns; the loop goes
    on frame after frame until it has ended, and with [one_shot] it makes at
    most two frames.  With [one_shot], no [stop()] and no timeout or one that
    is not negative, the run is exactly the even frame and the odd frame.
    Without [one_shot], timeout and [stop()], the frames go on alternating
    for ever. *)
Theorem alternating_frames_partition_leds :
  (forall (w : World AlternatingLedAnimation.t) (evens : bool),
     exists w',
       AlternatingLedAnimation.frame evens w = Returned tt w'
       /\ calls (trace w')
          = calls (trace w)
            ++ map (fun led =>
                      ESetLed led
                        (if lit evens led
                         then as_rgb_tuple (AlternatingLedAnimation.color (self w))
                         else as_rgb_tuple BLACK) false)
                   (seq 0 (AbstractLed.num_leds (leds w)))
            ++ [EShow])
  /\ (forall led,
        lit true led = negb (lit false led)
        /\ (lit true led = true <-> led mod 2 = 0)
        /\ (lit false led = true <-> led mod 2 = 1))
  /\ (forall (a : AlternatingLedAnimation.t) (d : AbstractLed.t) (t0 : Z)
             (sch : nat -> bool) (timeout : option Z) (one_shot : bool)
             (fuel : nat),
        let o := run (AlternatingLedAnimation.start timeout one_shot fuel)
                     a d t0 sch in
        exists m,
          calls (trace (world_of o))
          = [EFill (as_rgb_tuple BLACK)]
            ++ alternating_frames
                 (as_rgb_tuple (AlternatingLedAnimation.color a))
                 (AlternatingLedAnimation.delay a) (AbstractLed.num_leds d) true m
            ++ (if has_returned o then [EFill (as_rgb_tuple BLACK)] else [])
          /\ m <= fuel
          /\ (has_returned o = true \/ m = fuel)
          /\ (one_shot = true -> m <= 2))
  /\ (forall (c : Color) (d : AbstractLed.t) (t0 : Z) (timeout : option Z)
             (fuel : nat),
        timeout = None \/ (exists z, timeout = Some z /\ (0 <= z)%Z) ->
        let o := run (AlternatingLedAnimation.start timeout true (S (S (S fuel))))
                     (AlternatingLedAnimation.init c) d t0 no_stop in
        has_returned o = true
        /\ trace (world_of o)
           = [EFill (as_rgb_tuple BLACK)]
             ++ frame_calls (as_rgb_tuple c) true (AbstractLed.num_leds d)
             ++ [EWait 500]
             ++ frame_calls (as_rgb_tuple c) false (AbstractLed.num_leds d)
             ++ [EWait 500]
             ++ [EFill (as_rgb_tuple BLACK)])
  /\ (forall (a : AlternatingLedAnimation.t) (d : AbstractLed.t) (t0 : Z)
             (fuel : nat),
        let o := run (AlternatingLedAnimation.start None false fuel)
                     a d t0 no_stop in
        has_returned o = false
        /\ calls (trace (world_of o))
           = [EFill (as_rgb_tuple BLACK)]
             ++ alternating_frames
                  (as_rgb_tuple (AlternatingLedAnimation.color a))
                  (AlternatingLedAnimation.delay a) (AbstractLed.num_leds d)
                  true fuel).
Proof.
  split; [|split; [|split; [|split]]].
  - intros w evens.
    destruct (alternating_frame_emits (AbstractLed.num_leds (leds w))
                (AlternatingLedAnimation.color (self w)) evens w eq_refl eq_refl)
      as ([] & w' & E & Hc & _).
    exists w'. split; [exact E|]. exact Hc.
  - intros led. split; [apply lit_partition|].
    unfold lit. split; apply Nat.eqb_eq.
  - intros a d t0 sch timeout one_shot fuel.
    apply alternating_run_frames.
  - intros c d t0 timeout fuel Hto.
    by apply alternating_one_shot_no_stop.
  - intros a d t0 fuel o.
    assert (Hr : has_returned o = false).
    { subst o. destruct (run _ a d t0 no_stop) as [v w'|w'] eqn:E; [exfalso|done].
      eapply (no_deadline None t0), (calm_run _ _ _ a d t0 v w'
        (alternating_ends_late None fuel t0)); by auto. }
    split; [exact Hr|].
    destruct (alternating_run_frames a d t0 no_stop None false fuel)
      as (m & Hc & _ & Hm & _).
    fold o in Hc, Hm. rewrite Hr in Hc, Hm.
    destruct Hm as [?| ->]; [done|]. by rewrite app_nil_r in Hc.
Qed.

Lemma alternating_frames_partition_leds_witness :
  (Some 1%Z = None \/ (exists z, Some 1%Z = Some z /\ (0 <= z)%Z))
  /\ (let o := run (AlternatingLedAnimation.start (Some 1%Z) true 3)
                  (AlternatingLedAnimation.init red) (strip 3 blue) 0 no_stop in
      has_returned o = true
      /\ trace (world_of o)
         = [EFill (as_rgb_tuple BLACK)]
           ++ frame_calls (as_rgb_tuple red) true (AbstractLed.num_leds (strip 3 blue))
           ++ [EWait 500]
           ++ frame_calls (as_rgb_tuple red) false (AbstractLed.num_leds (strip 3 blue))
           ++ [EWait 500]
           ++ [EFill (as_rgb_tuple BLACK)]).
Proof.
  assert (H : Some 1%Z = None \/ (exists z, Some 1%Z = Some z /\ (0 <= z)%Z)).
  { right. exists 1%Z. split; [reflexivity | lia]. }
  split; [exact H|].
  destruct alternating_frames_partition_leds as (_ & _ & _ & H4 & _).
  exact (H4 red (strip 3 blue) 0%Z (Some 1%Z) 0 H).
Defined.

(** C9, as stated, fails: a one-shot Alternating on three LEDs with [stop()]
    landing during the even frame, and one started with a timeout that has
    already run out.  Either renders the even frame alone: the loop ends at
    its next check, and no odd frame follows. *)
Lemma alternating_one_shot_even_frame_only :
  (let o := run (AlternatingLedAnimation.start None true 5)
                (AlternatingLedAnimation.init red) (strip 3 blue) 0 (stop_at 4) in
   has_returned o = true
   /\ stop_time (trace (world_of o)) = Some 0%Z
   /\ calls (trace (world_of o))
      = [EFill (as_rgb_tuple BLACK)]
        ++ frame_calls (as_rgb_tuple red) true 3 ++ [EWait 500]
        ++ [EFill (as_rgb_tuple BLACK)])
  /\ (let o := run (AlternatingLedAnimation.start (Some (-1)%Z) true 5)
                (AlternatingLedAnimation.init red) (strip 3 blue) 0 no_stop in
   has_returned o = true
   /\ trace (world_of o)
      = [EFill (as_rgb_tuple BLACK)]
        ++ frame_calls (as_rgb_tuple red) true 3 ++ [EWait 500]
        ++ [EFill (as_rgb_tuple BLACK)]).
Proof.
  split; (split; [vm_compute; reflexivity|]).
  - split; vm_compute; reflexivity.
  - vm_compute; reflexivity.
Qed.
